(** * Mesh normals and the loop-normal-space codec of
    [source/blender/blenkernel/intern/mesh_normals.cc]

  A shallow embedding of the normal engine: face and vertex normals,
  the sharp-edge classifier, the fan walker, the loop-split generator,
  the loop-normal-space codec and the custom-normal encoding pass.

  C [float] is IEEE-754 binary32, given by the [SpecFloat] operations at
  precision 24; C [int] and [short] values are integers in [Z]; arrays are
  lists read through [get] (a read outside the array is undefined in C and
  is [None] here). *)

From Stdlib Require Import ZArith Lia Bool.
From Stdlib Require Import SpecFloat.
From stdpp Require Import base option list.

Open Scope Z_scope.

(* ===================================================================== *)
(** ** binary32 arithmetic *)
(* ===================================================================== *)

Module F32.

Definition prec : Z := 24.
Definition emax : Z := 128.

Definition float : Type := spec_float.

Definition add : float -> float -> float := SFadd prec emax.
Definition sub : float -> float -> float := SFsub prec emax.
Definition mul : float -> float -> float := SFmul prec emax.
Definition div : float -> float -> float := SFdiv prec emax.
Definition sqrtf : float -> float := SFsqrt prec emax.
Definition neg : float -> float := SFopp.
Definition fabsf : float -> float := SFabs.

(** The C comparisons; every one of them is false on a NaN operand,
    except [!=]. *)
Definition eqb : float -> float -> bool := SFeqb.
Definition ltb : float -> float -> bool := SFltb.
Definition leb : float -> float -> bool := SFleb.
Definition gtb (a b : float) : bool := SFltb b a.
Definition geb (a b : float) : bool := SFleb b a.
Definition neqb (a b : float) : bool := negb (SFeqb a b).

(** [float(n)] for an integer [n]. *)
Definition of_Z (n : Z) : float := binary_normalize prec emax n 0 false.

Definition zero : float := S754_zero false.
Definition one : float := of_Z 1.
Definition two : float := of_Z 2.
Definition half : float := S754_finite false 8388608 (-24).

(** The exact integer [floor] of a finite value [(-1)^s * m * 2^e]. *)
Definition floor_Z (s : bool) (m : positive) (e : Z) : Z :=
  let n := cond_Zopp s (Zpos m) in
  if 0 <=? e then n * 2 ^ e else n / 2 ^ (- e).

(** [floorf]; the result keeps the sign of a negative argument that
    rounds to zero. *)
Definition floorf (a : float) : float :=
  match a with
  | S754_finite s m e =>
      if 0 <=? e then a
      else binary_normalize prec emax (floor_Z s m e) 0 s
  | _ => a
  end.

(** The C conversion [short(a)] of a float: truncation toward zero.  A NaN,
    an infinity or a value outside [SHRT_MIN, SHRT_MAX] is undefined in C;
    it reads as 0 here (what [cvttss2si] followed by the 16-bit store
    leaves on x86). *)
Definition to_short (a : float) : Z :=
  match a with
  | S754_finite s m e =>
      let n := cond_Zopp s (Zpos m) in
      let q := if 0 <=? e then n * 2 ^ e else Z.quot n (2 ^ (- e)) in
      if (-32768 <=? q) && (q <=? 32767) then q else 0
  | _ => 0
  end.

(** [float(M_PI)], [float(M_PI * 2.0)], [1e-4f], [1.0e-35f], [FLT_MAX]. *)
Definition M_PI : float := S754_finite false 13176795 (-22).
Definition pi2 : float := S754_finite false 13176795 (-21).
Definition c1e_4 : float := S754_finite false 13743895 (-37).
Definition c1e_35 : float := S754_finite false 13937966 (-140).
Definition SHRT_MAX : Z := 32767.

(** Equality of the 32-bit patterns is decidable: normals are compared as
    data when one is copied over another. *)
#[global] Instance float_eq_dec : EqDecision float.
Proof. solve_decision. Defined.

End F32.

Import F32.

(* ===================================================================== *)
(** ** Vectors and the blenlib helpers *)
(* ===================================================================== *)

Record float3 : Type := Float3 { fx : float; fy : float; fz : float }.

#[global] Instance float3_eq_dec : EqDecision float3.
Proof. solve_decision. Defined.

#[global] Instance float3_inhabited : Inhabited float3 :=
populate (Float3 zero zero zero).

(** The helpers of [BLI_math] are used by the file but are not part of it. *)
Module BLI.

(** Modelled from the spec: [zero_v3] of BLI_math, the vector of three
    positive zeros. *)
Definition zero_v3 : float3 := Float3 zero zero zero.

(** Modelled from the spec: [dot_v3v3] of BLI_math, the sum of the three
    component products, left to right. *)
Definition dot_v3v3 (a b : float3) : float :=
  add (add (mul (fx a) (fx b)) (mul (fy a) (fy b))) (mul (fz a) (fz b)).

(** Modelled from the spec: [add_v3_v3] of BLI_math, [r += a]. *)
Definition add_v3_v3 (r a : float3) : float3 :=
  Float3 (add (fx r) (fx a)) (add (fy r) (fy a)) (add (fz r) (fz a)).

(** Modelled from the spec: [sub_v3_v3v3] of BLI_math, [a - b]. *)
Definition sub_v3_v3v3 (a b : float3) : float3 :=
  Float3 (sub (fx a) (fx b)) (sub (fy a) (fy b)) (sub (fz a) (fz b)).

(** Modelled from the spec: [mul_v3_v3fl] and [mul_v3_fl] of BLI_math,
    [a * f]. *)
Definition mul_v3_v3fl (a : float3) (f : float) : float3 :=
  Float3 (mul (fx a) f) (mul (fy a) f) (mul (fz a) f).

(** Modelled from the spec: [madd_v3_v3fl] of BLI_math, [r += a * f]. *)
Definition madd_v3_v3fl (r a : float3) (f : float) : float3 :=
  Float3 (add (fx r) (mul (fx a) f)) (add (fy r) (mul (fy a) f))
         (add (fz r) (mul (fz a) f)).

(** Modelled from the spec: [cross_v3_v3v3] of BLI_math. *)
Definition cross_v3_v3v3 (a b : float3) : float3 :=
  Float3 (sub (mul (fy a) (fz b)) (mul (fz a) (fy b)))
         (sub (mul (fz a) (fx b)) (mul (fx a) (fz b)))
         (sub (mul (fx a) (fy b)) (mul (fy a) (fx b))).

(** Modelled from the spec: [is_zero_v3] of BLI_math, all three components
    compare equal to [0.0f]. *)
Definition is_zero_v3 (v : float3) : bool :=
  eqb (fx v) zero && eqb (fy v) zero && eqb (fz v) zero.

(** Modelled from the spec: [compare_v3v3] of BLI_math, every component
    pair differs by at most [limit]. *)
Definition compare_ff (a b limit : float) : bool := leb (fabsf (sub a b)) limit.
Definition compare_v3v3 (a b : float3) (limit : float) : bool :=
  compare_ff (fx a) (fx b) limit && compare_ff (fy a) (fy b) limit
  && compare_ff (fz a) (fz b) limit.

(** Modelled from the spec: [normalize_v3_v3] of BLI_math, section 4.1
    [normalize_or_fallback] with the zero vector as fallback: when the
    squared length is numerically zero the result is the zero vector and
    the returned length is [0.0f], otherwise the unit vector and the
    length. *)
Definition normalize_v3_v3 (a : float3) : float3 * float :=
  let d := dot_v3v3 a a in
  if gtb d c1e_35 then
    let d := sqrtf d in (mul_v3_v3fl a (div one d), d)
  else (zero_v3, zero).

(** [normalize_v3] normalises in place and returns the length. *)
Definition normalize_v3 (a : float3) : float3 * float := normalize_v3_v3 a.

(** Modelled from the spec: [add_newell_cross_v3_v3v3] of BLI_math, one
    term of Newell's method (section 4.1). *)
Definition add_newell_cross_v3_v3v3 (n v_prev v_curr : float3) : float3 :=
  Float3
    (add (fx n) (mul (sub (fy v_prev) (fy v_curr)) (add (fz v_prev) (fz v_curr))))
    (add (fy n) (mul (sub (fz v_prev) (fz v_curr)) (add (fx v_prev) (fx v_curr))))
    (add (fz n) (mul (sub (fx v_prev) (fx v_curr)) (add (fy v_prev) (fy v_curr)))).

End BLI.

Import BLI.

(** Array reads: a C index is an [int]; reading outside the array is
  undefined behaviour and yields [None]. *)
Definition get {A : Type} (l : list A) (i : Z) : option A :=
if i <? 0 then None else l !! Z.to_nat i.

(** Array writes: writing outside the array is undefined behaviour. *)
Definition put {A : Type} (l : list A) (i : Z) (x : A) : option (list A) :=
if (0 <=? i) && (i <? Z.of_nat (length l)) then Some (<[Z.to_nat i := x]> l)
else None.

(* ===================================================================== *)
(** ** Mesh data *)
(* ===================================================================== *)

Definition ME_SMOOTH : Z := 1.
Definition ME_SHARP : Z := 512.

(** [MPoly]: first corner, corner count and flags. *)
Record MPoly : Type := mkMPoly { loopstart : Z; totloop : Z; pflag : Z }.

(** [MEdge]: the two vertices and the flags (the persistent sharp bit is
    [ME_SHARP]). *)
Record MEdge : Type := mkMEdge { v1 : Z; v2 : Z; eflag : Z }.

Definition short2 : Type := (Z * Z)%type.

Definition MLNOR_SPACE_IS_SINGLE : Z := 1.

(** [MLoopNorSpace].  [loops] is the linked list of the corners sharing the
    space (for a single-corner space, the corner itself).  A space comes
    zero-initialised from [BKE_lnor_space_create]. *)
Record MLoopNorSpace : Type := mkSpace {
  vec_lnor : float3;
  vec_ref : float3;
  vec_ortho : float3;
  ref_alpha : float;
  ref_beta : float;
  loops : list Z;
  sflags : Z
}.

Definition space_calloc : MLoopNorSpace :=
  mkSpace zero_v3 zero_v3 zero_v3 zero zero [] 0.

Definition poly_is_smooth (p : MPoly) : bool :=
  negb (Z.land (pflag p) ME_SMOOTH =? 0).

Definition edge_is_sharp_flag (e : MEdge) : bool :=
  negb (Z.land (eflag e) ME_SHARP =? 0).

Definition space_is_single (s : MLoopNorSpace) : bool :=
  negb (Z.land (sflags s) MLNOR_SPACE_IS_SINGLE =? 0).

(* ===================================================================== *)
(** ** The loop-normal-space codec *)
(* ===================================================================== *)

(** [LNOR_SPACE_TRIGO_THRESHOLD], [(1.0f - 1e-4f)]. *)
Definition LNOR_SPACE_TRIGO_THRESHOLD : float := sub one c1e_4.

(** [unit_short_to_float]. *)
Definition unit_short_to_float (val : Z) : float :=
  div (of_Z val) (of_Z SHRT_MAX).

(** [unit_float_to_short], rounding to nearest. *)
Definition unit_float_to_short (val : float) : Z :=
  to_short (floorf (add (mul val (of_Z SHRT_MAX)) half)).

Section Codec.

(** The C library's single-precision [cosf], [sinf] and [acosf]. *)
Variables cosf sinf acosf : float -> float.

(** Modelled from the spec: [saacos]/[saacosf] of BLI_math, the arc cosine
    "clamped to valid range" (section 4.5): pi at or below -1, 0 at or
    above 1. *)
Definition saacos (fac : float) : float :=
  if leb fac (neg one) then M_PI
  else if geb fac one then zero
  else acosf fac.

(** The sum of [saacosf(dot_v3v3(vec, lnor))] over the stack of edge
    vectors, popped from the top, with the number of vectors popped. *)
Fixpoint edge_vectors_alpha (lnor : float3) (stack : list float3)
    (alpha : float) (count : Z) : float * Z :=
  match stack with
  | [] => (alpha, count)
  | vec :: rest =>
      edge_vectors_alpha lnor rest (add alpha (saacos (dot_v3v3 vec lnor)))
        (count + 1)
  end.

(** [BKE_lnor_space_define].  [edge_vectors] is the optional stack of edge
    vectors, top first; the stack is left empty. *)
Definition BKE_lnor_space_define (lnor_space : MLoopNorSpace)
    (lnor vec_ref0 vec_other0 : float3) (edge_vectors : option (list float3))
    : MLoopNorSpace :=
  let dtp_ref := dot_v3v3 vec_ref0 lnor in
  let dtp_other := dot_v3v3 vec_other0 lnor in
  if geb (fabsf dtp_ref) LNOR_SPACE_TRIGO_THRESHOLD
     || geb (fabsf dtp_other) LNOR_SPACE_TRIGO_THRESHOLD
  then
    (* too much aligned with lnor: tagged invalid, nothing else is written *)
    mkSpace (vec_lnor lnor_space) (vec_ref lnor_space) (vec_ortho lnor_space)
            zero zero (loops lnor_space) (sflags lnor_space)
  else
    let alpha_ref :=
      match edge_vectors with
      | Some stack =>
          let '(alpha, count) := edge_vectors_alpha lnor stack zero 0 in
          div alpha (of_Z count)
      | None =>
          div (add (saacos (dot_v3v3 vec_ref0 lnor))
                   (saacos (dot_v3v3 vec_other0 lnor))) two
      end in
    (* project vec_ref on lnor's ortho plane *)
    let vec_ref1 := sub_v3_v3v3 vec_ref0 (mul_v3_v3fl lnor dtp_ref) in
    let s_ref := fst (normalize_v3_v3 vec_ref1) in
    let s_ortho := fst (normalize_v3_v3 (cross_v3_v3v3 lnor s_ref)) in
    (* project vec_other on lnor's ortho plane *)
    let vec_other1 :=
      fst (normalize_v3 (sub_v3_v3v3 vec_other0 (mul_v3_v3fl lnor dtp_other))) in
    let dtp := dot_v3v3 s_ref vec_other1 in
    let beta_ref :=
      if ltb dtp LNOR_SPACE_TRIGO_THRESHOLD then
        let beta := saacos dtp in
        if ltb (dot_v3v3 s_ortho vec_other1) zero then sub pi2 beta else beta
      else pi2 in
    mkSpace lnor s_ref s_ortho alpha_ref beta_ref
            (loops lnor_space) (sflags lnor_space).

(** [BKE_lnor_space_custom_data_to_normal], the decoder. *)
Definition BKE_lnor_space_custom_data_to_normal (lnor_space : MLoopNorSpace)
    (clnor_data : short2) : float3 :=
  if (fst clnor_data =? 0) || eqb (ref_alpha lnor_space) zero
     || eqb (ref_beta lnor_space) zero
  then vec_lnor lnor_space
  else
    let alphafac := unit_short_to_float (fst clnor_data) in
    let alpha :=
      mul (if gtb alphafac zero then ref_alpha lnor_space
           else sub pi2 (ref_alpha lnor_space)) alphafac in
    let betafac := unit_short_to_float (snd clnor_data) in
    let r := mul_v3_v3fl (vec_lnor lnor_space) (cosf alpha) in
    if eqb betafac zero then
      madd_v3_v3fl r (vec_ref lnor_space) (sinf alpha)
    else
      let sinalpha := sinf alpha in
      let beta :=
        mul (if gtb betafac zero then ref_beta lnor_space
             else sub pi2 (ref_beta lnor_space)) betafac in
      let r := madd_v3_v3fl r (vec_ref lnor_space) (mul sinalpha (cosf beta)) in
      madd_v3_v3fl r (vec_ortho lnor_space) (mul sinalpha (sinf beta)).

(** [BKE_lnor_space_custom_normal_to_data], the encoder. *)
Definition BKE_lnor_space_custom_normal_to_data (lnor_space : MLoopNorSpace)
    (custom_lnor : float3) : short2 :=
  if is_zero_v3 custom_lnor
     || compare_v3v3 (vec_lnor lnor_space) custom_lnor c1e_4
  then (0, 0)
  else
    let cos_alpha := dot_v3v3 (vec_lnor lnor_space) custom_lnor in
    let alpha := saacos cos_alpha in
    let d0 :=
      if gtb alpha (ref_alpha lnor_space) then
        unit_float_to_short
          (div (neg (sub pi2 alpha)) (sub pi2 (ref_alpha lnor_space)))
      else unit_float_to_short (div alpha (ref_alpha lnor_space)) in
    (* project custom lnor on the (vec_ref, vec_ortho) plane *)
    let vec :=
      fst (normalize_v3
             (add_v3_v3 (mul_v3_v3fl (vec_lnor lnor_space) (neg cos_alpha))
                        custom_lnor)) in
    let cos_beta := dot_v3v3 (vec_ref lnor_space) vec in
    let d1 :=
      if ltb cos_beta LNOR_SPACE_TRIGO_THRESHOLD then
        let beta := saacos cos_beta in
        let beta :=
          if ltb (dot_v3v3 (vec_ortho lnor_space) vec) zero
          then sub pi2 beta else beta in
        if gtb beta (ref_beta lnor_space) then
          unit_float_to_short
            (div (neg (sub pi2 beta)) (sub pi2 (ref_beta lnor_space)))
        else unit_float_to_short (div beta (ref_beta lnor_space))
      else 0 in
    (d0, d1).

End Codec.

(* ===================================================================== *)
(** ** Facts about binary32 values *)
(* ===================================================================== *)

(** Neither a NaN nor an infinity. *)
Definition is_finite (a : float) : bool :=
  match a with
  | S754_zero _ | S754_finite _ _ _ => true
  | _ => false
  end.

Definition is_finite_v3 (v : float3) : bool :=
  is_finite (fx v) && is_finite (fy v) && is_finite (fz v).

Lemma sub_diag_finite (a : float) : is_finite a = true -> sub a a = zero.
Proof.
  destruct a as [[|]| | |s m e]; simpl; try discriminate; intros _; try reflexivity.
  unfold sub, SFsub. cbv zeta. rewrite Z.sub_diag. reflexivity.
Qed.

Lemma compare_ff_refl (a : float) :
  is_finite a = true -> compare_ff a a c1e_4 = true.
Proof.
  intros H. unfold compare_ff. rewrite (sub_diag_finite a H). reflexivity.
Qed.

Lemma compare_v3v3_refl (v : float3) :
  is_finite_v3 v = true -> compare_v3v3 v v c1e_4 = true.
Proof.
  unfold is_finite_v3, compare_v3v3. intros H.
  apply andb_true_iff in H as [H Hz]. apply andb_true_iff in H as [Hx Hy].
  rewrite !compare_ff_refl by assumption. reflexivity.
Qed.

(* ===================================================================== *)
(** ** The reserved code of the codec *)
(* ===================================================================== *)

(** A valid space along the z axis, with both reference angles [pi/2]. *)
Definition half_pi : float := S754_finite false 13176795 (-23).

Definition space_z : MLoopNorSpace :=
  mkSpace (Float3 zero zero one) (Float3 one zero zero) (Float3 zero one zero)
          half_pi half_pi [] 0.

(** The same axis in a space that could not be built (both angles zero). *)
Definition space_z_invalid : MLoopNorSpace :=
  mkSpace (Float3 zero zero one) zero_v3 zero_v3 zero zero [] 0.

(** C2, as the code has it: the encoder returns the code (0,0) whenever the
    input is the zero vector or agrees with the space's lnor axis within
    1e-4 in every component, in particular when it is that (finite) axis;
    the decoder returns the lnor axis for every code whose first component
    is 0, so for (0,0), and for every code at all when the space is
    degenerate. *)
Theorem codec_reserved_code (cosf sinf acosf : float -> float)
    (sp : MLoopNorSpace) (v : float3) (b : Z) :
  (is_zero_v3 v = true ->
     BKE_lnor_space_custom_normal_to_data acosf sp v = (0, 0))
  /\ (compare_v3v3 (vec_lnor sp) v c1e_4 = true ->
        BKE_lnor_space_custom_normal_to_data acosf sp v = (0, 0))
  /\ (is_finite_v3 (vec_lnor sp) = true ->
        BKE_lnor_space_custom_normal_to_data acosf sp (vec_lnor sp) = (0, 0))
  /\ BKE_lnor_space_custom_data_to_normal cosf sinf sp (0, b) = vec_lnor sp
  /\ (eqb (ref_alpha sp) zero || eqb (ref_beta sp) zero = true ->
        forall d, BKE_lnor_space_custom_data_to_normal cosf sinf sp d
                  = vec_lnor sp).
Proof.
  unfold BKE_lnor_space_custom_normal_to_data,
    BKE_lnor_space_custom_data_to_normal.
  repeat split.
  - intros ->. reflexivity.
  - intros ->. rewrite orb_true_r. reflexivity.
  - intros H. rewrite (compare_v3v3_refl _ H), orb_true_r. reflexivity.
  - intros H d. apply orb_true_iff in H as [H | H]; rewrite H;
      rewrite ?orb_true_r; reflexivity.
Qed.

(** The reserved code at the space [space_z] and its own axis. *)
Lemma codec_reserved_code_witness :
  BKE_lnor_space_custom_normal_to_data (fun a => a) space_z
    (Float3 zero zero one) = (0, 0)
  /\ BKE_lnor_space_custom_data_to_normal (fun a => a) (fun a => a)
       space_z (0, 0) = Float3 zero zero one.
Proof.
  pose proof (codec_reserved_code (fun a => a) (fun a => a) (fun a => a)
                space_z (Float3 zero zero one) 0) as (_ & _ & H3 & H4 & _).
  split; [apply H3; reflexivity | exact H4].
Defined.

(** C2 as stated fails in both directions of its "if and only if": the zero
    vector, and a vector 1e-4 away from the axis, are encoded as (0,0) in a
    valid space although they are not the lnor axis; and in a degenerate
    space the vector opposite to the axis is not encoded as (0,0), whatever
    the C library's [acosf] is. *)
Lemma encode_reserved_code_not_iff :
  (forall acosf,
     BKE_lnor_space_custom_normal_to_data acosf space_z zero_v3 = (0, 0))
  /\ (forall acosf,
        BKE_lnor_space_custom_normal_to_data acosf space_z
          (Float3 zero c1e_4 one) = (0, 0))
  /\ zero_v3 <> vec_lnor space_z
  /\ Float3 zero c1e_4 one <> vec_lnor space_z
  /\ eqb (ref_alpha space_z) zero = false
  /\ eqb (ref_beta space_z) zero = false
  /\ eqb (ref_alpha space_z_invalid) zero = true
  /\ (forall acosf,
        fst (BKE_lnor_space_custom_normal_to_data acosf space_z_invalid
               (Float3 zero zero (neg one))) = -16383).
Proof.
  repeat split; try (intros; vm_compute; congruence).
Qed.

(* ===================================================================== *)
(** ** Polygon normals *)
(* ===================================================================== *)

(** A loop of the shape [for (i = i0; n iterations; i++) s = body(i, s)]
    over a state that may become undefined. *)
Fixpoint for_loop {S : Type} (n : nat) (i : Z) (body : Z -> S -> option S)
    (s : S) : option S :=
  match n with
  | O => Some s
  | Datatypes.S n' => s' ← body i s; for_loop n' (i + 1) body s'
  end.

(** One step of Newell's method: the state is [(v_prev, normal)]. *)
Definition newell_step (positions : list float3) (poly_verts : list Z)
    (i : Z) (st : float3 * float3) : option (float3 * float3) :=
  vi ← get poly_verts i;
  v_curr ← get positions vi;
  Some (v_curr, add_newell_cross_v3_v3v3 (snd st) (fst st) v_curr).

(** The Newell sum of a polygon, before normalisation. *)
Definition newell_sum (positions : list float3) (poly_verts : list Z)
    (nverts : Z) : option float3 :=
  vl ← get poly_verts (nverts - 1);
  v_prev ← get positions vl;
  st ← for_loop (Z.to_nat nverts) 0 (newell_step positions poly_verts)
         (v_prev, zero_v3);
  Some (snd st).

(** The end of both Newell computations: normalise, and set the z component
    to [1.0f] when the length is [0.0f] ("other axis set to 0.0"). *)
Definition normalize_or_z (n : float3) : float3 :=
  let '(r, len) := normalize_v3 n in
  if eqb len zero then Float3 (fx r) (fy r) one else r.

(** [mesh_calc_ngon_normal]. *)
Definition mesh_calc_ngon_normal (mpoly : MPoly) (poly_verts : list Z)
    (positions : list float3) : option float3 :=
  n ← newell_sum positions poly_verts (totloop mpoly);
  Some (normalize_or_z n).

Section PolyNormal.

(** [normal_tri_v3] and [normal_quad_v3] of BLI_math are not part of the
    sources: the result they leave in their first argument is a parameter. *)
Variable normal_tri_v3 : float3 -> float3 -> float3 -> float3.
Variable normal_quad_v3 : float3 -> float3 -> float3 -> float3 -> float3.

(** [BKE_mesh_calc_poly_normal]. *)
Definition BKE_mesh_calc_poly_normal (mpoly : MPoly) (poly_verts : list Z)
    (positions : list float3) : option float3 :=
  if totloop mpoly >? 4 then mesh_calc_ngon_normal mpoly poly_verts positions
  else if totloop mpoly =? 3 then
    i0 ← get poly_verts 0; i1 ← get poly_verts 1; i2 ← get poly_verts 2;
    p0 ← get positions i0; p1 ← get positions i1; p2 ← get positions i2;
    Some (normal_tri_v3 p0 p1 p2)
  else if totloop mpoly =? 4 then
    i0 ← get poly_verts 0; i1 ← get poly_verts 1; i2 ← get poly_verts 2;
    i3 ← get poly_verts 3;
    p0 ← get positions i0; p1 ← get positions i1; p2 ← get positions i2;
    p3 ← get positions i3;
    Some (normal_quad_v3 p0 p1 p2 p3)
  else (* horrible, two sided face! *)
    Some (Float3 zero zero one).

End PolyNormal.

(** [corner_verts.slice(start, size)]. *)
Definition slice {A : Type} (l : list A) (start size : Z) : list A :=
  take (Z.to_nat size) (drop (Z.to_nat start) l).

(** The polygon normal as [calculate_normals_poly_and_vert] computes it
    inline: Newell's method for every corner count. *)
Definition inline_poly_normal (positions : list float3) (poly_verts : list Z)
    (poly : MPoly) : option float3 :=
  let i_end := totloop poly - 1 in
  n ← newell_sum positions poly_verts (i_end + 1);
  Some (normalize_or_z n).

(* ===================================================================== *)
(** ** Polygon and vertex normals together *)
(* ===================================================================== *)

Definition FLT_MAX : float := S754_finite false 16777215 104.

(** [add_v3_v3_atomic] run by one thread at a time: the spin takes the lock
    [r[0]] at its first try and the slot becomes [r + a]; on a slot whose
    first component is [FLT_MAX] (the value that means "locked") the spin
    never ends, and there is no result. *)
Definition add_v3_v3_atomic (r a : float3) : option float3 :=
  if eqb (fx r) FLT_MAX then None else Some (add_v3_v3 r a).

Section VertexNormals.

Variable acosf : float -> float.

(** One turn of the accumulation loop of a polygon; the state is
    [(i_curr, v_curr, edvec_prev, vert_normals)]. *)
Definition accumulate_step (positions : list float3)
    (corner_verts poly_verts : list Z) (pnor edvec_end : float3) (i_end : Z)
    (i_next : Z) (st : Z * float3 * float3 * list float3)
    : option (Z * float3 * float3 * list float3) :=
  let '(i_curr, v_curr, edvec_prev, vert_normals) := st in
  vn ← get poly_verts i_next;
  v_next ← get positions vn;
  (* skip an extra normalisation by reusing the first calculated edge *)
  let edvec_next :=
    if negb (i_next =? i_end)
    then fst (normalize_v3 (sub_v3_v3v3 v_curr v_next))
    else edvec_end in
  (* angle between the two poly edges incident on this vertex *)
  let fac := saacos acosf (neg (dot_v3v3 edvec_prev edvec_next)) in
  let vnor_add :=
    Float3 (mul (fx pnor) fac) (mul (fy pnor) fac) (mul (fz pnor) fac) in
  (* float *vnor = vert_normals[corner_verts[i_curr]]; *)
  vi ← get corner_verts i_curr;
  vnor ← get vert_normals vi;
  vnor' ← add_v3_v3_atomic vnor vnor_add;
  vert_normals' ← put vert_normals vi vnor';
  Some (i_next, v_next, edvec_next, vert_normals').

(** The body of the polygon loop: the polygon normal, then the accumulation
    of the angle-weighted normal into the vertex normals. *)
Definition poly_and_vert_body (positions : list float3) (corner_verts : list Z)
    (poly : MPoly) (vert_normals : list float3)
    : option (float3 * list float3) :=
  let poly_verts := slice corner_verts (loopstart poly) (totloop poly) in
  let i_end := totloop poly - 1 in
  pnor ← inline_poly_normal positions poly_verts poly;
  ve ← get poly_verts i_end;
  v_curr ← get positions ve;
  vp ← get poly_verts (i_end - 1);
  v_before ← get positions vp;
  let edvec_prev := fst (normalize_v3 (sub_v3_v3v3 v_before v_curr)) in
  let edvec_end := edvec_prev in
  st ← for_loop (Z.to_nat (i_end + 1)) 0
         (accumulate_step positions corner_verts poly_verts pnor edvec_end i_end)
         (i_end, v_curr, edvec_prev, vert_normals);
  Some (pnor, snd st).

(** The polygon loop, in index order (the [parallel_for] over the polygons
    run by a single thread). *)
Fixpoint poly_and_vert_loop (positions : list float3) (corner_verts : list Z)
    (polys : list MPoly) (vert_normals : list float3)
    : option (list float3 * list float3) :=
  match polys with
  | [] => Some ([], vert_normals)
  | poly :: rest =>
      '(pnor, vn) ← poly_and_vert_body positions corner_verts poly vert_normals;
      '(pnors, vn') ← poly_and_vert_loop positions corner_verts rest vn;
      Some (pnor :: pnors, vn')
  end.

(** "Normalize and validate computed vertex normals": a sum of zero length
    is replaced by the normalised vertex coordinate. *)
Definition normalize_vert_normal (no position : float3) : float3 :=
  let '(n, len) := normalize_v3 no in
  if eqb len zero then fst (normalize_v3_v3 position) else n.

(** The accumulated sums, before the normalisation pass. *)
Definition accumulated_vert_normals (positions : list float3)
    (polys : list MPoly) (corner_verts : list Z)
    : option (list float3 * list float3) :=
  poly_and_vert_loop positions corner_verts polys
    (replicate (length positions) zero_v3).

(** [calculate_normals_poly_and_vert], and so
    [BKE_mesh_calc_normals_poly_and_vertex]: the polygon normals and the
    vertex normals. *)
Definition calculate_normals_poly_and_vert (positions : list float3)
    (polys : list MPoly) (corner_verts : list Z)
    : option (list float3 * list float3) :=
  '(poly_normals, acc) ← accumulated_vert_normals positions polys corner_verts;
  Some (poly_normals, zip_with normalize_vert_normal acc positions).

End VertexNormals.

(* ===================================================================== *)
(** ** Degenerate faces *)
(* ===================================================================== *)

(** A zero of either sign, or a NaN: what the terms of Newell's method are
    when every corner of the polygon sits on one point. *)
Definition nullish (a : float) : bool :=
  match a with
  | S754_zero _ | S754_nan => true
  | _ => false
  end.

Definition nullish_v3 (v : float3) : bool :=
  nullish (fx v) && nullish (fy v) && nullish (fz v).

Lemma sub_diag_nullish (a : float) : nullish (sub a a) = true.
Proof.
  destruct a as [[|]|[|]| |s m e]; try reflexivity.
  unfold sub, SFsub. cbv zeta. rewrite Z.sub_diag. reflexivity.
Qed.

Lemma mul_nullish_l (a b : float) : nullish a = true -> nullish (mul a b) = true.
Proof.
  destruct a as [[|]|[|]| |s m e]; try discriminate; intros _;
    destruct b as [[|]|[|]| |s' m' e']; reflexivity.
Qed.

Lemma add_nullish (a b : float) :
  nullish a = true -> nullish b = true -> nullish (add a b) = true.
Proof.
  destruct a as [[|]|[|]| |s m e]; try discriminate; intros _;
    destruct b as [[|]|[|]| |s' m' e']; try discriminate; reflexivity.
Qed.

Lemma nullish_not_gt (d : float) : nullish d = true -> gtb d c1e_35 = false.
Proof. destruct d as [[|]|[|]| |s m e]; try discriminate; reflexivity. Qed.

Lemma normalize_v3_nullish (v : float3) :
  nullish_v3 v = true -> normalize_v3 v = (zero_v3, zero).
Proof.
  unfold nullish_v3. intros H.
  apply andb_true_iff in H as [H Hz]. apply andb_true_iff in H as [Hx Hy].
  unfold normalize_v3, normalize_v3_v3.
  rewrite nullish_not_gt; [reflexivity|].
  unfold dot_v3v3. auto using add_nullish, mul_nullish_l.
Qed.

Lemma normalize_or_z_nullish (v : float3) :
  nullish_v3 v = true -> normalize_or_z v = Float3 zero zero one.
Proof.
  intros H. unfold normalize_or_z. rewrite (normalize_v3_nullish v H).
  reflexivity.
Qed.

Lemma add_newell_nullish (n p : float3) :
  nullish_v3 n = true -> nullish_v3 (add_newell_cross_v3_v3v3 n p p) = true.
Proof.
  unfold nullish_v3. intros H.
  apply andb_true_iff in H as [H Hz]. apply andb_true_iff in H as [Hx Hy].
  simpl.
  rewrite !add_nullish; auto using mul_nullish_l, sub_diag_nullish.
Qed.

(** Every corner of the polygon reads the position [p]. *)
Definition corners_at (positions : list float3) (poly_verts : list Z)
    (nverts : Z) (p : float3) : Prop :=
  forall i, 0 <= i < nverts ->
    exists vi, get poly_verts i = Some vi /\ get positions vi = Some p.

Lemma newell_loop_at_point (positions : list float3) (poly_verts : list Z)
    (p : float3) (n : nat) (i : Z) (acc : float3) :
  0 <= i ->
  (forall j, i <= j < i + Z.of_nat n ->
     exists vi, get poly_verts j = Some vi /\ get positions vi = Some p) ->
  nullish_v3 acc = true ->
  exists acc',
    for_loop n i (newell_step positions poly_verts) (p, acc) = Some (p, acc')
    /\ nullish_v3 acc' = true.
Proof.
  revert i acc. induction n as [|n IH]; intros i acc Hi Hat Hacc.
  - exists acc. split; [reflexivity | assumption].
  - destruct (Hat i) as (vi & Hvi & Hp); [lia|].
    destruct (IH (i + 1) (add_newell_cross_v3_v3v3 acc p p)) as (acc' & Hl & Hn).
    + lia.
    + intros j Hj. apply Hat. lia.
    + apply add_newell_nullish. assumption.
    + exists acc'. split; [|assumption].
      assert (Hs : newell_step positions poly_verts i (p, acc)
                   = Some (p, add_newell_cross_v3_v3v3 acc p p)).
      { unfold newell_step. rewrite Hvi. cbn [mbind option_bind].
        rewrite Hp. reflexivity. }
      cbn [for_loop]. rewrite Hs. exact Hl.
Qed.

Lemma newell_sum_at_point (positions : list float3) (poly_verts : list Z)
    (nverts : Z) (p : float3) :
  0 < nverts -> corners_at positions poly_verts nverts p ->
  exists n, newell_sum positions poly_verts nverts = Some n
            /\ nullish_v3 n = true.
Proof.
  intros Hn Hat. unfold newell_sum.
  destruct (Hat (nverts - 1)) as (vl & Hvl & Hp); [lia|].
  rewrite Hvl. cbn [mbind option_bind]. rewrite Hp. cbn [mbind option_bind].
  destruct (newell_loop_at_point positions poly_verts p (Z.to_nat nverts) 0 zero_v3)
    as (acc' & Hl & Hacc); [lia| |reflexivity|].
  - intros j Hj. apply Hat. lia.
  - rewrite Hl. cbn [mbind option_bind snd]. eauto.
Qed.

(** C6, as the code has it: when every corner of a polygon lies on one
    point, the inline computation of [calculate_normals_poly_and_vert]
    returns exactly (0,0,1), and so does [BKE_mesh_calc_poly_normal] for more
    than 4 or fewer than 3 corners; for 3 and 4 corners
    [BKE_mesh_calc_poly_normal] returns what [normal_tri_v3] and
    [normal_quad_v3] leave, with no fallback of its own. *)
Theorem degenerate_face_fallback
    (normal_tri_v3 : float3 -> float3 -> float3 -> float3)
    (normal_quad_v3 : float3 -> float3 -> float3 -> float3 -> float3)
    (positions : list float3) (poly_verts : list Z) (poly : MPoly)
    (p : float3) :
  0 < totloop poly ->
  corners_at positions poly_verts (totloop poly) p ->
  inline_poly_normal positions poly_verts poly = Some (Float3 zero zero one)
  /\ BKE_mesh_calc_poly_normal normal_tri_v3 normal_quad_v3 poly poly_verts
       positions
     = Some (if totloop poly =? 3 then normal_tri_v3 p p p
             else if totloop poly =? 4 then normal_quad_v3 p p p p
             else Float3 zero zero one).
Proof.
  intros Hn Hat.
  destruct (newell_sum_at_point positions poly_verts (totloop poly) p Hn Hat)
    as (n & Hsum & Hnull).
  split.
  - unfold inline_poly_normal.
    replace (totloop poly - 1 + 1) with (totloop poly) by lia.
    rewrite Hsum. cbn [mbind option_bind].
    rewrite (normalize_or_z_nullish n Hnull). reflexivity.
  - unfold BKE_mesh_calc_poly_normal.
    destruct (totloop poly >? 4) eqn:H4.
    + assert ((totloop poly =? 3) = false) as -> by lia.
      assert ((totloop poly =? 4) = false) as -> by lia.
      unfold mesh_calc_ngon_normal. rewrite Hsum. cbn [mbind option_bind].
      rewrite (normalize_or_z_nullish n Hnull). reflexivity.
    + destruct (totloop poly =? 3) eqn:H3.
      * destruct (Hat 0) as (i0 & -> & Hp0); [lia|].
        destruct (Hat 1) as (i1 & -> & Hp1); [lia|].
        destruct (Hat 2) as (i2 & -> & Hp2); [lia|].
        cbn [mbind option_bind]. rewrite Hp0, Hp1, Hp2. reflexivity.
      * destruct (totloop poly =? 4) eqn:H4'; [|reflexivity].
        destruct (Hat 0) as (i0 & -> & Hp0); [lia|].
        destruct (Hat 1) as (i1 & -> & Hp1); [lia|].
        destruct (Hat 2) as (i2 & -> & Hp2); [lia|].
        destruct (Hat 3) as (i3 & -> & Hp3); [lia|].
        cbn [mbind option_bind]. rewrite Hp0, Hp1, Hp2, Hp3. reflexivity.
Qed.

(** Integer points as positions: every coordinate used below is an integer
    below 2^24 and so a binary32 value. *)
Definition point (x y z : Z) : float3 := Float3 (of_Z x) (of_Z y) (of_Z z).

(** A pentagon whose five corners all read the vertex (1,2,3). *)
Lemma degenerate_face_fallback_witness :
  inline_poly_normal [point 1 2 3] [0; 0; 0; 0; 0] (mkMPoly 0 5 ME_SMOOTH)
  = Some (Float3 zero zero one)
  /\ BKE_mesh_calc_poly_normal (fun a _ _ => a) (fun a _ _ _ => a)
       (mkMPoly 0 5 ME_SMOOTH) [0; 0; 0; 0; 0] [point 1 2 3]
     = Some (Float3 zero zero one).
Proof.
  apply (degenerate_face_fallback (fun a _ _ => a) (fun a _ _ _ => a)
           [point 1 2 3] [0; 0; 0; 0; 0] (mkMPoly 0 5 ME_SMOOTH) (point 1 2 3)).
  - reflexivity.
  - intros i Hi. exists 0. cbn [totloop] in Hi.
    assert (i = 0 \/ i = 1 \/ i = 2 \/ i = 3 \/ i = 4) as [->|[->|[->|[->| ->]]]]
      by lia; split; reflexivity.
Defined.

(** The three collinear points (0,0,0), (4097,4097,0), (8194,8194,0) and two
    more on the same line. *)
Definition collinear_points : list (Z * Z * Z) :=
  [(0, 0, 0); (4097, 4097, 0); (8194, 8194, 0); (12291, 12291, 0);
   (16388, 16388, 0)].

Definition collinear_positions : list float3 :=
  map (fun q => point q.1.1 q.1.2 q.2) collinear_points.

(** The exact cross product [(b - a) x (c - a)] of integer points: twice the
    area vector of the triangle [a b c]. *)
Definition cross_Z (a b c : Z * Z * Z) : Z * Z * Z :=
  let ux := b.1.1 - a.1.1 in let uy := b.1.2 - a.1.2 in let uz := b.2 - a.2 in
  let wx := c.1.1 - a.1.1 in let wy := c.1.2 - a.1.2 in let wz := c.2 - a.2 in
  (uy * wz - uz * wy, uz * wx - ux * wz, ux * wy - uy * wx).

(** C6 as stated fails: the triangle on the first three collinear points has
    area zero, and the inline computation returns (0,0,-1) for it, because
    the rounded terms of Newell's method do not cancel; the n-gon branch of
    [BKE_mesh_calc_poly_normal] does the same on the five collinear
    points. *)
Lemma collinear_face_not_fallback :
  cross_Z (0, 0, 0) (4097, 4097, 0) (8194, 8194, 0) = (0, 0, 0)
  /\ inline_poly_normal collinear_positions [0; 1; 2] (mkMPoly 0 3 ME_SMOOTH)
     = Some (Float3 zero zero (neg one))
  /\ BKE_mesh_calc_poly_normal (fun a _ _ => a) (fun a _ _ _ => a)
       (mkMPoly 0 5 ME_SMOOTH) [0; 1; 2; 3; 4] collinear_positions
     = Some (Float3 zero zero (neg one))
  /\ Float3 zero zero (neg one) <> Float3 zero zero one.
Proof.
  split; [reflexivity|]. split; [vm_compute; reflexivity|].
  split; [vm_compute; reflexivity|]. discriminate.
Qed.

(* ===================================================================== *)
(** ** Array reads and writes *)
(* ===================================================================== *)

Lemma get_Some {A : Type} (l : list A) (i : Z) (x : A) :
  get l i = Some x <-> 0 <= i /\ l !! Z.to_nat i = Some x.
Proof.
  unfold get. destruct (i <? 0) eqn:E.
  - split; [discriminate | intros [H _]; lia].
  - split; [intros H; split; [lia | exact H] | intros [_ H]; exact H].
Qed.

Lemma get_of_nat {A : Type} (l : list A) (i : nat) :
  get l (Z.of_nat i) = l !! i.
Proof.
  unfold get. destruct (Z.of_nat i <? 0) eqn:E.
  - apply Z.ltb_lt in E. exfalso. lia.
  - rewrite Nat2Z.id. reflexivity.
Qed.

Lemma get_elem_of {A : Type} (l : list A) (i : Z) (x : A) :
  get l i = Some x -> x ∈ l.
Proof. intros H. apply get_Some in H as [_ H]. eapply list_elem_of_lookup_2, H. Qed.

Lemma put_Some {A : Type} (l l' : list A) (i : Z) (x : A) :
  put l i x = Some l' <->
  0 <= i < Z.of_nat (length l) /\ l' = <[Z.to_nat i := x]> l.
Proof.
  unfold put. destruct ((0 <=? i) && (i <? Z.of_nat (length l))) eqn:E.
  - apply andb_true_iff in E as [E1 E2].
    split; [intros [= <-]; split; [lia | reflexivity] | intros [_ ->]; reflexivity].
  - apply andb_false_iff in E.
    split; [discriminate | intros [H _]; destruct E; lia].
Qed.

Lemma put_length {A : Type} (l l' : list A) (i : Z) (x : A) :
  put l i x = Some l' -> length l' = length l.
Proof. intros H. apply put_Some in H as [_ ->]. apply length_insert. Qed.

Lemma put_lookup_ne {A : Type} (l l' : list A) (i : Z) (x : A) (j : nat) :
  put l i x = Some l' -> i <> Z.of_nat j -> l' !! j = l !! j.
Proof.
  intros H Hne. apply put_Some in H as [Hi ->].
  apply list_lookup_insert_ne. lia.
Qed.

Lemma put_lookup_eq {A : Type} (l l' : list A) (i : Z) (x : A) :
  put l i x = Some l' -> get l' i = Some x.
Proof.
  intros H. apply put_Some in H as [Hi ->]. apply get_Some.
  split; [lia|]. apply list_lookup_insert_eq. lia.
Qed.

Lemma put_get_ne {A : Type} (l l' : list A) (i j : Z) (x : A) :
  put l i x = Some l' -> i <> j -> get l' j = get l j.
Proof.
  intros H Hne. unfold get. destruct (j <? 0) eqn:E; [reflexivity|].
  apply put_Some in H as [Hi ->]. apply list_lookup_insert_ne. lia.
Qed.

(** Case analysis on a successful bind. *)
Lemma bind_Some_inv {A B : Type} (m : option A) (f : A -> option B) (b : B) :
  m ≫= f = Some b -> exists a, m = Some a /\ f a = Some b.
Proof. destruct m as [a|]; [eauto | discriminate]. Qed.

Ltac bind_inv H :=
  let a := fresh "a" in
  let Ha := fresh "Ha" in
  apply bind_Some_inv in H as (a & Ha & H).

Tactic Notation "bind_case" hyp(H) "as" ident(a) ident(Ha) :=
  apply bind_Some_inv in H as (a & Ha & H).

(* ===================================================================== *)
(** ** Where the accumulation writes *)
(* ===================================================================== *)

Section AccumulateFrame.

Variable acosf : float -> float.
Variable positions : list float3.
Variable corner_verts : list Z.

(** The vertex [v] is not the one read at any of the first [n] entries of
    [corner_verts]. *)
Definition not_indexed (v : nat) (n : Z) : Prop :=
  forall k, 0 <= k < n -> get corner_verts k <> Some (Z.of_nat v).

Lemma accumulate_step_frame (poly_verts : list Z) (pnor edvec_end : float3)
    (i_end i_next : Z) (st st' : Z * float3 * float3 * list float3) (v : nat) :
  accumulate_step acosf positions corner_verts poly_verts pnor edvec_end i_end
    i_next st = Some st' ->
  get corner_verts st.1.1.1 <> Some (Z.of_nat v) ->
  st'.2 !! v = st.2 !! v /\ st'.1.1.1 = i_next.
Proof.
  destruct st as [[[i_curr v_curr] edvec_prev] vn]. cbn [fst snd].
  unfold accumulate_step. intros H Hne.
  bind_inv H. bind_inv H. bind_inv H. bind_inv H. bind_inv H. bind_inv H.
  injection H as <-. cbn [fst snd]. split; [|reflexivity].
  eapply put_lookup_ne; [eassumption|]. congruence.
Qed.

Lemma accumulate_loop_frame (poly_verts : list Z) (pnor edvec_end : float3)
    (i_end : Z) (v : nat) (n : nat) (i : Z)
    (st st' : Z * float3 * float3 * list float3) :
  for_loop n i
    (accumulate_step acosf positions corner_verts poly_verts pnor edvec_end i_end)
    st = Some st' ->
  get corner_verts st.1.1.1 <> Some (Z.of_nat v) ->
  (forall k, i <= k < i + Z.of_nat n ->
     get corner_verts k <> Some (Z.of_nat v)) ->
  st'.2 !! v = st.2 !! v.
Proof.
  revert i st. induction n as [|n IH]; intros i st H Hcur Hrest.
  - injection H as <-. reflexivity.
  - cbn [for_loop] in H. bind_inv H.
    destruct (accumulate_step_frame _ _ _ _ _ _ _ v Ha Hcur) as [Hv Hi].
    rewrite <- Hv. apply (IH (i + 1) a H).
    + rewrite Hi. apply Hrest. lia.
    + intros k Hk. apply Hrest. lia.
Qed.

Lemma poly_and_vert_body_frame (poly : MPoly) (vn vn' : list float3)
    (pnor : float3) (v : nat) :
  poly_and_vert_body acosf positions corner_verts poly vn = Some (pnor, vn') ->
  not_indexed v (totloop poly) ->
  vn' !! v = vn !! v.
Proof.
  unfold poly_and_vert_body. intros H Hni.
  bind_inv H. bind_inv H. bind_inv H. bind_inv H. bind_inv H. bind_inv H.
  injection H as _ <-.
  destruct (Z.to_nat (totloop poly - 1 + 1)) as [|n] eqn:En.
  { injection Ha4 as <-. reflexivity. }
  apply (accumulate_loop_frame _ _ _ _ v _ _ _ _ Ha4).
  - cbn [fst]. apply Hni. lia.
  - intros k Hk. apply Hni. lia.
Qed.

Lemma poly_and_vert_loop_frame (polys : list MPoly) (vn vn' pn : list float3)
    (v : nat) :
  poly_and_vert_loop acosf positions corner_verts polys vn = Some (pn, vn') ->
  (forall poly, poly ∈ polys -> not_indexed v (totloop poly)) ->
  vn' !! v = vn !! v.
Proof.
  revert vn pn. induction polys as [|poly rest IH]; intros vn pn H Hni.
  - injection H as _ <-. reflexivity.
  - cbn [poly_and_vert_loop] in H. bind_inv H. destruct a as [pnor vn1].
    bind_inv H. destruct a as [pns vn2]. injection H as _ <-.
    rewrite (IH vn1 pns Ha0); [|intros q Hq; apply Hni; right; exact Hq].
    apply (poly_and_vert_body_frame poly vn vn1 pnor v Ha).
    apply Hni. left.
Qed.

End AccumulateFrame.

(* ===================================================================== *)
(** ** Vertex normals: the fallback, and the slots the sums reach *)
(* ===================================================================== *)

Lemma accumulated_unindexed (acosf : float -> float) (positions : list float3)
    (polys : list MPoly) (corner_verts : list Z) (pn acc : list float3)
    (v : nat) :
  accumulated_vert_normals acosf positions polys corner_verts = Some (pn, acc) ->
  (v < length positions)%nat ->
  (forall poly, poly ∈ polys -> not_indexed corner_verts v (totloop poly)) ->
  acc !! v = Some zero_v3.
Proof.
  unfold accumulated_vert_normals. intros H Hv Hni.
  rewrite (poly_and_vert_loop_frame _ _ _ _ _ _ _ v H Hni).
  apply lookup_replicate_2. exact Hv.
Qed.

(** C10: a vertex whose accumulated sum normalises to zero length gets the
    normalised vertex coordinate as its normal (not a fixed (0,0,1)); this
    is so in particular for a vertex that no corner references. *)
Theorem vertex_normal_fallback (acosf : float -> float)
    (positions : list float3) (polys : list MPoly) (corner_verts : list Z)
    (pn acc : list float3) (v : nat) (p : float3) :
  accumulated_vert_normals acosf positions polys corner_verts = Some (pn, acc) ->
  positions !! v = Some p ->
  exists vn,
    calculate_normals_poly_and_vert acosf positions polys corner_verts
    = Some (pn, vn)
    /\ (forall no, acc !! v = Some no ->
          eqb (snd (normalize_v3 no)) zero = true ->
          vn !! v = Some (fst (normalize_v3_v3 p)))
    /\ ((forall c, c ∈ corner_verts -> c <> Z.of_nat v) ->
          vn !! v = Some (fst (normalize_v3_v3 p))).
Proof.
  intros Hacc Hp. unfold calculate_normals_poly_and_vert. rewrite Hacc.
  cbn [mbind option_bind]. eexists. split; [reflexivity|].
  assert (Hfall : forall no, acc !! v = Some no ->
            eqb (snd (normalize_v3 no)) zero = true ->
            zip_with normalize_vert_normal acc positions !! v
            = Some (fst (normalize_v3_v3 p))).
  { intros no Hno Hz. rewrite lookup_zip_with, Hno, Hp. cbn [mbind option_bind].
    unfold normalize_vert_normal. destruct (normalize_v3 no) as [n len].
    cbn [snd] in Hz. rewrite Hz. reflexivity. }
  split; [exact Hfall|].
  intros Hnone. apply (Hfall zero_v3); [|reflexivity].
  apply (accumulated_unindexed acosf positions polys corner_verts pn acc v Hacc).
  - apply lookup_lt_Some in Hp. exact Hp.
  - intros poly _ k _ Hk. apply (Hnone (Z.of_nat v)); [|reflexivity].
    eapply get_elem_of, Hk.
Qed.

(** One triangle, and a fourth vertex at (3,0,4) that no corner references:
    its normal is the normalised coordinate, which is not (0,0,1). *)
Definition lone_positions : list float3 :=
  [point 0 0 0; point 1 0 0; point 0 1 0; point 3 0 4].

Lemma vertex_normal_fallback_witness :
  exists pn vn,
    calculate_normals_poly_and_vert (fun a => a) lone_positions
      [mkMPoly 0 3 ME_SMOOTH] [0; 1; 2] = Some (pn, vn)
    /\ vn !! 3%nat = Some (fst (normalize_v3_v3 (point 3 0 4)))
    /\ fst (normalize_v3_v3 (point 3 0 4)) <> Float3 zero zero one.
Proof.
  destruct (accumulated_vert_normals (fun a => a) lone_positions
              [mkMPoly 0 3 ME_SMOOTH] [0; 1; 2]) as [[pn acc]|] eqn:Hacc;
    [|vm_compute in Hacc; discriminate].
  destruct (vertex_normal_fallback (fun a => a) lone_positions
              [mkMPoly 0 3 ME_SMOOTH] [0; 1; 2] pn acc 3 (point 3 0 4) Hacc
              eq_refl) as (vn & Hcalc & _ & Hnone).
  exists pn, vn. split; [exact Hcalc|]. split.
  - apply Hnone. intros c Hc.
    repeat (apply elem_of_cons in Hc as [-> | Hc]; [discriminate|]).
    inversion Hc.
  - vm_compute. discriminate.
Defined.

(** C9, what the code does: the sums are written to the slots
    [corner_verts[i_curr]] with [i_curr] counted from the start of the whole
    corner array, so a vertex that is not among the first [totloop] entries
    of [corner_verts] of any polygon keeps a zero sum, whichever corners
    reference it: their contributions land on other vertices. *)
Theorem accumulation_misses_vertices (acosf : float -> float)
    (positions : list float3) (polys : list MPoly) (corner_verts : list Z)
    (pn acc : list float3) (v : nat) :
  accumulated_vert_normals acosf positions polys corner_verts = Some (pn, acc) ->
  (v < length positions)%nat ->
  (forall poly, poly ∈ polys -> not_indexed corner_verts v (totloop poly)) ->
  acc !! v = Some zero_v3.
Proof. apply accumulated_unindexed. Qed.

(** Two triangles with no vertex in common: the second one, on the vertices
    3, 4 and 5, has the normal (0,0,1). *)
Definition two_triangles_positions : list float3 :=
  [point 0 0 0; point 1 0 0; point 0 1 0;
   point 1 1 5; point 2 1 5; point 1 2 5].

Definition two_triangles_polys : list MPoly :=
  [mkMPoly 0 3 ME_SMOOTH; mkMPoly 3 3 ME_SMOOTH].

Definition two_triangles_corner_verts : list Z := [0; 1; 2; 3; 4; 5].

(** On the two triangles, corner 3 references vertex 3, and yet the sum of
    vertex 3 stays zero. *)
Lemma accumulation_misses_vertices_witness :
  exists pn acc,
    accumulated_vert_normals (fun a => a) two_triangles_positions
      two_triangles_polys two_triangles_corner_verts = Some (pn, acc)
    /\ pn !! 1%nat = Some (Float3 zero zero one)
    /\ get two_triangles_corner_verts 3 = Some 3
    /\ acc !! 3%nat = Some zero_v3.
Proof.
  destruct (accumulated_vert_normals (fun a => a) two_triangles_positions
              two_triangles_polys two_triangles_corner_verts)
    as [[pn acc]|] eqn:Hacc; [|vm_compute in Hacc; discriminate].
  exists pn, acc. split; [reflexivity|]. split; [|split; [reflexivity|]].
  - vm_compute in Hacc. injection Hacc as <- _. reflexivity.
  - apply (accumulation_misses_vertices (fun a => a) two_triangles_positions
             two_triangles_polys two_triangles_corner_verts pn acc 3 Hacc).
    + cbn. lia.
    + intros poly Hp k Hk.
      repeat (apply elem_of_cons in Hp as [-> | Hp];
              [cbn [totloop] in Hk;
               assert (k = 0 \/ k = 1 \/ k = 2) as [->|[->| ->]] by lia;
               discriminate|]).
      inversion Hp.
Defined.

(* ===================================================================== *)
(** ** Mesh topology and the sharp-edge classifier *)
(* ===================================================================== *)

(** The arrays of a mesh that the loop-normal code reads. *)
Record Mesh : Type := mkMesh {
  positions : list float3;
  medges : list MEdge;
  corner_verts : list Z;
  corner_edges : list Z;
  polys : list MPoly;
  loop_to_poly : list Z;
  polynors : list float3;
  vert_normals : list float3
}.

Definition INDEX_UNSET : Z := -2147483648.
Definition INDEX_INVALID : Z := -1.

(** [IS_EDGE_SHARP]. *)
Definition IS_EDGE_SHARP (e2l : Z * Z) : bool :=
  (e2l.2 =? INDEX_UNSET) || (e2l.2 =? INDEX_INVALID).

(** A loop over a list with a state that may become undefined. *)
Fixpoint foldM {A S : Type} (f : A -> S -> option S) (l : list A) (s : S)
    : option S :=
  match l with
  | [] => Some s
  | a :: l' => s' ← f a s; foldM f l' s'
  end.

(** The corners of a polygon, [loopstart .. loopstart + totloop - 1]. *)
Definition poly_corners (p : MPoly) : list Z :=
  (fun k => loopstart p + Z.of_nat k) <$> seq 0 (Z.to_nat (totloop p)).

(** One turn of the loops "for every polygon, for every corner of it":
    the polygon index, the polygon, the corner and the corner before it in
    the polygon (the last corner, for the first one). *)
Record Visit : Type := mkVisit {
  vis_poly_index : Z;
  vis_poly : MPoly;
  vis_corner : Z;
  vis_prev : Z
}.

Definition corner_prev (p : MPoly) (ml : Z) : Z :=
  if ml =? loopstart p then loopstart p + totloop p - 1 else ml - 1.

Definition poly_visits (i : nat) (p : MPoly) : list Visit :=
  (fun ml => mkVisit (Z.of_nat i) p ml (corner_prev p ml)) <$> poly_corners p.

(** All the turns of the two nested loops, in order. *)
Definition corner_visits (ps : list MPoly) : list Visit :=
  concat (imap poly_visits ps).

(** The working state of [mesh_edges_sharp_tag]: the edge-to-loops table,
    the loop normals (possibly an empty span) and the bits of the edges to
    tag. *)
Record TagState : Type := mkTagState {
  ts_e2l : list (Z * Z);
  ts_loopnors : list float3;
  ts_sharp_edges : list bool
}.

Section SharpTag.

Variable m : Mesh.
Variable check_angle : bool.
Variable do_sharp_edges_tag : bool.
Variable split_angle_cos : float.

(** [is_angle_sharp] for the first corner [l0] of an edge and the polygon
    [mp_index] of the corner that reaches it second. *)
Definition is_angle_sharp (l0 mp_index : Z) : option bool :=
  if check_angle then
    p0 ← get (loop_to_poly m) l0;
    n0 ← get (polynors m) p0;
    n1 ← get (polynors m) mp_index;
    Some (ltb (dot_v3v3 n0 n1) split_angle_cos)
  else Some false.

(** The test of the second corner on an edge: the face is not smooth, or
    the edge is tagged sharp, or both corners start at the same vertex, or
    the angle is sharp. *)
Definition second_corner_sharp (poly : MPoly) (edge_i vert_i l0 : Z)
    (angle_sharp : bool) : option bool :=
  me ← get (medges m) edge_i;
  v0 ← get (corner_verts m) l0;
  Some (negb (poly_is_smooth poly) || edge_is_sharp_flag me || (vert_i =? v0)
        || angle_sharp).

(** The body of the corner loop of [mesh_edges_sharp_tag]. *)
Definition sharp_tag_corner (vis : Visit) (st : TagState) : option TagState :=
  let poly := vis_poly vis in
  let ml_curr_index := vis_corner vis in
  vert_i ← get (corner_verts m) ml_curr_index;
  edge_i ← get (corner_edges m) ml_curr_index;
  e2l ← get (ts_e2l st) edge_i;
  (* pre-populate all loop normals as if their verts were all smooth *)
  loopnors ←
    (if bool_decide (ts_loopnors st = []) then Some (ts_loopnors st)
     else vn ← get (vert_normals m) vert_i;
          put (ts_loopnors st) ml_curr_index vn);
  if Z.lor e2l.1 e2l.2 =? 0 then
    (* 'empty' edge until now *)
    tbl ← put (ts_e2l st) edge_i
            (ml_curr_index,
             if poly_is_smooth poly then INDEX_UNSET else INDEX_INVALID);
    Some (mkTagState tbl loopnors (ts_sharp_edges st))
  else if e2l.2 =? INDEX_UNSET then
    (* second loop using this edge, time to test its sharpness *)
    angle_sharp ← is_angle_sharp e2l.1 (vis_poly_index vis);
    sharp ← second_corner_sharp poly edge_i vert_i e2l.1 angle_sharp;
    if sharp : bool then
      tbl ← put (ts_e2l st) edge_i (e2l.1, INDEX_INVALID);
      bits ←
        (if do_sharp_edges_tag && angle_sharp
         then put (ts_sharp_edges st) edge_i true
         else Some (ts_sharp_edges st));
      Some (mkTagState tbl loopnors bits)
    else
      tbl ← put (ts_e2l st) edge_i (e2l.1, ml_curr_index);
      Some (mkTagState tbl loopnors (ts_sharp_edges st))
  else if negb (IS_EDGE_SHARP e2l) then
    (* more than two loops using this edge, tag as sharp if not yet done *)
    tbl ← put (ts_e2l st) edge_i (e2l.1, INDEX_INVALID);
    bits ←
      (if do_sharp_edges_tag then put (ts_sharp_edges st) edge_i false
       else Some (ts_sharp_edges st));
    Some (mkTagState tbl loopnors bits)
  else
    (* edge is already 'disqualified' (i.e. sharp) *)
    Some (mkTagState (ts_e2l st) loopnors (ts_sharp_edges st)).

(** The two nested loops of [mesh_edges_sharp_tag]. *)
Definition sharp_tag_scan (st : TagState) : option TagState :=
  foldM sharp_tag_corner (corner_visits (polys m)) st.

(** "If requested, do actual tagging of edges as sharp in another loop." *)
Definition tag_edge (e : MEdge) (bit : bool) : MEdge :=
  if bit then mkMEdge (v1 e) (v2 e) (Z.lor (eflag e) ME_SHARP) else e.

End SharpTag.

(** [cosf(split_angle)] when the angle is checked, [-1.0f] otherwise. *)
Definition split_angle_cosine (cosf : float -> float) (check_angle : bool)
    (split_angle : float) : float :=
  if check_angle then cosf split_angle else neg one.

(** [mesh_edges_sharp_tag]: the new table, loop normals and edges. *)
Definition mesh_edges_sharp_tag (cosf : float -> float) (m : Mesh)
    (check_angle : bool) (split_angle : float) (do_sharp_edges_tag : bool)
    (e2l : list (Z * Z)) (loopnors : list float3)
    : option (list (Z * Z) * list float3 * list MEdge) :=
  let sharp_edges :=
    if do_sharp_edges_tag then replicate (length (medges m)) false else [] in
  let split_angle_cos := split_angle_cosine cosf check_angle split_angle in
  st ← sharp_tag_scan m check_angle do_sharp_edges_tag split_angle_cos
         (mkTagState e2l loopnors sharp_edges);
  let edges' :=
    if do_sharp_edges_tag
    then zip_with tag_edge (medges m) (ts_sharp_edges st)
    else medges m in
  Some (ts_e2l st, ts_loopnors st, edges').

(** Modelled from the spec: [mesh_topology::build_loop_to_poly_map], section
    4.2: array[loop] = polygon_index, for the [num_loops] corners. *)
Definition build_loop_to_poly_map (ps : list MPoly) (num_loops : nat)
    : list Z :=
  foldl (fun map vis => <[Z.to_nat (vis_corner vis) := vis_poly_index vis]> map)
        (replicate num_loops 0) (corner_visits ps).

(** [BKE_edges_sharp_from_angle_set]: the edges after the call.  The mesh
    comes without loop normals (an empty span) and the map from loops to
    polygons is built by the call. *)
Definition BKE_edges_sharp_from_angle_set (cosf : float -> float) (m : Mesh)
    (split_angle : float) : option (list MEdge) :=
  if geb split_angle M_PI then
    (* nothing to do *)
    Some (medges m)
  else
    let edge_to_loops := replicate (length (medges m)) (0, 0) in
    let m' :=
      mkMesh (positions m) (medges m) (corner_verts m) (corner_edges m)
             (polys m)
             (build_loop_to_poly_map (polys m) (length (corner_verts m)))
             (polynors m) [] in
    '(_, _, edges') ← mesh_edges_sharp_tag cosf m' true split_angle true
                         edge_to_loops [];
    Some edges'.

(* ===================================================================== *)
(** ** What the scan leaves in the edge-to-loops table *)
(* ===================================================================== *)

Section SharpTagSpec.

Variable m : Mesh.
Variable check_angle : bool.
Variable do_sharp_edges_tag : bool.
Variable split_angle_cos : float.

(** The turns of the scan whose corner is on the edge [e], in order. *)
Definition edge_visits (e : Z) (vs : list Visit) : list Visit :=
  filter (fun vis => get (corner_edges m) (vis_corner vis) = Some e) vs.

(** The entry after the first corner [a]: smooth-pending, or sharp at once
    when the polygon is flat. *)
Definition first_entry (a : Visit) : Z * Z :=
  (vis_corner a,
   if poly_is_smooth (vis_poly a) then INDEX_UNSET else INDEX_INVALID).

(** The entry after the second corner [b]. *)
Definition second_entry (e : Z) (a b : Visit) : option (Z * Z) :=
  if poly_is_smooth (vis_poly a) then
    vert_b ← get (corner_verts m) (vis_corner b);
    ang ← is_angle_sharp m check_angle split_angle_cos (vis_corner a)
            (vis_poly_index b);
    sharp ← second_corner_sharp m (vis_poly b) e vert_b (vis_corner a) ang;
    Some (vis_corner a, if sharp : bool then INDEX_INVALID else vis_corner b)
  else Some (vis_corner a, INDEX_INVALID).

(** The state of an edge as a function of the corners that reached it:
    unset, after one corner, after two, and sharp after three or more. *)
Definition edge_entry (e : Z) (evs : list Visit) : option (Z * Z) :=
  match evs with
  | [] => Some (0, 0)
  | [a] => Some (first_entry a)
  | [a; b] => second_entry e a b
  | a :: _ :: _ :: _ => Some (vis_corner a, INDEX_INVALID)
  end.

(** The bit of an edge in [sharp_edges]: set when the angle test came out
    true as the second corner resolved a smooth-pending entry. *)
Definition edge_bit (evs : list Visit) : option bool :=
  match evs with
  | a :: b :: _ =>
      if poly_is_smooth (vis_poly a)
      then is_angle_sharp m check_angle split_angle_cos (vis_corner a)
             (vis_poly_index b)
      else Some false
  | _ => Some false
  end.

(** The state of the scan after the turns [pre], for a table of [n] edges. *)
Record scan_inv (n : nat) (pre : list Visit) (st : TagState) : Prop := {
  inv_length : length (ts_e2l st) = n;
  inv_entry : forall e, 0 <= e < Z.of_nat n ->
    is_Some (get (ts_e2l st) e)
    /\ get (ts_e2l st) e = edge_entry e (edge_visits e pre);
  inv_bits_length :
    do_sharp_edges_tag = true -> length (ts_sharp_edges st) = n;
  inv_bits : do_sharp_edges_tag = true -> forall e, 0 <= e < Z.of_nat n ->
    is_Some (get (ts_sharp_edges st) e)
    /\ get (ts_sharp_edges st) e = edge_bit (edge_visits e pre);
  inv_bits_off :
    do_sharp_edges_tag = false -> ts_sharp_edges st = []
}.

Lemma edge_visits_snoc (e : Z) (pre : list Visit) (v : Visit) :
  edge_visits e (pre ++ [v]) =
  edge_visits e pre ++
    (if bool_decide (get (corner_edges m) (vis_corner v) = Some e)
     then [v] else []).
Proof.
  unfold edge_visits. rewrite filter_app. f_equal.
  rewrite filter_cons, filter_nil.
  destruct (decide (get (corner_edges m) (vis_corner v) = Some e)) as [H|H].
  - rewrite bool_decide_eq_true_2 by exact H. reflexivity.
  - rewrite bool_decide_eq_false_2 by exact H. reflexivity.
Qed.

Lemma edge_visits_elem (e : Z) (vs : list Visit) (a : Visit) :
  a ∈ edge_visits e vs -> a ∈ vs.
Proof. unfold edge_visits. intros H. apply list_elem_of_filter in H as [_ H]. exact H. Qed.

Lemma edge_visits_on_edge (e : Z) (vs : list Visit) (a : Visit) :
  a ∈ edge_visits e vs -> get (corner_edges m) (vis_corner a) = Some e.
Proof. unfold edge_visits. intros H. apply list_elem_of_filter in H as [H _]. exact H. Qed.

Lemma edge_visits_NoDup (e : Z) (vs : list Visit) :
  NoDup (vis_corner <$> vs) -> NoDup (vis_corner <$> edge_visits e vs).
Proof.
  unfold edge_visits. induction vs as [|v vs IH]; intros H; [constructor|].
  rewrite fmap_cons in H. apply NoDup_cons in H as [Hv Hvs].
  rewrite filter_cons. destruct (decide _); [|auto].
  rewrite fmap_cons. apply NoDup_cons. split; [|auto].
  intros Hin. apply Hv. apply list_elem_of_fmap in Hin as (a & -> & Ha).
  apply list_elem_of_fmap. exists a. split; [reflexivity|].
  apply list_elem_of_filter in Ha as [_ Ha]. exact Ha.
Qed.

End SharpTagSpec.

Section SharpTagStep.

Variable m : Mesh.
Variable check_angle : bool.
Variable do_sharp_edges_tag : bool.
Variable split_angle_cos : float.

Abbreviation step := (sharp_tag_corner m check_angle do_sharp_edges_tag split_angle_cos).
Abbreviation angle := (is_angle_sharp m check_angle split_angle_cos).

(** The four branches of the corner loop, as transitions of the entry of
    the corner's edge. *)
Inductive tag_transition (v : Visit) (vert_i e0 : Z) (old : Z * Z)
    (st st' : TagState) : Prop :=
| tag_first :
    Z.lor old.1 old.2 = 0 ->
    put (ts_e2l st) e0 (first_entry v) = Some (ts_e2l st') ->
    ts_sharp_edges st' = ts_sharp_edges st ->
    tag_transition v vert_i e0 old st st'
| tag_second (ang sharp : bool) :
    Z.lor old.1 old.2 <> 0 -> old.2 = INDEX_UNSET ->
    angle old.1 (vis_poly_index v) = Some ang ->
    second_corner_sharp m (vis_poly v) e0 vert_i old.1 ang = Some sharp ->
    put (ts_e2l st) e0 (old.1, if sharp then INDEX_INVALID else vis_corner v)
      = Some (ts_e2l st') ->
    (if sharp && do_sharp_edges_tag && ang
     then put (ts_sharp_edges st) e0 true = Some (ts_sharp_edges st')
     else ts_sharp_edges st' = ts_sharp_edges st) ->
    tag_transition v vert_i e0 old st st'
| tag_third :
    Z.lor old.1 old.2 <> 0 -> old.2 <> INDEX_UNSET ->
    IS_EDGE_SHARP old = false ->
    put (ts_e2l st) e0 (old.1, INDEX_INVALID) = Some (ts_e2l st') ->
    (if do_sharp_edges_tag
     then put (ts_sharp_edges st) e0 false = Some (ts_sharp_edges st')
     else ts_sharp_edges st' = ts_sharp_edges st) ->
    tag_transition v vert_i e0 old st st'
| tag_done :
    Z.lor old.1 old.2 <> 0 -> old.2 <> INDEX_UNSET ->
    IS_EDGE_SHARP old = true ->
    ts_e2l st' = ts_e2l st ->
    ts_sharp_edges st' = ts_sharp_edges st ->
    tag_transition v vert_i e0 old st st'.

Lemma sharp_tag_corner_cases (v : Visit) (st st' : TagState) :
  step v st = Some st' ->
  exists vert_i e0 old,
    get (corner_verts m) (vis_corner v) = Some vert_i
    /\ get (corner_edges m) (vis_corner v) = Some e0
    /\ get (ts_e2l st) e0 = Some old
    /\ tag_transition v vert_i e0 old st st'.
Proof.
  unfold sharp_tag_corner. intros H.
  bind_inv H. rename a into vert_i. bind_inv H. rename a into e0.
  bind_inv H. rename a into old. bind_inv H. rename a into lnors.
  exists vert_i, e0, old. repeat split; try assumption.
  destruct (Z.lor old.1 old.2 =? 0) eqn:E0.
  - bind_inv H. injection H as <-. apply tag_first; [lia|assumption|reflexivity].
  - destruct (old.2 =? INDEX_UNSET) eqn:E1.
    + bind_inv H. rename a into ang. bind_inv H. rename a into sharp.
      apply (tag_second _ _ _ _ _ _ ang sharp); try assumption; try lia.
      * destruct sharp; bind_inv H; [bind_inv H|]; injection H as <-; assumption.
      * destruct sharp; cbn [andb].
        -- bind_inv H. bind_inv H. injection H as <-. cbn [ts_sharp_edges].
           destruct (do_sharp_edges_tag && ang); [assumption | congruence].
        -- bind_inv H. injection H as <-. reflexivity.
    + destruct (IS_EDGE_SHARP old) eqn:E2; cbn [negb] in H.
      * injection H as <-. apply tag_done; try assumption; try lia; reflexivity.
      * bind_inv H. bind_inv H. injection H as <-.
        apply tag_third; try assumption; try lia. cbn [ts_sharp_edges].
        destruct do_sharp_edges_tag; [assumption | congruence].
Qed.

End SharpTagStep.

Lemma lor_first_entry (a : Visit) :
  Z.lor (first_entry a).1 (first_entry a).2 <> 0.
Proof.
  unfold first_entry. cbn [fst snd]. intros H. apply Z.lor_eq_0_iff in H as [_ H].
  destruct (poly_is_smooth (vis_poly a)); discriminate.
Qed.

Lemma lor_invalid (a : Z) : Z.lor a INDEX_INVALID <> 0.
Proof. intros H. apply Z.lor_eq_0_iff in H as [_ H]. discriminate. Qed.

Lemma lor_distinct (a b : Z) : a <> b -> Z.lor a b <> 0.
Proof. intros Hne H. apply Z.lor_eq_0_iff in H as [-> ->]. congruence. Qed.

Lemma is_edge_sharp_invalid (a : Z) : IS_EDGE_SHARP (a, INDEX_INVALID) = true.
Proof. reflexivity. Qed.

Lemma is_edge_sharp_nonneg (a b : Z) : 0 <= b -> IS_EDGE_SHARP (a, b) = false.
Proof.
  intros H. unfold IS_EDGE_SHARP, INDEX_UNSET, INDEX_INVALID. cbn [snd].
  apply orb_false_iff. split; lia.
Qed.

Section SharpTagInvariant.

Variable m : Mesh.
Variable check_angle : bool.
Variable do_sharp_edges_tag : bool.
Variable split_angle_cos : float.

Abbreviation step := (sharp_tag_corner m check_angle do_sharp_edges_tag split_angle_cos).
Abbreviation angle := (is_angle_sharp m check_angle split_angle_cos).
Abbreviation entry := (edge_entry m check_angle split_angle_cos).
Abbreviation bit := (edge_bit m check_angle split_angle_cos).
Abbreviation inv := (scan_inv m check_angle do_sharp_edges_tag split_angle_cos).

(** What the second corner leaves is sharp, or the smooth pair; a smooth
    pair means that the angle test came out false. *)
Lemma second_entry_cases (e : Z) (a b : Visit) (x : Z * Z) :
  second_entry m check_angle split_angle_cos e a b = Some x ->
  x = (vis_corner a, INDEX_INVALID)
  \/ (x = (vis_corner a, vis_corner b)
      /\ poly_is_smooth (vis_poly a) = true
      /\ angle (vis_corner a) (vis_poly_index b) = Some false).
Proof.
  unfold second_entry. destruct (poly_is_smooth (vis_poly a)).
  - intros H. bind_case H as vert_b Hvert. bind_case H as ang Hang.
    bind_case H as sharp Hsharp. injection H as <-.
    destruct sharp; [left; reflexivity|]. right. split; [reflexivity|].
    split; [reflexivity|]. unfold second_corner_sharp in Hsharp.
    bind_case Hsharp as me Hme. bind_case Hsharp as v0 Hv0.
    injection Hsharp as Hs.
    apply orb_false_iff in Hs as [_ ->]. exact Hang.
  - intros [= <-]. left. reflexivity.
Qed.

Lemma second_corner_sharp_angle (poly : MPoly) (e vert_i l0 : Z)
    (ang : bool) :
  second_corner_sharp m poly e vert_i l0 ang = Some false -> ang = false.
Proof.
  unfold second_corner_sharp. intros H.
  bind_case H as me Hme. bind_case H as v0 Hv0. injection H as Hs.
  apply orb_false_iff in Hs as [_ ->]. reflexivity.
Qed.

(** The new entry and the new bit of the corner's edge, for each number of
    corners that reached the edge before. *)
Lemma tag_transition_spec (v : Visit) (vert_i e0 : Z) (old : Z * Z)
    (st st' : TagState) (evs : list Visit) :
  tag_transition m check_angle do_sharp_edges_tag split_angle_cos v vert_i e0
    old st st' ->
  get (corner_verts m) (vis_corner v) = Some vert_i ->
  get (ts_e2l st) e0 = Some old ->
  entry e0 evs = Some old ->
  (forall a, a ∈ evs -> 0 <= vis_corner a) ->
  NoDup (vis_corner <$> evs) ->
  (get (ts_e2l st') e0 = entry e0 (evs ++ [v])
   /\ is_Some (get (ts_e2l st') e0))
  /\ (do_sharp_edges_tag = true ->
      is_Some (get (ts_sharp_edges st) e0) ->
      get (ts_sharp_edges st) e0 = bit evs ->
      get (ts_sharp_edges st') e0 = bit (evs ++ [v])
      /\ is_Some (get (ts_sharp_edges st') e0)).
Proof.
  intros Ht Hvert Hold Hentry Hpos Hnd.
  assert (Hput : forall x, put (ts_e2l st) e0 x = Some (ts_e2l st') ->
            get (ts_e2l st') e0 = Some x).
  { intros x Hx. eapply put_lookup_eq, Hx. }
  assert (Hsame : ts_sharp_edges st' = ts_sharp_edges st ->
            forall r, is_Some (get (ts_sharp_edges st) e0) ->
            get (ts_sharp_edges st) e0 = r ->
            get (ts_sharp_edges st') e0 = r
            /\ is_Some (get (ts_sharp_edges st') e0)).
  { intros -> r Hs <-. split; [reflexivity | exact Hs]. }
  destruct evs as [|a [|b [|c r]]]; cbn [edge_entry edge_bit app] in *.
  - (* no corner before *)
    injection Hentry as <-.
    destruct Ht as [H0 Hp Hb|ang sharp H0|H0|H0];
      [|exfalso; apply H0; reflexivity..].
    rewrite (Hput _ Hp). split; [split; [reflexivity | eauto]|].
    intros _ Hsome Hbit. exact (Hsame Hb _ Hsome Hbit).
  - (* one corner before *)
    injection Hentry as <-. pose proof (lor_first_entry a) as Hl.
    destruct Ht as [H0|ang sharp _ Hu Hang Hsharp Hp Hb|_ Hu Hs Hp _
                   |_ Hu Hs Htbl Hb]; [congruence| | |].
    + unfold second_entry, first_entry in *. cbn [fst snd] in *.
      destruct (poly_is_smooth (vis_poly a)); [|discriminate].
      rewrite (Hput _ Hp). split.
      * split; [|eauto]. rewrite Hvert. cbn [mbind option_bind].
        rewrite Hang. cbn [mbind option_bind]. rewrite Hsharp. reflexivity.
      * intros Hdo Hsome Hbit. rewrite Hang. rewrite Hdo, andb_true_r in Hb.
        destruct (sharp && ang) eqn:E.
        -- apply andb_true_iff in E as [_ ->].
           rewrite (put_lookup_eq _ _ _ _ Hb). split; [reflexivity | eauto].
        -- assert (ang = false) as ->.
           { destruct sharp; [exact E|].
             exact (second_corner_sharp_angle _ _ _ _ _ Hsharp). }
           exact (Hsame Hb _ Hsome Hbit).
    + unfold first_entry, IS_EDGE_SHARP in *. cbn [fst snd] in *.
      destruct (poly_is_smooth (vis_poly a)); [congruence | discriminate].
    + unfold second_entry, first_entry in *. cbn [fst snd] in *.
      destruct (poly_is_smooth (vis_poly a)); [congruence|].
      rewrite Htbl, Hold. split; [split; [reflexivity | eauto]|].
      intros _ Hsome Hbit. exact (Hsame Hb _ Hsome Hbit).
  - (* two corners before *)
    assert (Ha : 0 <= vis_corner a) by (apply Hpos; left).
    assert (Hb : 0 <= vis_corner b) by (apply Hpos; right; left).
    assert (Hab : vis_corner a <> vis_corner b).
    { rewrite !fmap_cons in Hnd. apply NoDup_cons in Hnd as [Hn _].
      intros E. apply Hn. rewrite E. left. }
    destruct (second_entry_cases _ _ _ _ Hentry) as [-> | (-> & Hsm & Hang)].
    + destruct Ht as [H0|ang sharp _ Hu|_ _ Hs|_ _ _ Htbl Hbits].
      * exfalso. exact (lor_invalid _ H0).
      * discriminate.
      * discriminate.
      * rewrite Htbl, Hold. split; [split; [reflexivity | eauto]|].
        intros _ Hsome Hbit. exact (Hsame Hbits _ Hsome Hbit).
    + destruct Ht as [H0|ang sharp _ Hu|_ _ _ Hp Hbits|_ _ Hs].
      * exfalso. exact (lor_distinct _ _ Hab H0).
      * cbn [snd] in Hu. unfold INDEX_UNSET in Hu. lia.
      * rewrite (Hput _ Hp). split; [split; [reflexivity | eauto]|].
        intros Hdo Hsome Hbit. rewrite Hdo in Hbits. rewrite Hsm, Hang.
        rewrite (put_lookup_eq _ _ _ _ Hbits). split; [reflexivity | eauto].
      * rewrite is_edge_sharp_nonneg in Hs by exact Hb. discriminate.
  - (* three or more corners before *)
    injection Hentry as <-.
    destruct Ht as [H0|ang sharp _ Hu|_ _ Hs|_ _ _ Htbl Hbits].
    + exfalso. exact (lor_invalid _ H0).
    + discriminate.
    + discriminate.
    + rewrite Htbl, Hold. split; [split; [reflexivity | eauto]|].
      intros _ Hsome Hbit. exact (Hsame Hbits _ Hsome Hbit).
Qed.

Lemma tag_transition_frame (v : Visit) (vert_i e0 : Z) (old : Z * Z)
    (st st' : TagState) :
  tag_transition m check_angle do_sharp_edges_tag split_angle_cos v vert_i e0
    old st st' ->
  length (ts_e2l st') = length (ts_e2l st)
  /\ (forall e, e0 <> e -> get (ts_e2l st') e = get (ts_e2l st) e)
  /\ length (ts_sharp_edges st') = length (ts_sharp_edges st)
  /\ (forall e, e0 <> e ->
        get (ts_sharp_edges st') e = get (ts_sharp_edges st) e)
  /\ (do_sharp_edges_tag = false -> ts_sharp_edges st' = ts_sharp_edges st).
Proof.
  assert (Hp : forall (A : Type) (l l' : list A) x,
            put l e0 x = Some l' ->
            length l' = length l
            /\ forall e, e0 <> e -> get l' e = get l e).
  { intros A l l' x H. split; [eapply put_length, H|].
    intros e He. eapply put_get_ne; eassumption. }
  assert (Hs : forall (A : Type) (l l' : list A), l' = l ->
            length l' = length l
            /\ forall e, e0 <> e -> get l' e = get l e).
  { intros A l l' ->. auto. }
  intros [H0 Ht Hb|ang sharp H0 Hu Hang Hsharp Ht Hb|H0 Hu Hsh Ht Hb
         |H0 Hu Hsh Ht Hb].
  - destruct (Hp _ _ _ _ Ht) as [? ?], (Hs _ _ _ Hb) as [? ?]. auto.
  - destruct (Hp _ _ _ _ Ht) as [? ?].
    destruct (sharp && do_sharp_edges_tag && ang) eqn:E.
    + destruct (Hp _ _ _ _ Hb) as [? ?]. repeat split; auto.
      intros ->. rewrite andb_false_r in E. discriminate.
    + destruct (Hs _ _ _ Hb) as [? ?]. auto.
  - destruct (Hp _ _ _ _ Ht) as [? ?]. destruct do_sharp_edges_tag.
    + destruct (Hp _ _ _ _ Hb) as [? ?]. repeat split; auto. discriminate.
    + destruct (Hs _ _ _ Hb) as [? ?]. auto.
  - destruct (Hs _ _ _ Ht) as [? ?], (Hs _ _ _ Hb) as [? ?]. auto.
Qed.

Lemma sharp_tag_corner_inv (n : nat) (pre : list Visit) (v : Visit)
    (st st' : TagState) :
  inv n pre st -> step v st = Some st' ->
  (forall a, a ∈ pre -> 0 <= vis_corner a) ->
  NoDup (vis_corner <$> pre) ->
  inv n (pre ++ [v]) st'.
Proof.
  intros [Hlen Hent Hblen Hbits Hoff] Hstep Hpos Hnd.
  destruct (sharp_tag_corner_cases _ _ _ _ _ _ _ Hstep)
    as (vert_i & e0 & old & Hvert & Hedge & Hold & Ht).
  destruct (tag_transition_frame _ _ _ _ _ _ Ht)
    as (Hl1 & Hf1 & Hl2 & Hf2 & Hoff').
  assert (He0 : 0 <= e0 < Z.of_nat n).
  { apply get_Some in Hold as [? Hold]. apply lookup_lt_Some in Hold. lia. }
  assert (Hevs : forall e, e0 <> e ->
            edge_visits m e (pre ++ [v]) = edge_visits m e pre).
  { intros e He. rewrite edge_visits_snoc, bool_decide_eq_false_2.
    - apply app_nil_r.
    - rewrite Hedge. congruence. }
  assert (Hevs0 : edge_visits m e0 (pre ++ [v]) = edge_visits m e0 pre ++ [v]).
  { rewrite edge_visits_snoc, bool_decide_eq_true_2; [reflexivity | exact Hedge]. }
  destruct (Hent e0 He0) as [_ Hent0]. rewrite Hold in Hent0.
  destruct (tag_transition_spec _ _ _ _ _ _ (edge_visits m e0 pre) Ht Hvert Hold
              (eq_sym Hent0)) as [[Hnew Hsome] Hbit].
  { intros a Ha. apply Hpos. eapply edge_visits_elem, Ha. }
  { apply edge_visits_NoDup, Hnd. }
  split.
  - congruence.
  - intros e He. destruct (decide (e0 = e)) as [<- | Hne].
    + rewrite Hevs0. split; assumption.
    + rewrite (Hf1 e Hne), (Hevs e Hne). apply Hent, He.
  - intros Hdo. rewrite Hl2. apply Hblen, Hdo.
  - intros Hdo e He. destruct (decide (e0 = e)) as [<- | Hne].
    + rewrite Hevs0. destruct (Hbits Hdo e0 He0) as [Hs Hb].
      destruct (Hbit Hdo Hs Hb). split; assumption.
    + rewrite (Hf2 e Hne), (Hevs e Hne). apply Hbits; assumption.
  - intros Hdo. rewrite (Hoff' Hdo). apply Hoff, Hdo.
Qed.

Lemma sharp_tag_scan_inv (n : nat) (post pre : list Visit) (st st' : TagState) :
  inv n pre st -> foldM step post st = Some st' ->
  (forall a, a ∈ pre ++ post -> 0 <= vis_corner a) ->
  NoDup (vis_corner <$> pre ++ post) ->
  inv n (pre ++ post) st'.
Proof.
  revert pre st. induction post as [|v post IH]; intros pre st Hinv H Hpos Hnd.
  - injection H as <-. rewrite app_nil_r. exact Hinv.
  - cbn [foldM] in H. bind_case H as st1 Hst1.
    replace (pre ++ v :: post) with ((pre ++ [v]) ++ post) in *
      by (rewrite <- app_assoc; reflexivity).
    apply (IH (pre ++ [v]) st1); try assumption.
    apply (sharp_tag_corner_inv n pre v st st1 Hinv Hst1).
    + intros a Ha. apply Hpos. apply elem_of_app. left. apply elem_of_app. left.
      exact Ha.
    + rewrite !fmap_app in Hnd. apply NoDup_app in Hnd as [Hnd _].
      apply NoDup_app in Hnd as [Hnd _]. exact Hnd.
Qed.

(** The state the scan starts from: a table of zeros and no bit set. *)
Lemma scan_inv_init (n : nat) (lnors : list float3) :
  inv n []
    (mkTagState (replicate n (0, 0)) lnors
       (if do_sharp_edges_tag then replicate n false else [])).
Proof.
  assert (Hrep : forall (A : Type) (x : A) e, 0 <= e < Z.of_nat n ->
            get (replicate n x) e = Some x).
  { intros A x e He. apply get_Some. split; [lia|].
    apply lookup_replicate_2. lia. }
  split; cbn [ts_e2l ts_sharp_edges].
  - apply length_replicate.
  - intros e He. rewrite (Hrep _ _ e He). split; [eauto | reflexivity].
  - intros ->. apply length_replicate.
  - intros -> e He. rewrite (Hrep _ _ e He). split; [eauto | reflexivity].
  - intros ->. reflexivity.
Qed.

End SharpTagInvariant.

(** The corners of the polygons are corner indices (not negative) and no
    two turns of the scan are on the same corner: the polygons do not
    overlap in the corner array. *)
Definition corners_valid (ps : list MPoly) : Prop :=
  Forall (fun a => 0 <= vis_corner a) (corner_visits ps)
  /\ NoDup (vis_corner <$> corner_visits ps).

#[global] Instance corners_valid_dec (ps : list MPoly) :
  Decision (corners_valid ps).
Proof. unfold corners_valid. apply _. Defined.

Lemma sharp_tag_scan_spec (m : Mesh) (check_angle do_sharp_edges_tag : bool)
    (split_angle_cos : float) (lnors : list float3) (st : TagState) :
  let n := length (medges m) in
  sharp_tag_scan m check_angle do_sharp_edges_tag split_angle_cos
    (mkTagState (replicate n (0, 0)) lnors
       (if do_sharp_edges_tag then replicate n false else [])) = Some st ->
  corners_valid (polys m) ->
  scan_inv m check_angle do_sharp_edges_tag split_angle_cos n
    (corner_visits (polys m)) st.
Proof.
  intros n H [Hpos Hnd]. unfold sharp_tag_scan in H.
  apply (sharp_tag_scan_inv m check_angle do_sharp_edges_tag split_angle_cos n
           (corner_visits (polys m)) [] _ st
           (scan_inv_init m check_angle do_sharp_edges_tag split_angle_cos n lnors)
           H).
  - intros a Ha. rewrite Forall_forall in Hpos. apply Hpos, Ha.
  - exact Hnd.
Qed.

(** C3: after the scan, the entry of an edge is a function of the corners
    that reached it.  When the first corner [a] left it smooth-pending (its
    polygon is smooth) and a second corner [b] reached it, the entry is sharp
    exactly when the polygon of [b] is flat, or the edge carries the sharp
    flag, or both corners start at the same vertex, or the angle is checked
    and the dot product of the two polygon normals is below
    [cosf(split_angle)]; otherwise it holds the index of [b].  An edge that
    three or more corners reached is sharp. *)
Theorem sharp_edge_classification (cosf : float -> float) (m : Mesh)
    (check_angle : bool) (split_angle : float) (do_sharp_edges_tag : bool)
    (lnors lnors' : list float3) (tbl : list (Z * Z)) (edges' : list MEdge)
    (e : Z) :
  mesh_edges_sharp_tag cosf m check_angle split_angle do_sharp_edges_tag
    (replicate (length (medges m)) (0, 0)) lnors = Some (tbl, lnors', edges') ->
  corners_valid (polys m) ->
  0 <= e < Z.of_nat (length (medges m)) ->
  match edge_visits m e (corner_visits (polys m)) with
  | [] => get tbl e = Some (0, 0)
  | [a] =>
      get tbl e
      = Some (vis_corner a,
              if poly_is_smooth (vis_poly a) then INDEX_UNSET
              else INDEX_INVALID)
  | [a; b] =>
      if poly_is_smooth (vis_poly a) then
        exists me va vb ang,
          get (medges m) e = Some me
          /\ get (corner_verts m) (vis_corner a) = Some va
          /\ get (corner_verts m) (vis_corner b) = Some vb
          /\ (if check_angle then
                exists pa na nb,
                  get (loop_to_poly m) (vis_corner a) = Some pa
                  /\ get (polynors m) pa = Some na
                  /\ get (polynors m) (vis_poly_index b) = Some nb
                  /\ ang = ltb (dot_v3v3 na nb) (cosf split_angle)
              else ang = false)
          /\ get tbl e
             = Some (vis_corner a,
                     if negb (poly_is_smooth (vis_poly b))
                        || edge_is_sharp_flag me || (vb =? va) || ang
                     then INDEX_INVALID else vis_corner b)
      else get tbl e = Some (vis_corner a, INDEX_INVALID)
  | a :: _ :: _ :: _ =>
      get tbl e = Some (vis_corner a, INDEX_INVALID)
      /\ IS_EDGE_SHARP (vis_corner a, INDEX_INVALID) = true
  end.
Proof.
  unfold mesh_edges_sharp_tag. intros H Hvalid He.
  bind_case H as st Hst. injection H as <- _ _.
  destruct (sharp_tag_scan_spec _ _ _ _ _ _ Hst Hvalid) as [_ Hent _ _ _].
  destruct (Hent e He) as [[x Hx] Hentry]. rewrite Hx in Hentry. rewrite Hx.
  destruct (edge_visits m e (corner_visits (polys m))) as [|a [|b [|c r]]];
    cbn [edge_entry] in Hentry.
  - congruence.
  - rewrite Hentry. reflexivity.
  - unfold second_entry in Hentry.
    destruct (poly_is_smooth (vis_poly a)); [|congruence].
    symmetry in Hentry. bind_case Hentry as vb Hvb.
    bind_case Hentry as ang Hang. bind_case Hentry as sharp Hsharp.
    injection Hentry as <-. unfold second_corner_sharp in Hsharp.
    bind_case Hsharp as me Hme. bind_case Hsharp as va Hva.
    injection Hsharp as <-.
    exists me, va, vb, ang. repeat split; try assumption.
    unfold is_angle_sharp, split_angle_cosine in Hang.
    destruct check_angle; [|congruence].
    bind_case Hang as pa Hpa. bind_case Hang as na Hna.
    bind_case Hang as nb Hnb. injection Hang as <-.
    exists pa, na, nb. repeat split; assumption.
  - split; [congruence | reflexivity].
Qed.

(* ===================================================================== *)
(** ** A closed fan of six triangles *)
(* ===================================================================== *)

(** Six smooth triangles around the vertex 0, which sits above the centre
    of the hexagon of the vertices 1..6.  Triangle [k] has the corners
    [3k, 3k+1, 3k+2] on the vertices [0, 1+k, 1+(k+1) mod 6]; the edges
    0..5 are the spokes from the vertex 0, the edges 6..11 the rim. *)
Definition hex_positions : list float3 :=
  [point 0 0 1; point 2 0 0; point 1 2 0; point (-1) 2 0; point (-2) 0 0;
   point (-1) (-2) 0; point 1 (-2) 0].

Definition hex_polys : list MPoly :=
  (fun k => mkMPoly (3 * Z.of_nat k) 3 ME_SMOOTH) <$> seq 0 6.

Definition hex_corner_verts : list Z :=
  [0; 1; 2;  0; 2; 3;  0; 3; 4;  0; 4; 5;  0; 5; 6;  0; 6; 1].

Definition hex_corner_edges : list Z :=
  [0; 6; 1;  1; 7; 2;  2; 8; 3;  3; 9; 4;  4; 10; 5;  5; 11; 0].

Definition hex_edges : list MEdge :=
  [mkMEdge 0 1 0; mkMEdge 0 2 0; mkMEdge 0 3 0; mkMEdge 0 4 0; mkMEdge 0 5 0;
   mkMEdge 0 6 0;
   mkMEdge 1 2 0; mkMEdge 2 3 0; mkMEdge 3 4 0; mkMEdge 4 5 0; mkMEdge 5 6 0;
   mkMEdge 6 1 0].

(** The polygon normals, by Newell's method. *)
Definition hex_polynors : list float3 :=
  omap (fun p => inline_poly_normal hex_positions
                   (slice hex_corner_verts (loopstart p) (totloop p)) p)
       hex_polys.

Definition hex_mesh : Mesh :=
  mkMesh hex_positions hex_edges hex_corner_verts hex_corner_edges hex_polys
         (build_loop_to_poly_map hex_polys 18) hex_polynors
         (replicate 7 (Float3 zero zero one)).

Lemma hex_corners_valid : corners_valid hex_polys.
Proof. apply (bool_decide_eq_true_1 _). vm_compute. reflexivity. Qed.

(** A stand-in for the C library's cosine at the split angle of the
    examples: the cosine of one third of pi. *)
Definition cos_half (_ : float) : float := half.

(** On the fan, the spoke 1 is reached by the corner 2 and then by the
    corner 3, and is resolved smooth: its entry is [(2, 3)]. *)
Lemma sharp_edge_classification_witness :
  exists tbl lnors' edges',
    mesh_edges_sharp_tag cos_half hex_mesh true one false
      (replicate 12 (0, 0)) [] = Some (tbl, lnors', edges')
    /\ get tbl 1 = Some (2, 3).
Proof.
  destruct (mesh_edges_sharp_tag cos_half hex_mesh true one false
              (replicate 12 (0, 0)) []) as [[[tbl lnors'] edges']|] eqn:H;
    [|vm_compute in H; discriminate].
  exists tbl, lnors', edges'. split; [reflexivity|].
  pose proof (sharp_edge_classification cos_half hex_mesh true one false
                [] lnors' tbl edges' 1 H hex_corners_valid) as T.
  assert (Hev : edge_visits hex_mesh 1 (corner_visits (polys hex_mesh))
                = [mkVisit 0 (mkMPoly 0 3 ME_SMOOTH) 2 1;
                   mkVisit 1 (mkMPoly 3 3 ME_SMOOTH) 3 5])
    by (vm_compute; reflexivity).
  rewrite Hev in T. cbn [vis_poly vis_corner vis_poly_index] in T.
  destruct T as (me & va & vb & ang & Hme & Hva & Hvb & Hang & Htbl);
    [cbn; lia|].
  destruct Hang as (pa & na & nb & Hpa & Hna & Hnb & ->).
  vm_compute in Hme, Hva, Hvb, Hpa. injection Hme as <-. injection Hva as <-.
  injection Hvb as <-. injection Hpa as <-.
  vm_compute in Hna, Hnb. injection Hna as <-. injection Hnb as <-.
  exact Htbl.
Defined.


(** A stand-in for the C library's cosine at the split angle 0: 1. *)
Definition cos_at_zero (_ : float) : float := one.


(* ===================================================================== *)
(** ** Loop-normal spaces of a mesh *)
(* ===================================================================== *)

(** [MLoopNorSpaceArray]: [lspacearr] gives for every corner its space (a
    pointer or null); the spaces live in the arena, and a pointer to one is
    its position in [spaces].  Several corners point to the same space. *)
Record MLoopNorSpaceArray : Type := mkSpaceArr {
  lspacearr : list (option nat);
  spaces : list MLoopNorSpace
}.

(** [BKE_lnor_spacearr_init] for [numLoops] corners. *)
Definition BKE_lnor_spacearr_init (numLoops : nat) : MLoopNorSpaceArray :=
  mkSpaceArr (replicate numLoops None) [].

(** [BKE_lnor_space_create]: a zero-initialised space, and its pointer. *)
Definition BKE_lnor_space_create (arr : MLoopNorSpaceArray)
    : MLoopNorSpaceArray * nat :=
  (mkSpaceArr (lspacearr arr) (spaces arr ++ [space_calloc]),
   length (spaces arr)).

(** [BKE_lnor_space_add_loop] with a null [bm_loop]. *)
Definition BKE_lnor_space_add_loop (arr : MLoopNorSpaceArray) (sp : nat)
    (ml_index : Z) (is_single : bool) : option MLoopNorSpaceArray :=
  tbl ← put (lspacearr arr) ml_index (Some sp);
  s ← spaces arr !! sp;
  let s' :=
    if is_single then
      mkSpace (vec_lnor s) (vec_ref s) (vec_ortho s) (ref_alpha s) (ref_beta s)
              [ml_index] (Z.lor (sflags s) MLNOR_SPACE_IS_SINGLE)
    else
      mkSpace (vec_lnor s) (vec_ref s) (vec_ortho s) (ref_alpha s) (ref_beta s)
              (ml_index :: loops s) (sflags s) in
  Some (mkSpaceArr tbl (<[sp := s']> (spaces arr))).

(** The space a pointer designates, replaced by [f] of it. *)
Definition update_space (arr : MLoopNorSpaceArray) (sp : nat)
    (f : MLoopNorSpace -> MLoopNorSpace) : option MLoopNorSpaceArray :=
  s ← spaces arr !! sp;
  Some (mkSpaceArr (lspacearr arr) (<[sp := f s]> (spaces arr))).

(* ===================================================================== *)
(** ** The fan walker *)
(* ===================================================================== *)

Section Fan.

Variable m : Mesh.
Variable edge_to_loops : list (Z * Z).

(** [loop_manifold_fan_around_vert_next]: from the corner of the current
    edge, the corner of the pivot vertex and the polygon, to the next ones. *)
Definition loop_manifold_fan_around_vert_next (e2lfan_curr : Z * Z)
    (mv_pivot_index : Z) (mlfan_curr_index : Z) : option (Z * Z * Z) :=
  fan_vert_curr ← get (corner_verts m) mlfan_curr_index;
  let next :=
    if e2lfan_curr.1 =? mlfan_curr_index then e2lfan_curr.2 else e2lfan_curr.1 in
  mpfan_curr_index ← get (loop_to_poly m) next;
  fan_vert_next ← get (corner_verts m) next;
  mpfan_next ← get (polys m) mpfan_curr_index;
  if (fan_vert_curr =? fan_vert_next) && (fan_vert_curr =? mv_pivot_index)
     || negb (fan_vert_curr =? fan_vert_next)
        && negb (fan_vert_curr =? mv_pivot_index)
  then
    (* we need the previous loop, but current one is our vertex's loop *)
    let prev := next - 1 in
    Some (if prev <? loopstart mpfan_next
          then loopstart mpfan_next + totloop mpfan_next - 1 else prev,
          next, mpfan_curr_index)
  else
    (* we need the next loop, which is also our vertex's loop *)
    let succ := next + 1 in
    let succ :=
      if succ >=? loopstart mpfan_next + totloop mpfan_next
      then loopstart mpfan_next else succ in
    Some (succ, succ, mpfan_curr_index).

(** The [while (true)] loop of [split_loop_nor_fan_do] over a state [A]:
    [body] is what a turn does with the current corner before the test that
    ends the walk; [fuel] bounds the number of turns ([None] when it runs
    out).  The turn ends the walk on a sharp edge, or back on the edge
    [edge_org] the walk started from. *)
Fixpoint fan_loop {A : Type} (fuel : nat)
    (body : Z -> Z -> Z -> A -> option A) (mv_pivot_index edge_org : Z)
    (mlfan_curr_index mlfan_vert_index mpfan_curr_index : Z)
    (e2lfan_curr : Z * Z) (a : A) : option A :=
  match fuel with
  | O => None
  | S fuel' =>
      edge_curr ← get (corner_edges m) mlfan_curr_index;
      a' ← body mlfan_curr_index mlfan_vert_index mpfan_curr_index a;
      if IS_EDGE_SHARP e2lfan_curr || (edge_curr =? edge_org) then Some a'
      else
        '(curr, vert, poly) ←
          loop_manifold_fan_around_vert_next e2lfan_curr mv_pivot_index
            mlfan_curr_index;
        edge_next ← get (corner_edges m) curr;
        e2l ← get edge_to_loops edge_next;
        fan_loop fuel' body mv_pivot_index edge_org curr vert poly e2l a'
  end.

(** The corners of the pivot vertex that the walk of a fan task visits, the
    last one first. *)
Definition fan_corners (fuel : nat) (ml_curr_index ml_prev_index mp_index : Z)
    (e2l_prev : Z * Z) : option (list Z) :=
  mv_pivot_index ← get (corner_verts m) ml_curr_index;
  edge_org ← get (corner_edges m) ml_curr_index;
  fan_loop fuel (fun _ vert _ acc => Some (vert :: acc)) mv_pivot_index edge_org
    ml_prev_index ml_curr_index mp_index e2l_prev [].

End Fan.

(* ===================================================================== *)
(** ** The loop-normal accumulator *)
(* ===================================================================== *)

(** What the tasks read and write besides the mesh: the loop normals, the
    custom normal codes (an empty span when there are none) and the array of
    spaces (null or not). *)
Record SplitState : Type := mkSplitState {
  loopnors : list float3;
  clnors_data : list short2;
  lnors_spacearr : option MLoopNorSpaceArray
}.

(** [LoopSplitTaskData]. [e2l_prev] is null for a 'single' task. *)
Record LoopSplitTaskData : Type := mkTask {
  lnor_space : option nat;
  ml_curr_index : Z;
  ml_prev_index : Z;
  e2l_prev : option (Z * Z);
  mp_index : Z
}.

(** The local variables of [split_loop_nor_fan_do] that change along the
    walk.  The two small stacks hold corner indices, for the pointers into
    [loopnors] and [clnors_data]. *)
Record FanAcc : Type := mkFanAcc {
  fa_vec_prev : float3;
  fa_vec_curr : float3;
  fa_lnor : float3;
  fa_clnors_avg : Z * Z;
  fa_clnor_ref : option Z;
  fa_clnors_count : Z;
  fa_clnors_invalid : bool;
  fa_normal : list Z;
  fa_clnors : list Z;
  fa_edge_vectors : list float3;
  fa_spacearr : option MLoopNorSpaceArray
}.

Section Accumulator.

Variables cosf sinf acosf : float -> float.
Variable m : Mesh.
Variable edge_to_loops : list (Z * Z).

(** The unit vector from the pivot vertex along an edge. *)
Definition edge_vector (mv_pivot_index : Z) (mv_pivot : float3) (edge_i : Z)
    : option float3 :=
  me ← get (medges m) edge_i;
  mv_2 ← get (positions m) (if v1 me =? mv_pivot_index then v2 me else v1 me);
  Some (fst (normalize_v3 (sub_v3_v3v3 mv_2 mv_pivot))).

(** One turn of the walk of [split_loop_nor_fan_do], up to the test that
    ends the walk. *)
Definition fan_do_body (st : SplitState) (sp : option nat)
    (mv_pivot_index : Z) (mv_pivot : float3) (edge_org : Z)
    (mlfan_curr_index mlfan_vert_index mpfan_curr_index : Z) (a : FanAcc)
    : option FanAcc :=
  edge_curr ← get (corner_edges m) mlfan_curr_index;
  vec_curr ← edge_vector mv_pivot_index mv_pivot edge_curr;
  (* angle between the two poly edges incident on this vertex *)
  let fac := saacos acosf (dot_v3v3 vec_curr (fa_vec_prev a)) in
  pnor ← get (polynors m) mpfan_curr_index;
  let lnor := madd_v3_v3fl (fa_lnor a) pnor fac in
  '(avg, ref, count, invalid, clnors) ←
    (if bool_decide (clnors_data st = []) then
       Some (fa_clnors_avg a, fa_clnor_ref a, fa_clnors_count a,
             fa_clnors_invalid a, fa_clnors a)
     else
       clnor ← get (clnors_data st) mlfan_vert_index;
       r ← (match fa_clnor_ref a with
            | Some r => get (clnors_data st) r
            | None => Some clnor
            end);
       let invalid :=
         if fa_clnors_count a =? 0 then fa_clnors_invalid a
         else fa_clnors_invalid a
              || (negb (r.1 =? clnor.1) || negb (r.2 =? clnor.2)) in
       let ref :=
         if fa_clnors_count a =? 0 then Some mlfan_vert_index
         else fa_clnor_ref a in
       Some ((fa_clnors_avg a).1 + clnor.1, (fa_clnors_avg a).2 + clnor.2,
             ref, fa_clnors_count a + 1, invalid,
             mlfan_vert_index :: fa_clnors a));
  (* a pointer to the loop normal of the corner is stored *)
  _ ← get (loopnors st) mlfan_vert_index;
  '(arr, edge_vectors) ←
    (match fa_spacearr a, sp with
     | Some arr, Some s =>
         arr' ← BKE_lnor_space_add_loop arr s mlfan_vert_index false;
         Some (Some arr',
               if negb (edge_curr =? edge_org)
               then vec_curr :: fa_edge_vectors a else fa_edge_vectors a)
     | Some arr, None => None
     | None, _ => Some (None, fa_edge_vectors a)
     end);
  Some (mkFanAcc vec_curr vec_curr lnor avg ref count invalid
          (mlfan_vert_index :: fa_normal a) clnors edge_vectors arr).

(** The writes of one value through the pointers of a small stack. *)
Definition put_all {A : Type} (l : list A) (idxs : list Z) (x : A)
    : option (list A) :=
  foldM (fun i l => put l i x) idxs l.

(** [split_loop_nor_fan_do]. *)
Definition split_loop_nor_fan_do (fuel : nat) (st : SplitState)
    (data : LoopSplitTaskData) : option SplitState :=
  e2l_prev ← e2l_prev data;
  mv_pivot_index ← get (corner_verts m) (ml_curr_index data);
  mv_pivot ← get (positions m) mv_pivot_index;
  edge_org ← get (corner_edges m) (ml_curr_index data);
  vec_org ← edge_vector mv_pivot_index mv_pivot edge_org;
  let acc0 :=
    mkFanAcc vec_org vec_org zero_v3 (0, 0) None 0 false [] []
      (match lnors_spacearr st with Some _ => [vec_org] | None => [] end)
      (lnors_spacearr st) in
  acc ← fan_loop m edge_to_loops fuel
          (fan_do_body st (lnor_space data) mv_pivot_index mv_pivot edge_org)
          mv_pivot_index edge_org (ml_prev_index data) (ml_curr_index data)
          (mp_index data) e2l_prev acc0;
  let '(lnor, lnor_len) := normalize_v3 (fa_lnor acc) in
  match fa_spacearr acc with
  | Some arr =>
      sp ← lnor_space data;
      mlfan_vert_index ← head (fa_normal acc);
      (* use vertex normal as fallback *)
      vn ← get (loopnors st) mlfan_vert_index;
      let lnor := if eqb lnor_len zero then vn else lnor in
      arr' ← update_space arr sp
               (fun s => BKE_lnor_space_define acosf s lnor vec_org
                           (fa_vec_curr acc) (Some (fa_edge_vectors acc)));
      if bool_decide (clnors_data st = []) then
        lnors' ← put_all (loopnors st) (fa_normal acc) lnor;
        Some (mkSplitState lnors' (clnors_data st) (Some arr'))
      else
        clnors' ←
          (if fa_clnors_invalid acc then
             (* fix/update all clnors of this fan with computed average *)
             put_all (clnors_data st) (fa_clnors acc)
               (Z.quot (fa_clnors_avg acc).1 (fa_clnors_count acc),
                Z.quot (fa_clnors_avg acc).2 (fa_clnors_count acc))
           else Some (clnors_data st));
        ref ← fa_clnor_ref acc;
        clnor_ref ← get clnors' ref;
        s ← spaces arr' !! sp;
        let lnor := BKE_lnor_space_custom_data_to_normal cosf sinf s clnor_ref in
        lnors' ← put_all (loopnors st) (fa_normal acc) lnor;
        Some (mkSplitState lnors' clnors' (Some arr'))
  | None =>
      (* in case we get a zero normal here, just use vertex normal already
         set *)
      if neqb lnor_len zero then
        lnors' ← put_all (loopnors st) (fa_normal acc) lnor;
        Some (mkSplitState lnors' (clnors_data st) None)
      else Some st
  end.

(** [split_loop_nor_single_do].  The vectors of the space are both taken
    from the edge of [ml_curr_index] ([ml_prev_index] is read from
    [data->ml_curr_index]). *)
Definition split_loop_nor_single_do (st : SplitState)
    (data : LoopSplitTaskData) : option SplitState :=
  pnor ← get (polynors m) (mp_index data);
  lnors' ← put (loopnors st) (ml_curr_index data) pnor;
  match lnors_spacearr st with
  | Some arr =>
      sp ← lnor_space data;
      mv_pivot_index ← get (corner_verts m) (ml_curr_index data);
      mv_pivot ← get (positions m) mv_pivot_index;
      edge_curr ← get (corner_edges m) (ml_curr_index data);
      vec_curr ← edge_vector mv_pivot_index mv_pivot edge_curr;
      let ml_prev_index := ml_curr_index data in
      edge_prev ← get (corner_edges m) ml_prev_index;
      vec_prev ← edge_vector mv_pivot_index mv_pivot edge_prev;
      arr1 ← update_space arr sp
               (fun s => BKE_lnor_space_define acosf s pnor vec_curr vec_prev None);
      (* we know there is only one loop in this space *)
      arr2 ← BKE_lnor_space_add_loop arr1 sp (ml_curr_index data) true;
      if bool_decide (clnors_data st = []) then
        Some (mkSplitState lnors' (clnors_data st) (Some arr2))
      else
        clnor ← get (clnors_data st) (ml_curr_index data);
        s ← spaces arr2 !! sp;
        lnors'' ← put lnors' (ml_curr_index data)
                    (BKE_lnor_space_custom_data_to_normal cosf sinf s clnor);
        Some (mkSplitState lnors'' (clnors_data st) (Some arr2))
  | None => Some (mkSplitState lnors' (clnors_data st) None)
  end.

(** [loop_split_worker_do]. *)
Definition loop_split_worker_do (fuel : nat) (st : SplitState)
    (data : LoopSplitTaskData) : option SplitState :=
  match e2l_prev data with
  | Some _ => split_loop_nor_fan_do fuel st data
  | None => split_loop_nor_single_do st data
  end.

End Accumulator.

(* ===================================================================== *)
(** ** The loop-split generator *)
(* ===================================================================== *)

Definition LOOP_SPLIT_TASK_BLOCK_SIZE : Z := 1024.

(** A task as [MEM_calloc_arrayN] or [memset] leaves it. *)
Definition task_calloc : LoopSplitTaskData := mkTask None 0 0 None 0.

(** The state of [loop_split_generator]: what the tasks work on, the
    corners to skip, and with a task pool the buffer being filled
    ([data_buff], [data_idx]) and the buffers pushed to the pool. *)
Record GenState : Type := mkGenState {
  gs_split : SplitState;
  gs_skip_loops : list bool;
  gs_data_buff : list LoopSplitTaskData;
  gs_data_idx : Z;
  gs_pushed : list (list LoopSplitTaskData)
}.

Section Generator.

Variables cosf sinf acosf : float -> float.
Variable m : Mesh.
Variable edge_to_loops : list (Z * Z).
Variable fuel : nat.

(** The [while (true)] loop of
    [loop_split_generator_check_cyclic_smooth_fan]. *)
Fixpoint cyclic_loop (n : nat) (mv_pivot_index ml_curr_index : Z)
    (mlfan_curr_index : Z) (e2lfan_curr : Z * Z) (skip_loops : list bool)
    : option (bool * list bool) :=
  match n with
  | O => None
  | S n' =>
      '(curr, vert, _) ←
        loop_manifold_fan_around_vert_next m e2lfan_curr mv_pivot_index
          mlfan_curr_index;
      edge ← get (corner_edges m) curr;
      e2l ← get edge_to_loops edge;
      if IS_EDGE_SHARP e2l then
        (* sharp loop/edge, so not a cyclic smooth fan *)
        Some (false, skip_loops)
      else
        skipped ← get skip_loops vert;
        if skipped : bool then
          (* back at the start: a whole cyclic smooth fan; otherwise the
             loop was already checked in some previous looping *)
          Some (vert =? ml_curr_index, skip_loops)
        else
          skip' ← put skip_loops vert true;
          cyclic_loop n' mv_pivot_index ml_curr_index curr e2l skip'
  end.

(** [loop_split_generator_check_cyclic_smooth_fan]: the answer and the new
    [skip_loops]. *)
Definition loop_split_generator_check_cyclic_smooth_fan (e2l_prev : Z * Z)
    (skip_loops : list bool) (ml_curr_index ml_prev_index : Z)
    : option (bool * list bool) :=
  mv_pivot_index ← get (corner_verts m) ml_curr_index;
  if IS_EDGE_SHARP e2l_prev then Some (false, skip_loops)
  else
    skip' ← put skip_loops ml_curr_index true;
    cyclic_loop fuel mv_pivot_index ml_curr_index ml_prev_index e2l_prev skip'.

(** The test of the generator for a corner: is a task generated for it? *)
Definition generates_task (vis : Visit) (skip_loops : list bool)
    : option (bool * list bool) :=
  edge_curr ← get (corner_edges m) (vis_corner vis);
  e2l_curr ← get edge_to_loops edge_curr;
  edge_prev ← get (corner_edges m) (vis_prev vis);
  e2l_prev ← get edge_to_loops edge_prev;
  if IS_EDGE_SHARP e2l_curr then Some (true, skip_loops)
  else
    skipped ← get skip_loops (vis_corner vis);
    if skipped : bool then Some (false, skip_loops)
    else
      loop_split_generator_check_cyclic_smooth_fan e2l_prev skip_loops
        (vis_corner vis) (vis_prev vis).

(** The fields the generator writes into the task [data]. *)
Definition fill_task (data : LoopSplitTaskData) (vis : Visit)
    (e2l_c e2l_p : Z * Z) (sp : option nat) : LoopSplitTaskData :=
  let space := match sp with Some _ => sp | None => lnor_space data end in
  if IS_EDGE_SHARP e2l_c && IS_EDGE_SHARP e2l_p then
    mkTask space (vis_corner vis) (ml_prev_index data) (e2l_prev data)
           (vis_poly_index vis)
  else
    (* also tag as 'fan' task *)
    mkTask space (vis_corner vis) (vis_prev vis) (Some e2l_p)
           (vis_poly_index vis).

(** The body of the corner loop of [loop_split_generator], with a task pool
    ([pool = true]) or without. *)
Definition generator_corner (pool : bool) (vis : Visit) (gs : GenState)
    : option GenState :=
  '(go, skip') ← generates_task vis (gs_skip_loops gs);
  if negb go then
    Some (mkGenState (gs_split gs) skip' (gs_data_buff gs) (gs_data_idx gs)
            (gs_pushed gs))
  else
    edge_curr ← get (corner_edges m) (vis_corner vis);
    e2l_c ← get edge_to_loops edge_curr;
    edge_prev ← get (corner_edges m) (vis_prev vis);
    e2l_p ← get edge_to_loops edge_prev;
    let '(arr, sp) :=
      match lnors_spacearr (gs_split gs) with
      | Some arr => let '(arr', sp) := BKE_lnor_space_create arr in
                    (Some arr', Some sp)
      | None => (None, None)
      end in
    let split :=
      mkSplitState (loopnors (gs_split gs)) (clnors_data (gs_split gs)) arr in
    if pool then
      let buff :=
        if gs_data_idx gs =? 0
        then replicate (Z.to_nat LOOP_SPLIT_TASK_BLOCK_SIZE) task_calloc
        else gs_data_buff gs in
      (* used to tag the end of the buffer *)
      let buff :=
        (fun d => mkTask (lnor_space d) (-1) (ml_prev_index d) (e2l_prev d)
                    (mp_index d)) <$> buff in
      data ← get buff (gs_data_idx gs);
      buff' ← put buff (gs_data_idx gs)
                (fill_task data vis e2l_c e2l_p sp);
      let data_idx := gs_data_idx gs + 1 in
      if data_idx =? LOOP_SPLIT_TASK_BLOCK_SIZE then
        Some (mkGenState split skip' buff' 0 (gs_pushed gs ++ [buff']))
      else
        Some (mkGenState split skip' buff' data_idx (gs_pushed gs))
    else
      split' ← loop_split_worker_do cosf sinf acosf m edge_to_loops fuel split
                 (fill_task task_calloc vis e2l_c e2l_p sp);
      Some (mkGenState split' skip' (gs_data_buff gs) (gs_data_idx gs)
              (gs_pushed gs)).

(** [loop_split_generator]: the state of the tasks' data after the loops
    and the buffers pushed to the pool. *)
Definition loop_split_generator (pool : bool) (split : SplitState)
    : option (SplitState * list (list LoopSplitTaskData)) :=
  gs ← foldM (generator_corner pool) (corner_visits (polys m))
        (mkGenState split (replicate (length (corner_verts m)) false) [] 0 []);
  (* last block of data *)
  Some (gs_split gs,
        if pool && negb (gs_data_idx gs =? 0)
        then gs_pushed gs ++ [gs_data_buff gs] else gs_pushed gs).

(** The tasks [loop_split_worker] runs for a buffer: those before the first
    one tagged with a -1 [ml_curr_index]. *)
Fixpoint worker_tasks (block : list LoopSplitTaskData)
    : list LoopSplitTaskData :=
  match block with
  | [] => []
  | data :: rest =>
      if ml_curr_index data =? -1 then [] else data :: worker_tasks rest
  end.

(** [loop_split_worker] on a buffer. *)
Definition loop_split_worker (block : list LoopSplitTaskData)
    (split : SplitState) : option SplitState :=
  foldM (fun data st =>
           loop_split_worker_do cosf sinf acosf m edge_to_loops fuel st data)
        (worker_tasks (take (Z.to_nat LOOP_SPLIT_TASK_BLOCK_SIZE) block)) split.

End Generator.

(* ===================================================================== *)
(** ** [BKE_mesh_normals_loop_split] *)
(* ===================================================================== *)

Section LoopSplit.

Variables cosf sinf acosf : float -> float.
Variable fuel : nat.

(** Without split normals: the vertex normal, or the polygon normal for a
    flat face. *)
Definition fill_lnors_simple (m : Mesh) (vis : Visit) (lnors : list float3)
    : option (list float3) :=
  if negb (poly_is_smooth (vis_poly vis)) then
    pn ← get (polynors m) (vis_poly_index vis);
    put lnors (vis_corner vis) pn
  else
    vi ← get (corner_verts m) (vis_corner vis);
    vn ← get (vert_normals m) vi;
    put lnors (vis_corner vis) vn.

(** [BKE_mesh_normals_loop_split].  [loop_to_poly_map] is the optional map
    of the caller, [want_spacearr] tells whether the caller passes an array
    of spaces to fill, [clnors] is the optional array of custom normal
    codes.  The buffers pushed to the task pool are run one after the other,
    in the order of the pushes.  The result: the loop normals, the codes and
    the spaces. *)
Definition BKE_mesh_normals_loop_split (m : Mesh) (r_loopnors : list float3)
    (use_split_normals : bool) (split_angle : float)
    (loop_to_poly_map : option (list Z)) (want_spacearr : bool)
    (clnors : option (list short2))
    : option (list float3 * list short2 * option MLoopNorSpaceArray) :=
  let numLoops := length (corner_verts m) in
  if negb use_split_normals then
    lnors ← foldM (fill_lnors_simple m) (corner_visits (polys m)) r_loopnors;
    Some (lnors, default [] clnors, None)
  else
    let edge_to_loops := replicate (length (medges m)) (0, 0) in
    let l2p :=
      match loop_to_poly_map with
      | Some map => map
      | None => build_loop_to_poly_map (polys m) numLoops
      end in
    let m' :=
      mkMesh (positions m) (medges m) (corner_verts m) (corner_edges m)
             (polys m) l2p (polynors m) (vert_normals m) in
    (* when using custom loop normals, disable the angle feature *)
    let check_angle := ltb split_angle M_PI && bool_decide (clnors = None) in
    let arr :=
      if want_spacearr || negb (bool_decide (clnors = None))
      then Some (BKE_lnor_spacearr_init numLoops) else None in
    (* this first loop checks which edges are actually smooth *)
    '(e2l, lnors, _) ←
      mesh_edges_sharp_tag cosf m' check_angle split_angle false edge_to_loops
        r_loopnors;
    let split := mkSplitState lnors (default [] clnors) arr in
    if Z.of_nat numLoops <? LOOP_SPLIT_TASK_BLOCK_SIZE * 8 then
      (* not enough loops to be worth the whole threading overhead *)
      '(split', _) ←
        loop_split_generator cosf sinf acosf m' e2l fuel false split;
      Some (loopnors split', clnors_data split', lnors_spacearr split')
    else
      '(split', blocks) ←
        loop_split_generator cosf sinf acosf m' e2l fuel true split;
      split'' ← foldM (loop_split_worker cosf sinf acosf m' e2l fuel) blocks
                  split';
      Some (loopnors split'', clnors_data split'', lnors_spacearr split'').

End LoopSplit.

(* ===================================================================== *)
(** ** One normal per fan *)
(* ===================================================================== *)

Lemma put_all_spec {A : Type} (idxs : list Z) (l l' : list A) (x : A) :
  put_all l idxs x = Some l' ->
  length l' = length l
  /\ (forall i, i ∈ idxs -> get l' i = Some x)
  /\ (forall i, i ∉ idxs -> get l' i = get l i).
Proof.
  unfold put_all. revert l. induction idxs as [|j idxs IH]; intros l H.
  - injection H as <-. split; [reflexivity|]. split; [|reflexivity].
    intros i Hi. inversion Hi.
  - cbn [foldM] in H. bind_case H as l1 Hl1.
    destruct (IH l1 H) as (Hlen & Hin & Hout).
    split; [rewrite Hlen; eapply put_length, Hl1|]. split.
    + intros i Hi. destruct (decide (i ∈ idxs)) as [Hi'|Hi']; [apply Hin, Hi'|].
      rewrite (Hout i Hi'). apply elem_of_cons in Hi as [-> | Hi]; [|contradiction].
      eapply put_lookup_eq, Hl1.
    + intros i Hi. apply not_elem_of_cons in Hi as [Hij Hi].
      rewrite (Hout i Hi). eapply put_get_ne; [exact Hl1 | congruence].
Qed.

Section FanLoopRel.

Variable m : Mesh.
Variable edge_to_loops : list (Z * Z).

(** Two bodies that keep a relation between their states give related
    results: the walk does not depend on what the turns compute. *)
Lemma fan_loop_rel {A B : Type} (R : A -> B -> Prop)
    (body1 : Z -> Z -> Z -> A -> option A)
    (body2 : Z -> Z -> Z -> B -> option B) :
  (forall c v p a b a', R a b -> body1 c v p a = Some a' ->
     exists b', body2 c v p b = Some b' /\ R a' b') ->
  forall fuel pivot org c v p e2l a b a',
    R a b ->
    fan_loop m edge_to_loops fuel body1 pivot org c v p e2l a = Some a' ->
    exists b',
      fan_loop m edge_to_loops fuel body2 pivot org c v p e2l b = Some b'
      /\ R a' b'.
Proof.
  intros Hbody fuel pivot org. induction fuel as [|fuel IH];
    intros c v p e2l a b a' HR H; [discriminate|].
  cbn [fan_loop] in *. bind_case H as edge_curr He. rewrite He.
  cbn [mbind option_bind]. bind_case H as a1 Ha1.
  destruct (Hbody _ _ _ _ _ _ HR Ha1) as (b1 & Hb1 & HR1). rewrite Hb1.
  cbn [mbind option_bind].
  destruct (IS_EDGE_SHARP e2l || (edge_curr =? org)).
  - injection H as <-. eauto.
  - bind_case H as nxt Hnxt. rewrite Hnxt. cbn [mbind option_bind].
    destruct nxt as [[c' v'] p']. bind_case H as e' He'. rewrite He'.
    cbn [mbind option_bind]. bind_case H as e2l' He2l'. rewrite He2l'.
    cbn [mbind option_bind]. eapply IH; eassumption.
Qed.

End FanLoopRel.



(** The edge-to-loops table of the fan, as [mesh_edges_sharp_tag] leaves it
    without angle check: the spokes are smooth, the rim edges have one
    corner each. *)
Definition hex_e2l : list (Z * Z) :=
  [(0, 17); (2, 3); (5, 6); (8, 9); (11, 12); (14, 15);
   (1, INDEX_UNSET); (4, INDEX_UNSET); (7, INDEX_UNSET); (10, INDEX_UNSET);
   (13, INDEX_UNSET); (16, INDEX_UNSET)].

Lemma hex_e2l_tagged :
  mesh_edges_sharp_tag cos_half hex_mesh false M_PI false
    (replicate 12 (0, 0)) (replicate 18 zero_v3)
  = Some (hex_e2l, replicate 18 (Float3 zero zero one), hex_edges).
Proof. vm_compute. reflexivity. Qed.

(** A stand-in for the C library's arc cosine in the examples. *)
Definition acos_line (a : float) : float := sub half_pi a.




(* ===================================================================== *)
(** ** Custom normals: the encoding pass of
       [mesh_normals_loop_custom_set] *)
(* ===================================================================== *)

Section EncodePass.

Variable acosf : float -> float.
Variable arr : MLoopNorSpaceArray.
Variable corner_verts_ : list Z.
Variable use_vertices : bool.
Variable r_custom_loopnors : list float3.

(** The custom normal given for a corner: per vertex or per corner. *)
Definition custom_normal_of (lidx : Z) : option float3 :=
  nidx ← (if use_vertices then get corner_verts_ lidx else Some lidx);
  get r_custom_loopnors nidx.

(** One turn of the [while (loops)] loop over the corners of a space: the
    state is the count, the sum, the small stack of the code slots and
    [done_loops]. *)
Definition average_step (clnors : list short2) (lidx : Z)
    (st : Z * float3 * list Z * list bool)
    : option (Z * float3 * list Z * list bool) :=
  let '(avg_nor_count, avg_nor, stack, done_loops) := st in
  nor ← custom_normal_of lidx;
  _ ← get clnors lidx;
  done' ← put done_loops lidx false;
  Some (avg_nor_count + 1, add_v3_v3 avg_nor nor, lidx :: stack, done').

(** The body of the last loop of [mesh_normals_loop_custom_set], for the
    corner [i]; the state is [done_loops] and [r_clnors_data]. *)
Definition encode_pass_corner (i : Z) (st : list bool * list short2)
    : option (list bool * list short2) :=
  let '(done_loops, clnors) := st in
  space ← get (lspacearr arr) i;
  match space with
  | None =>
      done' ← put done_loops i false;
      Some (done', clnors)
  | Some sp =>
      done ← get done_loops i;
      if done : bool then
        s ← spaces arr !! sp;
        if space_is_single s then
          nor ← custom_normal_of i;
          clnors' ← put clnors i
                      (BKE_lnor_space_custom_normal_to_data acosf s nor);
          done' ← put done_loops i false;
          Some (done', clnors')
        else
          (* accumulate and average all custom normals in current smooth
             fan, to avoid getting different clnors data *)
          '(avg_nor_count, avg_nor, stack, done') ←
            foldM (average_step clnors) (loops s) (0, zero_v3, [], done_loops);
          let avg_nor := mul_v3_v3fl avg_nor (div one (of_Z avg_nor_count)) in
          let clnor_data_tmp :=
            BKE_lnor_space_custom_normal_to_data acosf s avg_nor in
          clnors' ← put_all clnors stack clnor_data_tmp;
          Some (done', clnors')
      else Some (done_loops, clnors)
  end.

(** The last loop of [mesh_normals_loop_custom_set] over the [numLoops]
    corners. *)
Definition encode_pass (numLoops : nat) (done_loops : list bool)
    (clnors : list short2) : option (list bool * list short2) :=
  for_loop numLoops 0 encode_pass_corner (done_loops, clnors).

(** The sum of the custom normals of the corners [ls], added to [acc] in the
    order of the list. *)
Fixpoint custom_normal_sum (ls : list Z) (acc : float3) : option float3 :=
  match ls with
  | [] => Some acc
  | lidx :: rest =>
      nor ← custom_normal_of lidx;
      custom_normal_sum rest (add_v3_v3 acc nor)
  end.

(** The code of a space shared by several corners: the encoding of the
    average of their custom normals. *)
Definition shared_code (s : MLoopNorSpace) : option short2 :=
  sum ← custom_normal_sum (loops s) zero_v3;
  Some (BKE_lnor_space_custom_normal_to_data acosf s
          (mul_v3_v3fl sum (div one (of_Z (Z.of_nat (length (loops s))))))).

End EncodePass.

(** The array of spaces as [BKE_mesh_normals_loop_split] builds it: the
    corners that point to a space are those of its list. *)
Definition space_consistent (arr : MLoopNorSpaceArray) : Prop :=
  (forall i sp, get (lspacearr arr) i = Some (Some sp) ->
     exists s, spaces arr !! sp = Some s /\ i ∈ loops s)
  /\ (forall sp s l, spaces arr !! sp = Some s -> l ∈ loops s ->
        get (lspacearr arr) l = Some (Some sp)).

Section EncodePassProof.

Variable acosf : float -> float.
Variable arr : MLoopNorSpaceArray.
Variable corner_verts_ : list Z.
Variable use_vertices : bool.
Variable r_custom_loopnors : list float3.

Abbreviation code_of := (shared_code acosf corner_verts_ use_vertices r_custom_loopnors).
Abbreviation sum_of := (custom_normal_sum corner_verts_ use_vertices r_custom_loopnors).
Abbreviation pass_corner :=
  (encode_pass_corner acosf arr corner_verts_ use_vertices r_custom_loopnors).

Lemma average_walk_spec (clnors : list short2) (ls : list Z) (c0 : Z)
    (a0 : float3) (stk0 : list Z) (d0 : list bool) (c : Z) (a : float3)
    (stk : list Z) (d : list bool) :
  foldM (average_step corner_verts_ use_vertices r_custom_loopnors clnors) ls
    (c0, a0, stk0, d0) = Some (c, a, stk, d) ->
  c = c0 + Z.of_nat (length ls)
  /\ sum_of ls a0 = Some a
  /\ (forall l, l ∈ stk <-> l ∈ ls \/ l ∈ stk0)
  /\ (forall l, l ∈ ls -> get d l = Some false)
  /\ (forall l, l ∉ ls -> get d l = get d0 l).
Proof.
  revert c0 a0 stk0 d0. induction ls as [|x ls IH]; intros c0 a0 stk0 d0 H.
  - injection H as <- <- <- <-. repeat split; try tauto.
    + cbn. lia.
    + intros [Hl | Hl]; [inversion Hl | exact Hl].
    + intros l Hl. inversion Hl.
  - cbn [foldM] in H. bind_case H as st1 Hst1.
    unfold average_step in Hst1. bind_case Hst1 as nor Hnor.
    bind_case Hst1 as slot Hslot. bind_case Hst1 as d1 Hd1.
    injection Hst1 as <-.
    destruct (IH _ _ _ _ H) as (Hc & Hsum & Hstk & Hin & Hout).
    repeat split.
    + rewrite Hc. cbn [length]. lia.
    + cbn [custom_normal_sum]. rewrite Hnor. exact Hsum.
    + intros Hl. apply Hstk in Hl as [Hl | Hl]; [left; right; exact Hl|].
      apply elem_of_cons in Hl as [-> | Hl]; [left; left | right; exact Hl].
    + intros [Hl | Hl]; apply Hstk.
      * apply elem_of_cons in Hl as [-> | Hl]; [right; left | left; exact Hl].
      * right. right. exact Hl.
    + intros l Hl. destruct (decide (l ∈ ls)) as [Hl' | Hl']; [apply Hin, Hl'|].
      rewrite (Hout l Hl'). apply elem_of_cons in Hl as [-> | Hl]; [|contradiction].
      eapply put_lookup_eq, Hd1.
    + intros l Hl. apply not_elem_of_cons in Hl as [Hne Hl].
      rewrite (Hout l Hl). eapply put_get_ne; [exact Hd1 | congruence].
Qed.

(** The state of the pass before the corner [k]: a space shared by several
    corners is either untouched, with all its corners still to come, or
    done, with the one code in the slots of all its corners. *)
Definition pass_inv (k : Z) (st : list bool * list short2) : Prop :=
  forall sp s, spaces arr !! sp = Some s -> space_is_single s = false ->
    (forall l, l ∈ loops s -> k <= l /\ get st.1 l = Some true)
    \/ (exists code, code_of s = Some code
          /\ forall l, l ∈ loops s ->
               get st.1 l = Some false /\ get st.2 l = Some code).

Lemma pass_corner_inv (k : Z) (st st' : list bool * list short2) :
  space_consistent arr ->
  pass_inv k st -> pass_corner k st = Some st' -> pass_inv (k + 1) st'.
Proof.
  intros [H1 H2] Hinv Hstep. destruct st as [done clnors].
  unfold encode_pass_corner in Hstep. bind_case Hstep as space Hspace.
  (* what a step that leaves the corners of [s] alone preserves *)
  assert (Hkeep : forall sp s d' c',
            spaces arr !! sp = Some s -> space_is_single s = false ->
            k ∉ loops s ->
            (forall l, l ∈ loops s -> get d' l = get done l) ->
            (forall l, l ∈ loops s -> get c' l = get clnors l) ->
            (forall l, l ∈ loops s -> k + 1 <= l /\ get (d', c').1 l = Some true)
            \/ (exists code, code_of s = Some code
                  /\ forall l, l ∈ loops s ->
                       get (d', c').1 l = Some false
                       /\ get (d', c').2 l = Some code)).
  { intros sp s d' c' Hs Hns Hk Hd Hc.
    destruct (Hinv sp s Hs Hns) as [Hun | (code & Hcode & Hdone)].
    - left. intros l Hl. destruct (Hun l Hl) as [Hle Ht]. cbn [fst].
      rewrite (Hd l Hl). split; [|exact Ht].
      assert (l <> k) by (intros ->; contradiction). lia.
    - right. exists code. split; [exact Hcode|]. intros l Hl. cbn [fst snd].
      rewrite (Hd l Hl), (Hc l Hl). apply Hdone, Hl. }
  destruct space as [spk|].
  - bind_case Hstep as dk Hdk. destruct dk.
    + bind_case Hstep as sk Hsk. destruct (space_is_single sk) eqn:Hsingle.
      * (* a single-corner space *)
        bind_case Hstep as nor Hnor. bind_case Hstep as c' Hc'.
        bind_case Hstep as d' Hd'. injection Hstep as <-.
        intros sp s Hs Hns.
        assert (Hk : k ∉ loops s).
        { intros Hk. pose proof (H2 sp s k Hs Hk) as E. rewrite Hspace in E.
          injection E as ->. congruence. }
        apply (Hkeep sp s d' c' Hs Hns Hk).
        -- intros l Hl. eapply put_get_ne; [exact Hd' | congruence].
        -- intros l Hl. eapply put_get_ne; [exact Hc' | congruence].
      * (* a space shared by several corners *)
        bind_case Hstep as w Hw. destruct w as [[[cnt avg] stk] d'].
        bind_case Hstep as c' Hc'. injection Hstep as <-.
        destruct (average_walk_spec _ _ _ _ _ _ _ _ _ _ Hw)
          as (Hcnt & Hsum & Hstk & Hin & Hout).
        rewrite Z.add_0_l in Hcnt. subst cnt.
        destruct (put_all_spec _ _ _ _ Hc') as (_ & Hcin & Hcout).
        intros sp s Hs Hns. destruct (decide (sp = spk)) as [-> | Hne].
        -- assert (s = sk) as -> by congruence.
           right. eexists. split.
           ++ unfold shared_code. rewrite Hsum. reflexivity.
           ++ intros l Hl. cbn [fst snd]. split; [apply Hin, Hl|].
              apply Hcin, Hstk. left. exact Hl.
        -- assert (Hdisj : forall l, l ∈ loops s -> l ∉ loops sk).
           { intros l Hl Hl'. pose proof (H2 sp s l Hs Hl) as E.
             rewrite (H2 spk sk l Hsk Hl') in E. congruence. }
           assert (Hk : k ∉ loops s).
           { intros Hk. pose proof (H2 sp s k Hs Hk) as E. rewrite Hspace in E.
             congruence. }
           apply (Hkeep sp s d' c' Hs Hns Hk).
           ++ intros l Hl. apply Hout, Hdisj, Hl.
           ++ intros l Hl. apply Hcout. intros Hl'. apply Hstk in Hl' as [Hl'|Hl'].
              ** exact (Hdisj l Hl Hl').
              ** inversion Hl'.
    + (* the space of the corner is done already *)
      injection Hstep as <-. intros sp s Hs Hns.
      destruct (decide (k ∈ loops s)) as [Hk | Hk].
      * destruct (Hinv sp s Hs Hns) as [Hun | Hdone]; [|right; exact Hdone].
        destruct (Hun k Hk) as [_ Ht]. cbn [fst] in Ht. congruence.
      * apply (Hkeep sp s done clnors Hs Hns Hk); reflexivity.
  - (* no space for the corner *)
    bind_case Hstep as d' Hd'. injection Hstep as <-. intros sp s Hs Hns.
    assert (Hk : k ∉ loops s).
    { intros Hk. pose proof (H2 sp s k Hs Hk) as E. rewrite Hspace in E.
      discriminate. }
    apply (Hkeep sp s d' clnors Hs Hns Hk); [|reflexivity].
    intros l Hl. eapply put_get_ne; [exact Hd' | congruence].
Qed.

Lemma pass_loop_inv (n : nat) (k : Z) (st st' : list bool * list short2) :
  space_consistent arr ->
  pass_inv k st -> for_loop n k pass_corner st = Some st' ->
  pass_inv (k + Z.of_nat n) st'.
Proof.
  intros Hc. revert k st. induction n as [|n IH]; intros k st Hinv H.
  - injection H as <-. rewrite Z.add_0_r. exact Hinv.
  - cbn [for_loop] in H. bind_case H as st1 Hst1.
    replace (k + Z.of_nat (S n)) with (k + 1 + Z.of_nat n) by lia.
    apply (IH (k + 1) st1); [|exact H].
    exact (pass_corner_inv k st st1 Hc Hinv Hst1).
Qed.

End EncodePassProof.

(** C8: in the encoding pass, the corners that share one space (a space that
    is not a single-corner space) all get one and the same code in their
    slots of [r_clnors_data]: the encoding, in that space, of the average of
    their custom normals.  [done_loops] is set for every corner with a
    space, as the previous passes leave it. *)
Theorem custom_normal_broadcast (acosf : float -> float)
    (arr : MLoopNorSpaceArray) (corner_verts_ : list Z) (use_vertices : bool)
    (r_custom_loopnors : list float3) (done_loops done' : list bool)
    (clnors clnors' : list short2) (sp : nat) (s : MLoopNorSpace) :
  encode_pass acosf arr corner_verts_ use_vertices r_custom_loopnors
    (length (lspacearr arr)) done_loops clnors = Some (done', clnors') ->
  space_consistent arr ->
  (forall i sp', get (lspacearr arr) i = Some (Some sp') ->
     get done_loops i = Some true) ->
  spaces arr !! sp = Some s -> space_is_single s = false ->
  forall l, l ∈ loops s ->
    exists sum,
      custom_normal_sum corner_verts_ use_vertices r_custom_loopnors (loops s)
        zero_v3 = Some sum
      /\ get clnors' l
         = Some (BKE_lnor_space_custom_normal_to_data acosf s
                   (mul_v3_v3fl sum
                      (div one (of_Z (Z.of_nat (length (loops s))))))).
Proof.
  intros Hpass Hcons Hdone Hs Hns l Hl. unfold encode_pass in Hpass.
  assert (Hinit : pass_inv acosf arr corner_verts_ use_vertices
                    r_custom_loopnors 0 (done_loops, clnors)).
  { intros sp' s' Hs' _. left. intros l' Hl'. destruct Hcons as [_ H2].
    pose proof (H2 sp' s' l' Hs' Hl') as E. split; [|eapply Hdone, E].
    apply get_Some in E as [E _]. exact E. }
  pose proof (pass_loop_inv acosf arr corner_verts_ use_vertices
                r_custom_loopnors _ 0 _ _ Hcons Hinit Hpass) as Hfin.
  destruct (Hfin sp s Hs Hns) as [Hun | (code & Hcode & Hall)].
  - destruct (Hun l Hl) as [Hle _]. destruct Hcons as [_ H2].
    pose proof (H2 sp s l Hs Hl) as E. apply get_Some in E as [_ E].
    apply lookup_lt_Some in E. lia.
  - unfold shared_code in Hcode. bind_case Hcode as sum Hsum.
    injection Hcode as <-. exists sum. split; [exact Hsum|]. apply Hall, Hl.
Qed.

(** A check of [space_consistent] that computes. *)
Definition space_consistentb (arr : MLoopNorSpaceArray) : bool :=
  forallb
    (fun i =>
       match lspacearr arr !! i with
       | Some (Some sp) =>
           match spaces arr !! sp with
           | Some s => bool_decide (Z.of_nat i ∈ loops s)
           | None => false
           end
       | _ => true
       end) (seq 0 (length (lspacearr arr)))
  && forallb
       (fun sp =>
          match spaces arr !! sp with
          | Some s =>
              forallb
                (fun l => bool_decide (get (lspacearr arr) l = Some (Some sp)))
                (loops s)
          | None => true
          end) (seq 0 (length (spaces arr))).

Lemma space_consistentb_sound (arr : MLoopNorSpaceArray) :
  space_consistentb arr = true -> space_consistent arr.
Proof.
  unfold space_consistentb. intros H. apply andb_true_iff in H as [Ha Hb].
  rewrite forallb_forall in Ha, Hb. split.
  - intros i sp Hi. apply get_Some in Hi as [Hpos Hi].
    assert (Hin : In (Z.to_nat i) (seq 0 (length (lspacearr arr)))).
    { apply in_seq. apply lookup_lt_Some in Hi. lia. }
    specialize (Ha (Z.to_nat i) Hin). rewrite Hi in Ha.
    destruct (spaces arr !! sp) as [s|] eqn:Hs; [|discriminate].
    exists s. split; [reflexivity|].
    rewrite Z2Nat.id in Ha by exact Hpos.
    exact (bool_decide_eq_true_1 _ Ha).
  - intros sp s l Hs Hl. specialize (Hb sp). rewrite Hs in Hb.
    assert (Hin : In sp (seq 0 (length (spaces arr)))).
    { apply in_seq. apply lookup_lt_Some in Hs. lia. }
    specialize (Hb Hin). rewrite forallb_forall in Hb.
    apply list_elem_of_In in Hl.
    exact (bool_decide_eq_true_1 _ (Hb l Hl)).
Qed.

(** The spaces of the fan, as [BKE_mesh_normals_loop_split] builds them, and
    custom normals for its corners: one direction for the corners of the
    vertex 0, the polygon normals elsewhere, but for a different one at the
    corner 3. *)
Definition hex_spacearr : option MLoopNorSpaceArray :=
  r ← BKE_mesh_normals_loop_split cos_half cos_half acos_line 18 hex_mesh
        (replicate 18 zero_v3) true M_PI None true None;
  r.2.

Definition hex_custom_normals : list float3 :=
  <[3%nat := point 1 0 0]> (replicate 18 (point 0 0 1)).

(** The six corners of the vertex 0 share the space 0 and end with one
    code. *)
Lemma custom_normal_broadcast_witness :
  exists arr done' clnors' code,
    hex_spacearr = Some arr
    /\ (loops <$> spaces arr !! 0%nat) = Some [15; 12; 9; 6; 3; 0]
    /\ encode_pass acos_line arr hex_corner_verts false hex_custom_normals 18
         (replicate 18 true) (replicate 18 (0, 0)) = Some (done', clnors')
    /\ forall l, l ∈ [15; 12; 9; 6; 3; 0] -> get clnors' l = Some code.
Proof.
  destruct hex_spacearr as [arr|] eqn:Harr; [|vm_compute in Harr; discriminate].
  assert (Hlen : length (lspacearr arr) = 18%nat).
  { vm_compute in Harr. injection Harr as <-. reflexivity. }
  destruct (spaces arr !! 0%nat) as [s|] eqn:Hs;
    [|vm_compute in Harr; injection Harr as <-; discriminate].
  assert (Hloops : loops s = [15; 12; 9; 6; 3; 0]).
  { vm_compute in Harr. injection Harr as <-. injection Hs as <-. reflexivity. }
  assert (Hcons : space_consistent arr).
  { apply space_consistentb_sound. vm_compute in Harr. injection Harr as <-.
    vm_compute. reflexivity. }
  destruct (encode_pass acos_line arr hex_corner_verts false hex_custom_normals
              (length (lspacearr arr)) (replicate 18 true) (replicate 18 (0, 0)))
    as [[done' clnors']|] eqn:Hpass.
  2:{ vm_compute in Harr. injection Harr as <-. vm_compute in Hpass.
      discriminate. }
  pose proof (custom_normal_broadcast acos_line arr hex_corner_verts false
                hex_custom_normals (replicate 18 true) done'
                (replicate 18 (0, 0)) clnors' 0 s Hpass Hcons) as T.
  destruct (T) with (l := 0) as (sum & Hsum & _); try assumption.
  { intros i sp' Hi. apply get_Some in Hi as [Hpos Hi].
    apply lookup_lt_Some in Hi. apply get_Some. split; [exact Hpos|].
    apply lookup_replicate_2. lia. }
  { vm_compute in Harr. injection Harr as <-. injection Hs as <-. reflexivity. }
  { rewrite Hloops. do 5 right. left. }
  exists arr, done', clnors'. eexists. split; [reflexivity|].
  split; [rewrite Hs; cbn -[loops]; rewrite Hloops; reflexivity|].
  rewrite Hlen in Hpass. split; [exact Hpass|].
  intros l Hl. rewrite <- Hloops in Hl.
  destruct (T) with (l := l) as (sum' & Hsum' & Hcode); try assumption.
  { intros i sp' Hi. apply get_Some in Hi as [Hpos Hi].
    apply lookup_lt_Some in Hi. apply get_Some. split; [exact Hpos|].
    apply lookup_replicate_2. lia. }
  { vm_compute in Harr. injection Harr as <-. injection Hs as <-. reflexivity. }
  rewrite Hsum in Hsum'. injection Hsum' as <-. exact Hcode.
Defined.

(* ===================================================================== *)
(** ** The task buffers of the pool *)
(* ===================================================================== *)

(** The tasks the workers of the pool run, over all the buffers pushed. *)
Definition pool_tasks (blocks : list (list LoopSplitTaskData))
    : list LoopSplitTaskData :=
  mjoin ((fun block =>
            worker_tasks (take (Z.to_nat LOOP_SPLIT_TASK_BLOCK_SIZE) block))
         <$> blocks).

Lemma worker_tasks_tagged (block : list LoopSplitTaskData)
    (d : LoopSplitTaskData) :
  get block 0 = Some d -> ml_curr_index d = -1 -> worker_tasks block = [].
Proof.
  destruct block as [|d0 rest]; [discriminate|]. intros [= ->] Hd.
  cbn [worker_tasks]. rewrite Hd. reflexivity.
Qed.

Lemma worker_tasks_second_tagged (block : list LoopSplitTaskData)
    (d : LoopSplitTaskData) :
  get block 1 = Some d -> ml_curr_index d = -1 ->
  (length (worker_tasks block) <= 1)%nat.
Proof.
  destruct block as [|d0 [|d1 rest]]; try discriminate. intros [= ->] Hd.
  cbn [worker_tasks]. rewrite Hd. destruct (ml_curr_index d0 =? -1); cbn; lia.
Qed.

Section PoolBuffers.

Variables cosf sinf acosf : float -> float.
Variable m : Mesh.
Variable edge_to_loops : list (Z * Z).
Variable fuel : nat.

(** The buffer being filled holds the end tag everywhere but in the slot
    filled last, and the workers find the end tag first in every buffer
    pushed so far. *)
Definition pool_inv (gs : GenState) : Prop :=
  0 <= gs_data_idx gs < LOOP_SPLIT_TASK_BLOCK_SIZE
  /\ (gs_data_idx gs <> 0 ->
      length (gs_data_buff gs) = Z.to_nat LOOP_SPLIT_TASK_BLOCK_SIZE
      /\ forall j d, get (gs_data_buff gs) j = Some d ->
           j <> gs_data_idx gs - 1 -> ml_curr_index d = -1)
  /\ pool_tasks (gs_pushed gs) = [].

Lemma pool_tasks_snoc (blocks : list (list LoopSplitTaskData))
    (block : list LoopSplitTaskData) :
  pool_tasks (blocks ++ [block]) =
  pool_tasks blocks
  ++ worker_tasks (take (Z.to_nat LOOP_SPLIT_TASK_BLOCK_SIZE) block).
Proof.
  unfold pool_tasks. rewrite fmap_app, join_app. cbn. rewrite app_nil_r.
  reflexivity.
Qed.

Lemma generator_corner_pool_inv (vis : Visit) (gs gs' : GenState) :
  pool_inv gs ->
  generator_corner cosf sinf acosf m edge_to_loops fuel true vis gs = Some gs' ->
  pool_inv gs'.
Proof.
  intros (Hidx & Hbuff & Hpushed) H. unfold generator_corner in H.
  bind_case H as r Hr. destruct r as [go skip']. destruct go; cbn [negb] in H.
  2:{ injection H as <-. exact (conj Hidx (conj Hbuff Hpushed)). }
  bind_case H as edge_curr Hec. bind_case H as e2l_c Hc.
  bind_case H as edge_prev Hep. bind_case H as e2l_p Hp.
  destruct (match lnors_spacearr (gs_split gs) with
            | Some arr => let '(arr', sp) := BKE_lnor_space_create arr in
                          (Some arr', Some sp)
            | None => (None, None)
            end) as [arr sp].
  set (buff0 := if gs_data_idx gs =? 0
                then replicate (Z.to_nat LOOP_SPLIT_TASK_BLOCK_SIZE) task_calloc
                else gs_data_buff gs) in H.
  set (buff := _ <$> buff0) in H.
  bind_case H as data Hdata. bind_case H as buff' Hbuff'.
  assert (Hlen0 : length buff0 = Z.to_nat LOOP_SPLIT_TASK_BLOCK_SIZE).
  { unfold buff0. destruct (gs_data_idx gs =? 0) eqn:E.
    - apply length_replicate.
    - apply Hbuff. lia. }
  assert (Hlen : length buff' = Z.to_nat LOOP_SPLIT_TASK_BLOCK_SIZE).
  { rewrite (put_length _ _ _ _ Hbuff'). unfold buff. rewrite length_fmap.
    exact Hlen0. }
  assert (Htag : forall j d, get buff' j = Some d -> j <> gs_data_idx gs ->
            ml_curr_index d = -1).
  { intros j d Hj Hne. rewrite (put_get_ne _ _ _ _ _ Hbuff') in Hj by congruence.
    apply get_Some in Hj as [_ Hj]. unfold buff in Hj.
    rewrite list_lookup_fmap in Hj.
    destruct (buff0 !! Z.to_nat j) as [d0|]; [|discriminate].
    injection Hj as <-. reflexivity. }
  destruct (gs_data_idx gs + 1 =? LOOP_SPLIT_TASK_BLOCK_SIZE) eqn:Efull;
    injection H as <-; unfold pool_inv;
    cbn [gs_data_idx gs_data_buff gs_pushed].
  - split; [unfold LOOP_SPLIT_TASK_BLOCK_SIZE; lia|]. split; [congruence|].
    rewrite pool_tasks_snoc, Hpushed, take_ge by lia. cbn [app].
    destruct (get buff' 0) as [d0|] eqn:Hd0.
    + apply (worker_tasks_tagged buff' d0 Hd0). apply (Htag 0 d0 Hd0).
      unfold LOOP_SPLIT_TASK_BLOCK_SIZE in *. lia.
    + destruct buff'; [discriminate Hlen | discriminate Hd0].
  - split; [unfold LOOP_SPLIT_TASK_BLOCK_SIZE in *; lia|].
    split; [|exact Hpushed]. intros _. split; [exact Hlen|].
    intros j d Hj Hne. apply (Htag j d Hj). lia.
Qed.

Lemma generator_pool_inv (vs : list Visit) (gs gs' : GenState) :
  pool_inv gs ->
  foldM (generator_corner cosf sinf acosf m edge_to_loops fuel true) vs gs
    = Some gs' ->
  pool_inv gs'.
Proof.
  revert gs. induction vs as [|v vs IH]; intros gs Hinv H.
  - injection H as <-. exact Hinv.
  - cbn [foldM] in H. bind_case H as gs1 Hgs1.
    exact (IH gs1 (generator_corner_pool_inv v gs gs1 Hinv Hgs1) H).
Qed.

End PoolBuffers.

(** The end tag is written into every slot of the buffer each time a task
    is added, also into the slots filled before, so the workers run at most
    one task of all those the generator made. *)
Lemma generator_pool_tasks (cosf sinf acosf : float -> float)
    (m : Mesh) (edge_to_loops : list (Z * Z)) (fuel : nat)
    (split split' : SplitState) (blocks : list (list LoopSplitTaskData)) :
  loop_split_generator cosf sinf acosf m edge_to_loops fuel true split
    = Some (split', blocks) ->
  (length (pool_tasks blocks) <= 1)%nat.
Proof.
  unfold loop_split_generator. intros H. bind_case H as gs Hgs.
  injection H as _ <-.
  assert (Hinit : pool_inv (mkGenState split
                    (replicate (length (corner_verts m)) false) [] 0 [])).
  { split; [unfold LOOP_SPLIT_TASK_BLOCK_SIZE; cbn; lia|].
    split; [intros E; cbn in E; congruence | reflexivity]. }
  destruct (generator_pool_inv cosf sinf acosf m edge_to_loops fuel _ _ _
              Hinit Hgs) as (Hidx & Hbuff & Hpushed).
  cbn [andb]. destruct (gs_data_idx gs =? 0) eqn:E; cbn [negb].
  - rewrite Hpushed. cbn. lia.
  - destruct Hbuff as [Hlen Htag]; [lia|].
    rewrite pool_tasks_snoc, Hpushed, take_ge by lia. cbn [app].
    destruct (decide (gs_data_idx gs = 1)) as [E1 | E1].
    + destruct (get (gs_data_buff gs) 1) as [d1|] eqn:Hd1.
      * apply (worker_tasks_second_tagged _ d1 Hd1). apply (Htag 1 d1 Hd1). lia.
      * exfalso. unfold get in Hd1. cbn in Hd1.
        apply lookup_ge_None in Hd1. rewrite Hlen in Hd1.
        unfold LOOP_SPLIT_TASK_BLOCK_SIZE in Hd1. lia.
    + destruct (get (gs_data_buff gs) 0) as [d0|] eqn:Hd0.
      * rewrite (worker_tasks_tagged _ d0 Hd0); [cbn; lia|].
        apply (Htag 0 d0 Hd0). lia.
      * exfalso. unfold get in Hd0. cbn in Hd0.
        apply lookup_ge_None in Hd0. rewrite Hlen in Hd0.
        unfold LOOP_SPLIT_TASK_BLOCK_SIZE in Hd0. lia.
Qed.

Lemma foldM_app {A S : Type} (f : A -> S -> option S) (l1 l2 : list A) (s : S) :
  foldM f (l1 ++ l2) s = s' ← foldM f l1 s; foldM f l2 s'.
Proof.
  revert s. induction l1 as [|a l1 IH]; intros s; [reflexivity|].
  cbn [app foldM]. destruct (f a s) as [s1|]; [exact (IH s1) | reflexivity].
Qed.

(** Running the buffers one after the other runs their tasks in a row. *)
Lemma loop_split_worker_tasks (cosf sinf acosf : float -> float) (m : Mesh)
    (edge_to_loops : list (Z * Z)) (fuel : nat)
    (blocks : list (list LoopSplitTaskData)) (split : SplitState) :
  foldM (loop_split_worker cosf sinf acosf m edge_to_loops fuel) blocks split
  = foldM (fun data st =>
             loop_split_worker_do cosf sinf acosf m edge_to_loops fuel st data)
          (pool_tasks blocks) split.
Proof.
  revert split. induction blocks as [|block blocks IH]; intros split;
    [reflexivity|].
  unfold pool_tasks. cbn [fmap list_fmap mjoin list_join foldM].
  rewrite foldM_app.
  change (loop_split_worker cosf sinf acosf m edge_to_loops fuel block split)
    with (foldM (fun data st =>
                   loop_split_worker_do cosf sinf acosf m edge_to_loops fuel st
                     data)
            (worker_tasks (take (Z.to_nat LOOP_SPLIT_TASK_BLOCK_SIZE) block))
            split).
  destruct (foldM _ (worker_tasks _) split) as [s1|]; [exact (IH s1)|].
  reflexivity.
Qed.

(** C5, what the code does from 8192 corners on, where
    [BKE_mesh_normals_loop_split] hands the tasks to a pool: the result is
    the state the generator leaves with at most one of the tasks it made run
    on it; the other single corners and fans it found are not processed. *)
Theorem pool_runs_at_most_one_task (cosf sinf acosf : float -> float)
    (fuel : nat) (m : Mesh) (r_loopnors : list float3) (split_angle : float)
    (loop_to_poly_map : option (list Z)) (want_spacearr : bool)
    (clnors : option (list short2))
    (lnors : list float3) (codes : list short2)
    (arr : option MLoopNorSpaceArray) :
  LOOP_SPLIT_TASK_BLOCK_SIZE * 8 <= Z.of_nat (length (corner_verts m)) ->
  BKE_mesh_normals_loop_split cosf sinf acosf fuel m r_loopnors true split_angle
    loop_to_poly_map want_spacearr clnors = Some (lnors, codes, arr) ->
  exists (m' : Mesh) (e2l : list (Z * Z)) (split split' : SplitState)
         (blocks : list (list LoopSplitTaskData)),
    loop_split_generator cosf sinf acosf m' e2l fuel true split
      = Some (split', blocks)
    /\ (length (pool_tasks blocks) <= 1)%nat
    /\ foldM (fun data st =>
                loop_split_worker_do cosf sinf acosf m' e2l fuel st data)
             (pool_tasks blocks) split'
       = Some (mkSplitState lnors codes arr).
Proof.
  intros Hmany H. unfold BKE_mesh_normals_loop_split in H. cbn [negb] in H.
  cbv zeta in H. bind_case H as r Hr. destruct r as [[e2l lnors0] edges].
  destruct (Z.of_nat (length (corner_verts m)) <? LOOP_SPLIT_TASK_BLOCK_SIZE * 8)
    eqn:E; [apply Z.ltb_lt in E; lia|].
  bind_case H as g Hg. destruct g as [split' blocks].
  bind_case H as split'' Hw. injection H as <- <- <-.
  eexists _, e2l, _, split', blocks. split; [exact Hg|].
  split; [exact (generator_pool_tasks _ _ _ _ _ _ _ _ _ Hg)|].
  rewrite <- loop_split_worker_tasks, Hw. destruct split''. reflexivity.
Qed.

(** The fan in corner arrays of 8192 entries, enough for the pool: the
    polygons are those of [hex_mesh], the corners from 18 on belong to no
    polygon. *)
Definition pool_corners : nat := Z.to_nat (LOOP_SPLIT_TASK_BLOCK_SIZE * 8).

Definition hex_mesh_pool : Mesh :=
  mkMesh hex_positions hex_edges
    (hex_corner_verts ++ replicate (pool_corners - 18) 0)
    (hex_corner_edges ++ replicate (pool_corners - 18) 0)
    hex_polys [] hex_polynors (replicate 7 (Float3 zero zero one)).

(** What a run with an array of spaces to fill left: the number of spaces
    created, when no corner was given a space and the loop normals of the
    fan are still the vertex normal [(0, 0, 1)]. *)
Definition untouched
    (r : list float3 * list short2 * option MLoopNorSpaceArray)
    : option nat :=
  match r with
  | (lnors, [], Some arr) =>
      if forallb (fun o : option nat => bool_decide (o = None)) (lspacearr arr)
         && bool_decide (take 18 lnors = replicate 18 (Float3 zero zero one))
      then Some (length (spaces arr)) else None
  | _ => None
  end.

(** On [hex_mesh_pool] the generator makes the 7 tasks of the fan, one for
    the closed fan of the vertex 0 and six for the open fans of two corners
    at the rim, and creates their spaces; no corner is given its space and
    no loop normal is computed. *)
Lemma pool_runs_at_most_one_task_witness :
  exists lnors arr,
    BKE_mesh_normals_loop_split cos_half cos_half acos_line 18 hex_mesh_pool
      (replicate pool_corners zero_v3) true M_PI None true None
      = Some (lnors, [], Some arr)
    /\ length (spaces arr) = 7%nat
    /\ (forall c sp, get (lspacearr arr) c <> Some (Some sp))
    /\ take 18 lnors = replicate 18 (Float3 zero zero one)
    /\ exists m' e2l split split' blocks,
         loop_split_generator cos_half cos_half acos_line m' e2l 18 true split
           = Some (split', blocks)
         /\ (length (pool_tasks blocks) <= 1)%nat
         /\ foldM (fun data st =>
                     loop_split_worker_do cos_half cos_half acos_line m' e2l 18
                       st data)
                  (pool_tasks blocks) split'
            = Some (mkSplitState lnors [] (Some arr)).
Proof.
  assert (H : exists r,
            BKE_mesh_normals_loop_split cos_half cos_half acos_line 18
              hex_mesh_pool (replicate pool_corners zero_v3) true M_PI
              None true None = Some r
            /\ untouched r = Some 7%nat).
  { eexists. split; [vm_compute; reflexivity | vm_compute; reflexivity]. }
  destruct H as ([[lnors codes] arr] & H & Hr). unfold untouched in Hr.
  destruct codes; [|discriminate]. destruct arr as [arr|]; [|discriminate].
  destruct (forallb _ (lspacearr arr)) eqn:Ha; [|discriminate].
  destruct (bool_decide (take 18 lnors = replicate 18 (Float3 zero zero one)))
    eqn:Hn; [|discriminate].
  injection Hr as Hr. apply bool_decide_eq_true_1 in Hn.
  exists lnors, arr. split; [exact H|]. split; [exact Hr|].
  split.
  { intros c sp Hc. apply get_elem_of in Hc.
    rewrite forallb_forall in Ha. apply list_elem_of_In in Hc.
    specialize (Ha _ Hc). apply bool_decide_eq_true_1 in Ha. discriminate. }
  split; [exact Hn|].
  apply (pool_runs_at_most_one_task cos_half cos_half acos_line 18
           hex_mesh_pool (replicate pool_corners zero_v3) M_PI None true
           None lnors [] (Some arr)); [vm_compute; discriminate | exact H].
Defined.

(** Below 8192 corners the tasks are run as they are made: on [hex_mesh]
    the 7 spaces are created and every corner is given one. *)
Lemma fan_without_pool :
  exists lnors arr,
    BKE_mesh_normals_loop_split cos_half cos_half acos_line 18 hex_mesh
      (replicate 18 zero_v3) true M_PI None true None
      = Some (lnors, [], Some arr)
    /\ length (spaces arr) = 7%nat
    /\ forallb (fun o : option nat => bool_decide (o <> None)) (lspacearr arr)
       = true.
Proof.
  do 2 eexists. split; [vm_compute; reflexivity|].
  split; vm_compute; reflexivity.
Qed.

(* ===================================================================== *)
(** ** The round trip of the codec *)
(* ===================================================================== *)












(* ===================================================================== *)
(** ** Loops that fill one slot per corner *)
(* ===================================================================== *)

(** A loop that writes one slot of an array per turn, the slot and the value
    given by the turn: when no two turns have the same slot, every turn's
    slot holds its value at the end, and the other slots are as before. *)
Lemma fill_loop_spec {A B S : Type} (arr : S -> list A) (key : B -> Z)
    (val : B -> option A) (f : B -> S -> option S) (n : nat) :
  (forall b s s', length (arr s) = n -> f b s = Some s' ->
     exists x, val b = Some x /\ put (arr s) (key b) x = Some (arr s')) ->
  forall vs s s',
    length (arr s) = n -> foldM f vs s = Some s' -> NoDup (key <$> vs) ->
    length (arr s') = n
    /\ (forall b, b ∈ vs -> is_Some (val b) /\ get (arr s') (key b) = val b)
    /\ (forall c, c ∉ key <$> vs -> get (arr s') c = get (arr s) c).
Proof.
  intros Hstep vs. induction vs as [|v vs IH]; intros s s' Hlen H Hnd.
  - injection H as <-. split; [exact Hlen|]. split; [|reflexivity].
    intros b Hb. inversion Hb.
  - cbn [foldM] in H. bind_case H as s1 Hs1.
    rewrite fmap_cons in Hnd. apply NoDup_cons in Hnd as [Hv Hnd].
    destruct (Hstep v s s1 Hlen Hs1) as (x & Hval & Hput).
    assert (Hlen1 : length (arr s1) = n)
      by (rewrite (put_length _ _ _ _ Hput); exact Hlen).
    destruct (IH s1 s' Hlen1 H Hnd) as (Hl & Hin & Hout).
    split; [exact Hl|]. split.
    + intros b Hb. apply elem_of_cons in Hb as [-> | Hb]; [|exact (Hin b Hb)].
      split; [rewrite Hval; eauto|].
      rewrite (Hout _ Hv), Hval. exact (put_lookup_eq _ _ _ _ Hput).
    + intros c Hc. rewrite fmap_cons in Hc. apply not_elem_of_cons in Hc as [Hne Hc].
      rewrite (Hout c Hc). apply (put_get_ne _ _ _ _ _ Hput). congruence.
Qed.

(** The normal of a corner when split normals are off. *)
Definition simple_normal (m : Mesh) (vis : Visit) : option float3 :=
  if poly_is_smooth (vis_poly vis) then
    vi ← get (corner_verts m) (vis_corner vis); get (vert_normals m) vi
  else get (polynors m) (vis_poly_index vis).

(** Without split normals [BKE_mesh_normals_loop_split] gives every corner
    of a polygon the polygon normal when the polygon is flat and the normal
    of the corner's vertex when it is smooth; the corners of no polygon keep
    their slot, the custom data is left alone and no space is built. *)
Theorem loop_split_without_split_normals (cosf sinf acosf : float -> float)
    (fuel : nat) (m : Mesh) (r_loopnors : list float3) (split_angle : float)
    (loop_to_poly_map : option (list Z)) (want_spacearr : bool)
    (clnors : option (list short2)) (lnors : list float3)
    (codes : list short2) (arr : option MLoopNorSpaceArray) :
  BKE_mesh_normals_loop_split cosf sinf acosf fuel m r_loopnors false
    split_angle loop_to_poly_map want_spacearr clnors = Some (lnors, codes, arr) ->
  corners_valid (polys m) ->
  length lnors = length r_loopnors
  /\ codes = default [] clnors /\ arr = None
  /\ (forall vis, vis ∈ corner_visits (polys m) ->
        is_Some (simple_normal m vis)
        /\ get lnors (vis_corner vis) = simple_normal m vis)
  /\ (forall c, c ∉ vis_corner <$> corner_visits (polys m) ->
        get lnors c = get r_loopnors c).
Proof.
  unfold BKE_mesh_normals_loop_split. cbn [negb]. intros H [_ Hnd].
  bind_case H as l Hl. injection H as <- <- <-.
  destruct (fill_loop_spec (fun l : list float3 => l) vis_corner
              (simple_normal m) (fill_lnors_simple m) (length r_loopnors))
    with (vs := corner_visits (polys m)) (s := r_loopnors) (s' := l)
    as (Hlen & Hin & Hout); try assumption; try reflexivity.
  { intros b s s' _ Hf. unfold fill_lnors_simple in Hf. unfold simple_normal.
    destruct (poly_is_smooth (vis_poly b)); cbn [negb] in Hf.
    - bind_case Hf as vi Hvi. bind_case Hf as vn Hvn. rewrite Hvi.
      cbn [mbind option_bind]. eauto.
    - bind_case Hf as pn Hpn. eauto. }
  repeat split; try assumption; try reflexivity; apply Hin; assumption.
Qed.

(** Membership in a list that evaluates to its elements. *)
Ltac in_list :=
  apply list_elem_of_In; vm_compute;
  repeat (first [left; reflexivity | right]).

(** A flat triangle and a smooth one, with no corner in common. *)
Definition mixed_mesh : Mesh :=
  mkMesh two_triangles_positions [] two_triangles_corner_verts []
    [mkMPoly 0 3 0; mkMPoly 3 3 ME_SMOOTH] []
    [point 0 0 1; point 0 0 1]
    [point 1 0 0; point 1 0 0; point 1 0 0; point 0 1 0; point 0 1 0; point 0 1 0].

Lemma loop_split_without_split_normals_witness :
  exists lnors,
    BKE_mesh_normals_loop_split cos_half cos_half acos_line 0 mixed_mesh
      (replicate 6 zero_v3) false zero None false None = Some (lnors, [], None)
    /\ get lnors 1 = Some (point 0 0 1)
    /\ get lnors 4 = Some (point 0 1 0).
Proof.
  destruct (BKE_mesh_normals_loop_split cos_half cos_half acos_line 0 mixed_mesh
              (replicate 6 zero_v3) false zero None false None)
    as [[[lnors codes] arr]|] eqn:H; [|vm_compute in H; discriminate].
  assert (Hv : corners_valid (polys mixed_mesh))
    by (apply (bool_decide_eq_true_1 _); vm_compute; reflexivity).
  destruct (loop_split_without_split_normals _ _ _ _ _ _ _ _ _ _ _ _ _ H Hv)
    as (_ & -> & -> & Hin & _).
  exists lnors. split; [reflexivity|]. split.
  - destruct (Hin (mkVisit 0 (mkMPoly 0 3 0) 1 0)) as [_ E];
      [in_list | exact E].
  - destruct (Hin (mkVisit 1 (mkMPoly 3 3 ME_SMOOTH) 4 3)) as [_ E];
      [in_list | exact E].
Defined.

(* ===================================================================== *)
(** ** The loop normals [mesh_edges_sharp_tag] leaves *)
(* ===================================================================== *)

(** What a turn of the scan does with the loop normals: nothing when the
    span is empty, otherwise the corner's slot gets the vertex normal. *)
Lemma sharp_tag_corner_loopnors (m : Mesh) (check_angle do_sharp_edges_tag : bool)
    (split_angle_cos : float) (v : Visit) (st st' : TagState) :
  sharp_tag_corner m check_angle do_sharp_edges_tag split_angle_cos v st
    = Some st' ->
  if bool_decide (ts_loopnors st = []) then ts_loopnors st' = []
  else exists vi vn,
         get (corner_verts m) (vis_corner v) = Some vi
         /\ get (vert_normals m) vi = Some vn
         /\ put (ts_loopnors st) (vis_corner v) vn = Some (ts_loopnors st').
Proof.
  unfold sharp_tag_corner. intros H.
  bind_case H as vert_i Hv. bind_case H as e0 He. bind_case H as old Hold.
  bind_case H as lnors Hl.
  assert (Hst : ts_loopnors st' = lnors).
  { destruct (Z.lor old.1 old.2 =? 0).
    - bind_case H as tbl Ht. injection H as <-. reflexivity.
    - destruct (old.2 =? INDEX_UNSET).
      + bind_case H as ang Ha. bind_case H as sharp Hs. destruct sharp.
        * bind_case H as tbl Ht. bind_case H as bits Hb. injection H as <-.
          reflexivity.
        * bind_case H as tbl Ht. injection H as <-. reflexivity.
      + destruct (negb (IS_EDGE_SHARP old)).
        * bind_case H as tbl Ht. bind_case H as bits Hb. injection H as <-.
          reflexivity.
        * injection H as <-. reflexivity. }
  rewrite Hst. destruct (bool_decide (ts_loopnors st = [])) eqn:E.
  - apply bool_decide_eq_true_1 in E. rewrite E in Hl. congruence.
  - bind_case Hl as vn Hvn. eauto.
Qed.

(** [mesh_edges_sharp_tag] pre-populates the loop normals "as if their
    verts were all-smooth": when it is given loop normals, every corner of a
    polygon holds the normal of its vertex afterwards and the other slots
    are as before; an empty span stays empty. *)
Theorem sharp_tag_prepopulates (cosf : float -> float) (m : Mesh)
    (check_angle : bool) (split_angle : float) (do_sharp_edges_tag : bool)
    (e2l : list (Z * Z)) (lnors lnors' : list float3) (tbl : list (Z * Z))
    (edges' : list MEdge) :
  mesh_edges_sharp_tag cosf m check_angle split_angle do_sharp_edges_tag e2l
    lnors = Some (tbl, lnors', edges') ->
  NoDup (vis_corner <$> corner_visits (polys m)) ->
  length lnors' = length lnors
  /\ (lnors <> [] ->
      (forall vis, vis ∈ corner_visits (polys m) ->
         exists vi vn,
           get (corner_verts m) (vis_corner vis) = Some vi
           /\ get (vert_normals m) vi = Some vn
           /\ get lnors' (vis_corner vis) = Some vn)
      /\ (forall c, c ∉ vis_corner <$> corner_visits (polys m) ->
            get lnors' c = get lnors c)).
Proof.
  unfold mesh_edges_sharp_tag, sharp_tag_scan. intros H Hnd.
  bind_case H as st Hst. injection H as _ <- _.
  set (st0 := mkTagState _ _ _) in Hst.
  destruct lnors as [|n0 lnors].
  - split; [|congruence].
    assert (Hk : forall vs s s',
              foldM (sharp_tag_corner m check_angle do_sharp_edges_tag
                       (split_angle_cosine cosf check_angle split_angle)) vs s
                = Some s' -> ts_loopnors s = [] -> ts_loopnors s' = []).
    { induction vs as [|v vs IH]; intros s s' Hf Hs.
      - injection Hf as <-. exact Hs.
      - cbn [foldM] in Hf. bind_case Hf as s1 Hs1.
        apply sharp_tag_corner_loopnors in Hs1. rewrite Hs in Hs1.
        rewrite bool_decide_eq_true_2 in Hs1 by reflexivity.
        exact (IH s1 s' Hf Hs1). }
    rewrite (Hk _ _ _ Hst eq_refl). reflexivity.
  - destruct (fill_loop_spec ts_loopnors vis_corner
                (fun v => vi ← get (corner_verts m) (vis_corner v);
                          get (vert_normals m) vi)
                (sharp_tag_corner m check_angle do_sharp_edges_tag
                   (split_angle_cosine cosf check_angle split_angle))
                (length (n0 :: lnors)))
      with (vs := corner_visits (polys m)) (s := st0) (s' := st)
      as (Hlen & Hin & Hout); try assumption; try reflexivity.
    { intros b s s' Hlen Hf. apply sharp_tag_corner_loopnors in Hf.
      rewrite bool_decide_eq_false_2 in Hf
        by (intros E; rewrite E in Hlen; discriminate).
      destruct Hf as (vi & vn & Hvi & Hvn & Hput). exists vn.
      rewrite Hvi. cbn [mbind option_bind]. split; assumption. }
    split; [exact Hlen|]. intros _. split; [|exact Hout].
    intros vis Hvis. destruct (Hin vis Hvis) as [[vn Hs] Hg].
    rewrite Hs in Hg. bind_case Hs as vi Hvi. eauto.
Qed.

(** On the fan, corner 4 is on the vertex 2, whose normal is put in its
    slot. *)
Lemma sharp_tag_prepopulates_witness :
  exists tbl lnors' edges',
    mesh_edges_sharp_tag cos_half hex_mesh false M_PI false
      (replicate 12 (0, 0)) (replicate 18 zero_v3) = Some (tbl, lnors', edges')
    /\ get (corner_verts hex_mesh) 4 = Some 2
    /\ get lnors' 4 = Some (Float3 zero zero one).
Proof.
  destruct (mesh_edges_sharp_tag cos_half hex_mesh false M_PI false
              (replicate 12 (0, 0)) (replicate 18 zero_v3))
    as [[[tbl lnors'] edges']|] eqn:H; [|vm_compute in H; discriminate].
  exists tbl, lnors', edges'. split; [reflexivity|]. split; [reflexivity|].
  destruct (sharp_tag_prepopulates _ _ _ _ _ _ _ _ _ _ H) as [_ Hpre].
  { destruct hex_corners_valid as [_ Hnd]. exact Hnd. }
  destruct Hpre as [Hin _]; [discriminate|].
  destruct (Hin (mkVisit 1 (mkMPoly 3 3 ME_SMOOTH) 4 3)) as (vi & vn & Hvi & Hvn & Hg);
    [in_list|].
  vm_compute in Hvi. injection Hvi as <-. vm_compute in Hvn.
  injection Hvn as <-. exact Hg.
Defined.

(* ===================================================================== *)
(** ** Corners and their spaces *)
(* ===================================================================== *)

Lemma single_flag_set (flags : Z) :
  (Z.land (Z.lor flags MLNOR_SPACE_IS_SINGLE) MLNOR_SPACE_IS_SINGLE =? 0) = false.
Proof.
  apply Z.eqb_neq. intros H.
  assert (Hb : Z.testbit (Z.land (Z.lor flags MLNOR_SPACE_IS_SINGLE)
                            MLNOR_SPACE_IS_SINGLE) 0 = true).
  { rewrite Z.land_spec, Z.lor_spec. unfold MLNOR_SPACE_IS_SINGLE.
    cbn. rewrite orb_true_r. reflexivity. }
  rewrite H in Hb. discriminate.
Qed.

(** The codec part of a space: the three axes and the two angles. *)
Definition same_frame (s s' : MLoopNorSpace) : Prop :=
  vec_lnor s' = vec_lnor s /\ vec_ref s' = vec_ref s
  /\ vec_ortho s' = vec_ortho s /\ ref_alpha s' = ref_alpha s
  /\ ref_beta s' = ref_beta s.

(** [BKE_lnor_space_add_loop] makes the corner point to the space and puts
    the corner in the space's list: alone and with the single flag for a
    single-corner space, in front of the list otherwise.  The other corners,
    the other spaces and the axes and angles of the space are as before. *)
Theorem space_add_loop_lookup (arr arr' : MLoopNorSpaceArray) (sp : nat)
    (ml_index : Z) (is_single : bool) :
  BKE_lnor_space_add_loop arr sp ml_index is_single = Some arr' ->
  get (lspacearr arr') ml_index = Some (Some sp)
  /\ (forall j, j <> ml_index -> get (lspacearr arr') j = get (lspacearr arr) j)
  /\ length (lspacearr arr') = length (lspacearr arr)
  /\ length (spaces arr') = length (spaces arr)
  /\ (forall sp', sp' <> sp -> spaces arr' !! sp' = spaces arr !! sp')
  /\ exists s s',
       spaces arr !! sp = Some s /\ spaces arr' !! sp = Some s'
       /\ same_frame s s'
       /\ if is_single
          then loops s' = [ml_index] /\ space_is_single s' = true
          else loops s' = ml_index :: loops s /\ sflags s' = sflags s.
Proof.
  unfold BKE_lnor_space_add_loop. intros H.
  bind_case H as tbl Htbl. bind_case H as s Hs. injection H as <-.
  cbn [lspacearr spaces].
  split; [exact (put_lookup_eq _ _ _ _ Htbl)|].
  split; [intros j Hj; apply (put_get_ne _ _ _ _ _ Htbl); congruence|].
  split; [exact (put_length _ _ _ _ Htbl)|].
  split; [apply length_insert|].
  split; [intros sp' Hsp; apply list_lookup_insert_ne; congruence|].
  exists s. eexists. split; [exact Hs|].
  split; [apply list_lookup_insert_eq; eapply lookup_lt_Some, Hs|].
  destruct is_single.
  - split; [repeat split|]. split; [reflexivity|].
    unfold space_is_single. cbn [sflags]. rewrite single_flag_set. reflexivity.
  - split; [repeat split|]. split; reflexivity.
Qed.

(** A corner of an array of three spaces joins the fan of the space 1. *)
Definition three_spaces : MLoopNorSpaceArray :=
  mkSpaceArr [None; Some 1%nat; None; None]
    [space_calloc;
     mkSpace zero_v3 zero_v3 zero_v3 zero zero [1] 0;
     space_calloc].

Lemma space_add_loop_lookup_witness :
  exists arr',
    BKE_lnor_space_add_loop three_spaces 1 3 false = Some arr'
    /\ get (lspacearr arr') 3 = Some (Some 1%nat)
    /\ get (lspacearr arr') 1 = Some (Some 1%nat)
    /\ (loops <$> spaces arr' !! 1%nat) = Some [3; 1].
Proof.
  destruct (BKE_lnor_space_add_loop three_spaces 1 3 false) as [arr'|] eqn:H;
    [|vm_compute in H; discriminate].
  destruct (space_add_loop_lookup _ _ _ _ _ H)
    as (Hc & Hj & _ & _ & _ & s & s' & Hs & Hs' & _ & Hl & _).
  exists arr'. split; [reflexivity|]. split; [exact Hc|].
  split; [rewrite (Hj 1) by lia; reflexivity|].
  rewrite Hs'. cbn [fmap option_fmap option_map]. rewrite Hl.
  vm_compute in Hs. injection Hs as <-. reflexivity.
Defined.

(** A space fresh from [BKE_lnor_space_create] is zero-initialised, the
    spaces created before keep their pointers and contents, and
    [BKE_lnor_space_add_loop] of a corner of the array to it is defined: the
    corner points to the new space, whose list holds that corner alone. *)
Theorem space_create_add_loop (arr : MLoopNorSpaceArray) (ml_index : Z)
    (is_single : bool) :
  0 <= ml_index < Z.of_nat (length (lspacearr arr)) ->
  let '(arr1, sp) := BKE_lnor_space_create arr in
  spaces arr1 !! sp = Some space_calloc
  /\ length (spaces arr1) = S (length (spaces arr))
  /\ lspacearr arr1 = lspacearr arr
  /\ exists arr2 s',
       BKE_lnor_space_add_loop arr1 sp ml_index is_single = Some arr2
       /\ get (lspacearr arr2) ml_index = Some (Some sp)
       /\ spaces arr2 !! sp = Some s'
       /\ loops s' = [ml_index]
       /\ space_is_single s' = is_single
       /\ same_frame space_calloc s'
       /\ forall sp' s, spaces arr !! sp' = Some s -> spaces arr2 !! sp' = Some s.
Proof.
  intros Hc. unfold BKE_lnor_space_create. cbv beta iota zeta.
  cbn [spaces lspacearr].
  assert (Hnew : (spaces arr ++ [space_calloc]) !! length (spaces arr)
                 = Some space_calloc).
  { rewrite lookup_app_r by lia. rewrite Nat.sub_diag. reflexivity. }
  split; [exact Hnew|].
  split; [rewrite length_app; cbn; lia|]. split; [reflexivity|].
  destruct (put (lspacearr arr) ml_index (Some (length (spaces arr))))
    as [tbl|] eqn:Htbl.
  2:{ exfalso. unfold put in Htbl.
      destruct ((0 <=? ml_index) && (ml_index <? Z.of_nat (length (lspacearr arr))))
        eqn:E; [discriminate|]. apply andb_false_iff in E. destruct E; lia. }
  unfold BKE_lnor_space_add_loop. cbn [lspacearr spaces].
  rewrite Htbl, Hnew. cbn [mbind option_bind].
  eexists. eexists. split; [reflexivity|]. cbn [lspacearr spaces].
  split; [exact (put_lookup_eq _ _ _ _ Htbl)|].
  split; [apply list_lookup_insert_eq; rewrite length_app; cbn; lia|].
  destruct is_single.
  - split; [reflexivity|]. split.
    { unfold space_is_single. cbn [sflags]. rewrite single_flag_set. reflexivity. }
    split; [repeat split|].
    intros sp' s Hs. rewrite list_lookup_insert_ne
      by (apply lookup_lt_Some in Hs; lia).
    apply lookup_app_l_Some. exact Hs.
  - split; [reflexivity|]. split; [reflexivity|]. split; [repeat split|].
    intros sp' s Hs. rewrite list_lookup_insert_ne
      by (apply lookup_lt_Some in Hs; lia).
    apply lookup_app_l_Some. exact Hs.
Qed.

Lemma space_create_add_loop_witness :
  exists arr2,
    BKE_lnor_space_add_loop (BKE_lnor_space_create three_spaces).1 3 2 true
      = Some arr2
    /\ get (lspacearr arr2) 2 = Some (Some 3%nat)
    /\ (loops <$> spaces arr2 !! 3%nat) = Some [2]
    /\ spaces arr2 !! 1%nat = spaces three_spaces !! 1%nat.
Proof.
  pose proof (space_create_add_loop three_spaces 2 true) as H.
  cbn [BKE_lnor_space_create three_spaces lspacearr spaces length] in H.
  destruct H as (_ & _ & _ & arr2 & s' & Hadd & Hc & Hs' & Hl & _ & _ & Hold);
    [cbn; lia|].
  exists arr2. split; [exact Hadd|]. split; [exact Hc|].
  split; [rewrite Hs'; cbn; rewrite Hl; reflexivity|].
  apply Hold. reflexivity.
Defined.

(* ===================================================================== *)
(** ** Spaces that cannot be built *)
(* ===================================================================== *)

(** The test of [BKE_lnor_space_define]: one of the two vectors is too
    much aligned with the normal. *)
Definition too_aligned (lnor vec_ref0 vec_other0 : float3) : bool :=
  geb (fabsf (dot_v3v3 vec_ref0 lnor)) LNOR_SPACE_TRIGO_THRESHOLD
  || geb (fabsf (dot_v3v3 vec_other0 lnor)) LNOR_SPACE_TRIGO_THRESHOLD.

(** [BKE_lnor_space_define] never touches the list of corners or the flags
    of the space.  When a vector is too much aligned with the normal it only
    zeroes the two reference angles: the axes stay as they were, and the
    decoder then returns the old [vec_lnor] of the space for every code, not
    the normal given to [BKE_lnor_space_define].  Otherwise [vec_lnor]
    becomes that normal. *)
Theorem space_define_rejected (cosf sinf acosf : float -> float)
    (sp : MLoopNorSpace) (lnor vec_ref0 vec_other0 : float3)
    (edge_vectors : option (list float3)) :
  let sp' :=
    BKE_lnor_space_define acosf sp lnor vec_ref0 vec_other0 edge_vectors in
  loops sp' = loops sp /\ sflags sp' = sflags sp
  /\ (too_aligned lnor vec_ref0 vec_other0 = true ->
      ref_alpha sp' = zero /\ ref_beta sp' = zero
      /\ vec_lnor sp' = vec_lnor sp /\ vec_ref sp' = vec_ref sp
      /\ vec_ortho sp' = vec_ortho sp
      /\ forall d, BKE_lnor_space_custom_data_to_normal cosf sinf sp' d
                   = vec_lnor sp)
  /\ (too_aligned lnor vec_ref0 vec_other0 = false -> vec_lnor sp' = lnor).
Proof.
  cbv zeta. unfold BKE_lnor_space_define, too_aligned.
  destruct (geb (fabsf (dot_v3v3 vec_ref0 lnor)) LNOR_SPACE_TRIGO_THRESHOLD
            || geb (fabsf (dot_v3v3 vec_other0 lnor)) LNOR_SPACE_TRIGO_THRESHOLD).
  - cbn [loops sflags ref_alpha ref_beta vec_lnor vec_ref vec_ortho].
    repeat split; try discriminate.
    intros d. unfold BKE_lnor_space_custom_data_to_normal.
    cbn [ref_alpha ref_beta vec_lnor].
    replace (eqb zero zero) with true by reflexivity.
    rewrite orb_true_r. reflexivity.
  - cbv zeta. cbn [loops sflags vec_lnor].
    repeat split; try discriminate.
Qed.

(** A fresh space defined with an edge along the normal: the decoder gives
    the zero vector for the code (1000, 0). *)
Lemma space_define_rejected_witness :
  too_aligned (point 0 0 1) (point 0 0 1) (point 1 0 0) = true
  /\ forall cosf sinf acosf : float -> float,
       BKE_lnor_space_custom_data_to_normal cosf sinf
         (BKE_lnor_space_define acosf space_calloc (point 0 0 1) (point 0 0 1)
            (point 1 0 0) None) (1000, 0)
       = zero_v3.
Proof.
  split; [vm_compute; reflexivity|]. intros cosf sinf acosf.
  pose proof (space_define_rejected cosf sinf acosf space_calloc (point 0 0 1)
                (point 0 0 1) (point 1 0 0) None) as H.
  cbv zeta in H. destruct H as (_ & _ & Hrej & _).
  destruct Hrej as (_ & _ & _ & _ & _ & Hdec); [vm_compute; reflexivity|].
  apply Hdec.
Defined.

(* ===================================================================== *)
(** ** The task of a single corner *)
(* ===================================================================== *)

Lemma put_put {A : Type} (l l1 l2 : list A) (i : Z) (x y : A) :
  put l i x = Some l1 -> put l1 i y = Some l2 -> put l i y = Some l2.
Proof.
  intros H1 H2. apply put_Some in H1 as [Hi ->]. apply put_Some in H2 as [_ ->].
  apply put_Some. split; [exact Hi|]. apply list_insert_insert_eq.
Qed.

(** What [BKE_lnor_space_add_loop] leaves, for the proofs about the tasks. *)
Lemma add_loop_inv (arr arr' : MLoopNorSpaceArray) (sp : nat) (c : Z)
    (is_single : bool) :
  BKE_lnor_space_add_loop arr sp c is_single = Some arr' ->
  exists s,
    spaces arr !! sp = Some s
    /\ put (lspacearr arr) c (Some sp) = Some (lspacearr arr')
    /\ spaces arr'
       = <[sp := if is_single then
                   mkSpace (vec_lnor s) (vec_ref s) (vec_ortho s) (ref_alpha s)
                     (ref_beta s) [c] (Z.lor (sflags s) MLNOR_SPACE_IS_SINGLE)
                 else
                   mkSpace (vec_lnor s) (vec_ref s) (vec_ortho s) (ref_alpha s)
                     (ref_beta s) (c :: loops s) (sflags s)]> (spaces arr).
Proof.
  unfold BKE_lnor_space_add_loop. intros H.
  bind_case H as tbl Htbl. bind_case H as s Hs. injection H as <-.
  exists s. cbn [lspacearr spaces]. destruct is_single; auto.
Qed.

Lemma update_space_inv (arr arr' : MLoopNorSpaceArray) (sp : nat)
    (f : MLoopNorSpace -> MLoopNorSpace) :
  update_space arr sp f = Some arr' ->
  exists s, spaces arr !! sp = Some s
            /\ lspacearr arr' = lspacearr arr
            /\ spaces arr' = <[sp := f s]> (spaces arr).
Proof.
  unfold update_space. intros H. bind_case H as s Hs. injection H as <-.
  exists s. auto.
Qed.

(** The loop normals after a single-corner task: one write, to the slot of
    the corner. *)
Lemma single_do_loopnors (cosf sinf acosf : float -> float) (m : Mesh)
    (st st' : SplitState) (data : LoopSplitTaskData) :
  split_loop_nor_single_do cosf sinf acosf m st data = Some st' ->
  clnors_data st' = clnors_data st
  /\ exists x,
       put (loopnors st) (ml_curr_index data) x = Some (loopnors st')
       /\ (clnors_data st = [] -> get (polynors m) (mp_index data) = Some x).
Proof.
  unfold split_loop_nor_single_do. intros H.
  bind_case H as pnor Hp. bind_case H as l1 Hl1.
  destruct (lnors_spacearr st) as [arr|].
  - bind_case H as sp Hsp. bind_case H as pv Hpv. bind_case H as piv Hpiv.
    bind_case H as ec Hec. bind_case H as vc Hvc. bind_case H as ep Hep.
    bind_case H as vp Hvp. bind_case H as arr1 Harr1. bind_case H as arr2 Harr2.
    destruct (bool_decide (clnors_data st = [])) eqn:E.
    + injection H as <-. split; [reflexivity|]. exists pnor. auto.
    + bind_case H as code Hcode. bind_case H as s Hs. bind_case H as l2 Hl2.
      injection H as <-. split; [reflexivity|]. eexists.
      split; [exact (put_put _ _ _ _ _ _ Hl1 Hl2)|].
      intros E'. apply bool_decide_eq_false_1 in E. contradiction.
  - injection H as <-. split; [reflexivity|]. exists pnor. auto.
Qed.

(** [split_loop_nor_single_do] writes the loop normal of its corner and no
    other, and leaves the custom data alone; without custom data the normal
    is the polygon normal.  With an array of spaces, the corner points to
    the task's space afterwards, which is flagged single with that corner
    alone in its list, and with custom data the normal is the one decoded
    from the corner's code in that space; the other corners and the other
    spaces are as before. *)
Theorem single_corner_task (cosf sinf acosf : float -> float) (m : Mesh)
    (st st' : SplitState) (data : LoopSplitTaskData) :
  split_loop_nor_single_do cosf sinf acosf m st data = Some st' ->
  clnors_data st' = clnors_data st
  /\ length (loopnors st') = length (loopnors st)
  /\ (forall j, j <> ml_curr_index data ->
        get (loopnors st') j = get (loopnors st) j)
  /\ (clnors_data st = [] ->
      exists pnor, get (polynors m) (mp_index data) = Some pnor
                   /\ get (loopnors st') (ml_curr_index data) = Some pnor)
  /\ match lnors_spacearr st with
     | None => lnors_spacearr st' = None
     | Some arr =>
         exists arr' sp s',
           lnors_spacearr st' = Some arr' /\ lnor_space data = Some sp
           /\ get (lspacearr arr') (ml_curr_index data) = Some (Some sp)
           /\ (forall j, j <> ml_curr_index data ->
                 get (lspacearr arr') j = get (lspacearr arr) j)
           /\ (forall sp', sp' <> sp -> spaces arr' !! sp' = spaces arr !! sp')
           /\ spaces arr' !! sp = Some s'
           /\ loops s' = [ml_curr_index data]
           /\ space_is_single s' = true
           /\ (clnors_data st <> [] ->
               exists code,
                 get (clnors_data st) (ml_curr_index data) = Some code
                 /\ get (loopnors st') (ml_curr_index data)
                    = Some (BKE_lnor_space_custom_data_to_normal cosf sinf s'
                              code))
     end.
Proof.
  intros H. destruct (single_do_loopnors _ _ _ _ _ _ _ H) as (Hcl & x & Hput & Hx).
  split; [exact Hcl|]. split; [exact (put_length _ _ _ _ Hput)|].
  split; [intros j Hj; apply (put_get_ne _ _ _ _ _ Hput); congruence|].
  split.
  { intros E. exists x. split; [exact (Hx E)|]. exact (put_lookup_eq _ _ _ _ Hput). }
  unfold split_loop_nor_single_do in H.
  bind_case H as pnor Hp. bind_case H as l1 Hl1.
  destruct (lnors_spacearr st) as [arr|]; [|injection H as <-; reflexivity].
  bind_case H as sp Hsp. bind_case H as pv Hpv. bind_case H as piv Hpiv.
  bind_case H as ec Hec. bind_case H as vc Hvc. bind_case H as ep Hep.
  bind_case H as vp Hvp. bind_case H as arr1 Harr1. bind_case H as arr2 Harr2.
  destruct (update_space_inv _ _ _ _ Harr1) as (s0 & Hs0 & Htbl1 & Hsp1).
  destruct (add_loop_inv _ _ _ _ _ Harr2) as (s1 & Hs1 & Htbl2 & Hsp2).
  rewrite Htbl1 in Htbl2.
  assert (Hlt : (sp < length (spaces arr1))%nat) by (eapply lookup_lt_Some, Hs1).
  assert (Hnew : exists s', spaces arr2 !! sp = Some s'
                            /\ loops s' = [ml_curr_index data]
                            /\ space_is_single s' = true).
  { eexists. rewrite Hsp2. split; [apply list_lookup_insert_eq, Hlt|].
    split; [reflexivity|]. unfold space_is_single. cbn [sflags].
    rewrite single_flag_set. reflexivity. }
  destruct Hnew as (s' & Hs' & Hloops & Hsingle).
  assert (Hframe : forall sp', sp' <> sp -> spaces arr2 !! sp' = spaces arr !! sp').
  { intros sp' Hne. rewrite Hsp2, list_lookup_insert_ne by congruence.
    rewrite Hsp1. apply list_lookup_insert_ne. congruence. }
  assert (Harr' : lnors_spacearr st' = Some arr2).
  { destruct (bool_decide (clnors_data st = [])).
    - injection H as <-. reflexivity.
    - bind_case H as code Hcode. bind_case H as s Hs. bind_case H as l2 Hl2.
      injection H as <-. reflexivity. }
  exists arr2, sp, s'. split; [exact Harr'|]. split; [exact Hsp|].
  split; [exact (put_lookup_eq _ _ _ _ Htbl2)|].
  split; [intros j Hj; apply (put_get_ne _ _ _ _ _ Htbl2); congruence|].
  split; [exact Hframe|]. split; [exact Hs'|]. split; [exact Hloops|].
  split; [exact Hsingle|]. intros Hne.
  rewrite bool_decide_eq_false_2 in H by exact Hne.
  bind_case H as code Hcode. bind_case H as s Hs. bind_case H as l2 Hl2.
  injection H as <-. exists code. split; [exact Hcode|].
  cbn [loopnors]. rewrite (put_lookup_eq _ _ _ _ Hl2).
  rewrite Hs' in Hs. injection Hs as <-. reflexivity.
Qed.

(** The single-corner task of the corner 1 of the fan (both its edges taken
    as sharp), with an array of spaces and no custom data. *)
Lemma single_corner_task_witness :
  exists st' arr',
    split_loop_nor_single_do cos_half cos_half acos_line hex_mesh
      (mkSplitState (replicate 18 zero_v3) []
         (Some (BKE_lnor_space_create (BKE_lnor_spacearr_init 18)).1))
      (mkTask (Some 0%nat) 1 0 None 0) = Some st'
    /\ get (loopnors st') 1 = get (polynors hex_mesh) 0
    /\ get (loopnors st') 2 = Some zero_v3
    /\ lnors_spacearr st' = Some arr'
    /\ get (lspacearr arr') 1 = Some (Some 0%nat).
Proof.
  destruct (split_loop_nor_single_do cos_half cos_half acos_line hex_mesh
              (mkSplitState (replicate 18 zero_v3) []
                 (Some (BKE_lnor_space_create (BKE_lnor_spacearr_init 18)).1))
              (mkTask (Some 0%nat) 1 0 None 0)) as [st'|] eqn:H;
    [|vm_compute in H; discriminate].
  destruct (single_corner_task _ _ _ _ _ _ _ H)
    as (_ & _ & Hframe & Hpn & Hsp).
  cbn [lnors_spacearr] in Hsp.
  destruct Hsp as (arr' & sp & s' & Harr' & Hsp & Hc & _).
  cbn [lnor_space] in Hsp. injection Hsp as <-.
  destruct (Hpn eq_refl) as (pnor & Hpnor & Hg).
  exists st', arr'. split; [reflexivity|].
  split; [cbn [mp_index] in Hpnor; cbn [ml_curr_index] in Hg; congruence|].
  split; [rewrite (Hframe 2) by (cbn; lia); reflexivity|].
  split; [exact Harr' | exact Hc].
Defined.

(* ===================================================================== *)
(** ** Flat-shaded meshes *)
(* ===================================================================== *)

Lemma poly_corners_elem (p : MPoly) (ml : Z) :
  ml ∈ poly_corners p <-> loopstart p <= ml < loopstart p + totloop p.
Proof.
  unfold poly_corners. rewrite list_elem_of_fmap. split.
  - intros (k & -> & Hk). apply elem_of_seq in Hk. lia.
  - intros H. exists (Z.to_nat (ml - loopstart p)). split; [lia|].
    apply elem_of_seq. lia.
Qed.

Lemma corner_visits_elem (ps : list MPoly) (vis : Visit) :
  vis ∈ corner_visits ps <->
  exists i p ml,
    ps !! i = Some p /\ ml ∈ poly_corners p
    /\ vis = mkVisit (Z.of_nat i) p ml (corner_prev p ml).
Proof.
  unfold corner_visits. rewrite list_elem_of_In, in_concat. split.
  - intros (l & Hl & Hv). apply list_elem_of_In in Hl, Hv.
    apply elem_of_lookup_imap in Hl as (i & p & -> & Hp).
    unfold poly_visits in Hv. apply list_elem_of_fmap in Hv as (ml & -> & Hml).
    eauto 6.
  - intros (i & p & ml & Hp & Hml & ->). exists (poly_visits i p). split.
    + apply list_elem_of_In, elem_of_lookup_imap. eauto.
    + apply list_elem_of_In. unfold poly_visits. apply list_elem_of_fmap. eauto.
Qed.

(** The corner before a corner of a polygon is a corner of the polygon, and
    so has a turn of its own in the loops over the corners. *)
Lemma visit_prev_visited (ps : list MPoly) (vis : Visit) :
  vis ∈ corner_visits ps ->
  exists vis', vis' ∈ corner_visits ps /\ vis_corner vis' = vis_prev vis
               /\ vis_poly vis' = vis_poly vis.
Proof.
  intros H. apply corner_visits_elem in H as (i & p & ml & Hp & Hml & ->).
  exists (mkVisit (Z.of_nat i) p (corner_prev p ml)
            (corner_prev p (corner_prev p ml))).
  split; [|split; reflexivity].
  apply corner_visits_elem. exists i, p, (corner_prev p ml).
  split; [exact Hp|]. split; [|reflexivity].
  apply poly_corners_elem in Hml. apply poly_corners_elem.
  unfold corner_prev. destruct (ml =? loopstart p) eqn:E; lia.
Qed.

Lemma visit_poly_elem (ps : list MPoly) (vis : Visit) :
  vis ∈ corner_visits ps -> vis_poly vis ∈ ps.
Proof.
  intros H. apply corner_visits_elem in H as (i & p & ml & Hp & _ & ->).
  eapply list_elem_of_lookup_2, Hp.
Qed.

(** On a mesh whose polygons are all flat, the scan leaves every edge of a
    corner sharp. *)
Lemma flat_edge_entry (m : Mesh) (check_angle : bool) (split_angle_cos : float)
    (e : Z) (evs : list Visit) (x : Z * Z) :
  evs <> [] ->
  (forall a, a ∈ evs -> poly_is_smooth (vis_poly a) = false) ->
  edge_entry m check_angle split_angle_cos e evs = Some x ->
  IS_EDGE_SHARP x = true.
Proof.
  intros Hne Hflat H. destruct evs as [|a [|b [|c r]]]; [congruence| | |];
    cbn [edge_entry] in H.
  - injection H as <-. unfold first_entry.
    rewrite (Hflat a) by (apply elem_of_cons; left; reflexivity). reflexivity.
  - unfold second_entry in H.
    rewrite (Hflat a) in H by (apply elem_of_cons; left; reflexivity).
    injection H as <-. reflexivity.
  - injection H as <-. reflexivity.
Qed.

(** A loop that fills one slot per turn, for turns that satisfy [P] and
    states that keep [I]. *)
Lemma fill_loop_inv {A B S : Type} (arr : S -> list A) (key : B -> Z)
    (val : B -> option A) (f : B -> S -> option S) (I : S -> Prop)
    (P : B -> Prop) :
  (forall b s s', P b -> I s -> f b s = Some s' ->
     I s' /\ exists x, val b = Some x /\ put (arr s) (key b) x = Some (arr s')) ->
  forall vs s s',
    (forall b, b ∈ vs -> P b) -> I s -> foldM f vs s = Some s' ->
    NoDup (key <$> vs) ->
    I s' /\ length (arr s') = length (arr s)
    /\ (forall b, b ∈ vs -> is_Some (val b) /\ get (arr s') (key b) = val b)
    /\ (forall c, c ∉ key <$> vs -> get (arr s') c = get (arr s) c).
Proof.
  intros Hstep vs. induction vs as [|v vs IH]; intros s s' HP HI H Hnd.
  - injection H as <-. split; [exact HI|]. split; [reflexivity|].
    split; [|reflexivity]. intros b Hb. inversion Hb.
  - cbn [foldM] in H. bind_case H as s1 Hs1.
    rewrite fmap_cons in Hnd. apply NoDup_cons in Hnd as [Hv Hnd].
    destruct (Hstep v s s1) as (HI1 & x & Hval & Hput); try assumption.
    { apply HP. apply elem_of_cons. left. reflexivity. }
    destruct (IH s1 s') as (HI' & Hl & Hin & Hout); try assumption.
    { intros b Hb. apply HP. apply elem_of_cons. right. exact Hb. }
    split; [exact HI'|].
    split; [rewrite Hl; exact (put_length _ _ _ _ Hput)|]. split.
    + intros b Hb. apply elem_of_cons in Hb as [-> | Hb]; [|exact (Hin b Hb)].
      split; [rewrite Hval; eauto|].
      rewrite (Hout _ Hv), Hval. exact (put_lookup_eq _ _ _ _ Hput).
    + intros c Hc. rewrite fmap_cons in Hc. apply not_elem_of_cons in Hc as [Hne Hc].
      rewrite (Hout c Hc). apply (put_get_ne _ _ _ _ _ Hput). congruence.
Qed.

(** With split normals on, on a mesh of fewer than 8192 corners whose
    polygons are all flat and that comes without custom normals, every
    corner of a polygon gets the normal of its polygon. *)
Theorem flat_mesh_loop_normals (cosf sinf acosf : float -> float) (fuel : nat)
    (m : Mesh) (r_loopnors : list float3) (split_angle : float)
    (loop_to_poly_map : option (list Z)) (want_spacearr : bool)
    (lnors : list float3) (codes : list short2)
    (arr : option MLoopNorSpaceArray) :
  BKE_mesh_normals_loop_split cosf sinf acosf fuel m r_loopnors true split_angle
    loop_to_poly_map want_spacearr None = Some (lnors, codes, arr) ->
  Z.of_nat (length (corner_verts m)) < LOOP_SPLIT_TASK_BLOCK_SIZE * 8 ->
  corners_valid (polys m) ->
  (forall p, p ∈ polys m -> poly_is_smooth p = false) ->
  forall vis, vis ∈ corner_visits (polys m) ->
    exists pnor,
      get (polynors m) (vis_poly_index vis) = Some pnor
      /\ get lnors (vis_corner vis) = Some pnor.
Proof.
  unfold BKE_mesh_normals_loop_split. cbn [negb]. cbv zeta.
  intros H Hfew Hvalid Hflat.
  bind_case H as r Hr. destruct r as [[e2l lnors0] edges].
  assert (Hlt : (Z.of_nat (length (corner_verts m))
                 <? LOOP_SPLIT_TASK_BLOCK_SIZE * 8) = true) by lia.
  rewrite Hlt in H. bind_case H as g Hg. destruct g as [split' blocks].
  injection H as <- _ _.
  set (m' := mkMesh _ _ _ _ _ _ _ _) in *.
  (* the table after the scan *)
  unfold mesh_edges_sharp_tag in Hr. bind_case Hr as ts Hts.
  injection Hr as <- _ _. cbn [medges m'] in Hts.
  pose proof (sharp_tag_scan_spec m' _ false _ _ _ Hts Hvalid) as Hinv.
  cbv zeta in Hinv. destruct Hinv as [Hlen Hent _ _ _]. cbn [medges m'] in *.
  assert (Hsharp : forall vis e x,
            vis ∈ corner_visits (polys m) ->
            get (corner_edges m) (vis_corner vis) = Some e ->
            get (ts_e2l ts) e = Some x -> IS_EDGE_SHARP x = true).
  { intros vis e x Hvis He Hx.
    assert (Hrange : 0 <= e < Z.of_nat (length (medges m))).
    { apply get_Some in Hx as [? Hx]. apply lookup_lt_Some in Hx. lia. }
    destruct (Hent e Hrange) as [_ Hentry]. rewrite Hx in Hentry.
    symmetry in Hentry.
    apply (flat_edge_entry _ _ _ _ _ x) in Hentry; [exact Hentry| |].
    - intros E. assert (Hin : vis ∈ edge_visits m' e (corner_visits (polys m'))).
      { apply list_elem_of_filter. split; assumption. }
      rewrite E in Hin. inversion Hin.
    - intros a Ha. apply Hflat. apply (visit_poly_elem (polys m)).
      eapply edge_visits_elem, Ha. }
  (* the generator, without a pool *)
  unfold loop_split_generator in Hg. bind_case Hg as gs Hgs.
  injection Hg as <- _.
  assert (Hturn : forall vis s s',
            vis ∈ corner_visits (polys m) ->
            clnors_data (gs_split s) = [] ->
            generator_corner cosf sinf acosf m' (ts_e2l ts) fuel false vis s
              = Some s' ->
            clnors_data (gs_split s') = []
            /\ exists x, get (polynors m) (vis_poly_index vis) = Some x
                 /\ put (loopnors (gs_split s)) (vis_corner vis) x
                    = Some (loopnors (gs_split s'))).
  { intros vis s s' Hvis Hcl Hstep. unfold generator_corner in Hstep.
    bind_case Hstep as r Hgo. destruct r as [go skip'].
    unfold generates_task in Hgo.
    bind_case Hgo as ec Hec. bind_case Hgo as xc Hxc.
    bind_case Hgo as ep Hep. bind_case Hgo as xp Hxp.
    cbn [corner_edges m'] in Hec, Hep.
    pose proof (Hsharp vis ec xc Hvis Hec Hxc) as Hsc.
    destruct (visit_prev_visited _ _ Hvis) as (vis' & Hvis' & Hc' & _).
    rewrite <- Hc' in Hep. pose proof (Hsharp vis' ep xp Hvis' Hep Hxp) as Hsp.
    rewrite Hc' in Hep.
    rewrite Hsc in Hgo. injection Hgo as <- <-. cbn [negb] in Hstep.
    cbn [corner_edges m'] in Hstep. rewrite Hec, Hep in Hstep.
    cbn [mbind option_bind] in Hstep. rewrite Hxc, Hxp in Hstep.
    cbn [mbind option_bind] in Hstep.
    destruct (match lnors_spacearr (gs_split s) with
              | Some arr0 => let '(arr', sp) := BKE_lnor_space_create arr0 in
                             (Some arr', Some sp)
              | None => (None, None)
              end) as [arr1 sp1].
    bind_case Hstep as split1 Hdo. injection Hstep as <-. cbn [gs_split].
    unfold loop_split_worker_do, fill_task in Hdo. rewrite Hsc, Hsp in Hdo.
    cbn [andb e2l_prev task_calloc] in Hdo.
    destruct (single_do_loopnors _ _ _ _ _ _ _ Hdo) as (Hcl' & x & Hput & Hx).
    cbn [clnors_data loopnors ml_curr_index mp_index] in Hcl', Hput, Hx.
    split; [congruence|]. exists x. split; [apply Hx, Hcl | exact Hput]. }
  destruct Hvalid as [_ Hnd].
  eapply (fill_loop_inv (fun gs => loopnors (gs_split gs)) vis_corner
            (fun vis => get (polynors m) (vis_poly_index vis))
            (generator_corner cosf sinf acosf m' (ts_e2l ts) fuel false)
            (fun gs => clnors_data (gs_split gs) = [])
            (fun vis => vis ∈ corner_visits (polys m)) Hturn)
    in Hgs as (_ & _ & Hin & _);
    [|intros b Hb; exact Hb | reflexivity | exact Hnd].
  intros vis Hvis. destruct (Hin vis Hvis) as [[pnor Hp] Hg].
  exists pnor. split; [exact Hp|]. rewrite Hg. exact Hp.
Qed.

(** Two flat triangles with no vertex in common. *)
Definition flat_pair : Mesh :=
  mkMesh two_triangles_positions
    [mkMEdge 0 1 0; mkMEdge 1 2 0; mkMEdge 2 0 0;
     mkMEdge 3 4 0; mkMEdge 4 5 0; mkMEdge 5 3 0]
    two_triangles_corner_verts [0; 1; 2; 3; 4; 5]
    [mkMPoly 0 3 0; mkMPoly 3 3 0] []
    [point 0 0 1; point 0 1 0]
    (replicate 6 (point 1 0 0)).

Lemma flat_mesh_loop_normals_witness :
  exists lnors codes arr,
    BKE_mesh_normals_loop_split cos_half cos_half acos_line 0 flat_pair
      (replicate 6 zero_v3) true M_PI None false None = Some (lnors, codes, arr)
    /\ get lnors 2 = Some (point 0 0 1)
    /\ get lnors 3 = Some (point 0 1 0).
Proof.
  destruct (BKE_mesh_normals_loop_split cos_half cos_half acos_line 0 flat_pair
              (replicate 6 zero_v3) true M_PI None false None)
    as [[[lnors codes] arr]|] eqn:H; [|vm_compute in H; discriminate].
  exists lnors, codes, arr. split; [reflexivity|].
  assert (Hv : corners_valid (polys flat_pair))
    by (apply (bool_decide_eq_true_1 _); vm_compute; reflexivity).
  assert (Hflat : forall p, p ∈ polys flat_pair -> poly_is_smooth p = false).
  { intros p Hp. cbn [polys flat_pair] in Hp.
    repeat (apply elem_of_cons in Hp as [-> | Hp]; [reflexivity|]).
    inversion Hp. }
  pose proof (flat_mesh_loop_normals _ _ _ _ _ _ _ _ _ _ _ _ H
                ltac:(vm_compute; reflexivity) Hv Hflat) as Hall.
  split.
  - destruct (Hall (mkVisit 0 (mkMPoly 0 3 0) 2 1)) as (pnor & Hp & Hg); [in_list|].
    vm_compute in Hp. injection Hp as <-. exact Hg.
  - destruct (Hall (mkVisit 1 (mkMPoly 3 3 0) 3 5)) as (pnor & Hp & Hg); [in_list|].
    vm_compute in Hp. injection Hp as <-. exact Hg.
Defined.

(* ===================================================================== *)
(** ** One step around the pivot vertex *)
(* ===================================================================== *)

(** The corner after a corner in its polygon (the first corner, after the
    last one). *)
Definition corner_next (p : MPoly) (ml : Z) : Z :=
  if ml + 1 >=? loopstart p + totloop p then loopstart p else ml + 1.

(** [loop_manifold_fan_around_vert_next] crosses the edge to the other
    corner [next] of its entry and stays in the polygon of that corner: the
    corner of the vertex it returns is [next], with the corner before it as
    the new current corner, or it is the corner after [next], which is then
    the new current corner too; both wrap around inside the polygon. *)
Theorem fan_next_in_polygon (m : Mesh) (e2lfan_curr : Z * Z)
    (mv_pivot_index mlfan_curr_index curr' vert' poly' : Z) (p : MPoly) :
  loop_manifold_fan_around_vert_next m e2lfan_curr mv_pivot_index
    mlfan_curr_index = Some (curr', vert', poly') ->
  let next :=
    if e2lfan_curr.1 =? mlfan_curr_index then e2lfan_curr.2 else e2lfan_curr.1 in
  get (polys m) poly' = Some p ->
  loopstart p <= next < loopstart p + totloop p ->
  get (loop_to_poly m) next = Some poly'
  /\ loopstart p <= curr' < loopstart p + totloop p
  /\ loopstart p <= vert' < loopstart p + totloop p
  /\ ((vert' = next /\ curr' = corner_prev p next)
      \/ (vert' = corner_next p next /\ curr' = vert')).
Proof.
  intros H next Hp Hin. unfold loop_manifold_fan_around_vert_next in H.
  bind_case H as vc Hvc. fold next in H. bind_case H as pi Hpi.
  bind_case H as vn Hvn. bind_case H as p' Hp'.
  destruct ((vc =? vn) && (vc =? mv_pivot_index)
            || negb (vc =? vn) && negb (vc =? mv_pivot_index)).
  - injection H as <- <- <-. rewrite Hp in Hp'. injection Hp' as <-.
    split; [exact Hpi|].
    assert (Hc : (if next - 1 <? loopstart p
                  then loopstart p + totloop p - 1 else next - 1)
                 = corner_prev p next).
    { unfold corner_prev.
      destruct (next - 1 <? loopstart p) eqn:E1, (next =? loopstart p) eqn:E2;
        lia. }
    rewrite Hc. split; [|split; [exact Hin | left; split; reflexivity]].
    unfold corner_prev. destruct (next =? loopstart p) eqn:E; lia.
  - injection H as <- <- <-. rewrite Hp in Hp'. injection Hp' as <-.
    split; [exact Hpi|]. fold (corner_next p next).
    assert (Hn : loopstart p <= corner_next p next < loopstart p + totloop p).
    { unfold corner_next.
      destruct (next + 1 >=? loopstart p + totloop p) eqn:E; lia. }
    split; [exact Hn|]. split; [exact Hn|]. right. split; reflexivity.
Qed.

(** On the fan, from the corner 2 of the first triangle across the spoke 1
    (corners 2 and 3): the corner 3 of the second triangle is the one of the
    pivot, and the new current corner wraps to the corner 5. *)
Lemma fan_next_in_polygon_witness :
  loop_manifold_fan_around_vert_next hex_mesh (2, 3) 0 2 = Some (5, 3, 1)
  /\ get (loop_to_poly hex_mesh) 3 = Some 1
  /\ corner_prev (mkMPoly 3 3 ME_SMOOTH) 3 = 5.
Proof.
  assert (H : loop_manifold_fan_around_vert_next hex_mesh (2, 3) 0 2
              = Some (5, 3, 1)) by (vm_compute; reflexivity).
  split; [exact H|].
  destruct (fan_next_in_polygon hex_mesh (2, 3) 0 2 5 3 1 (mkMPoly 3 3 ME_SMOOTH) H)
    as (Hl & _ & _ & Hcase); [reflexivity | cbn; lia |].
  split; [exact Hl | reflexivity].
Defined.

(* ===================================================================== *)
(** ** [BKE_mesh_normals_loop_to_vertex] *)
(* ===================================================================== *)

(** One turn of the loop over the corners: the state is [r_vert_clnors] and
    [vert_loops_count]. *)
Definition loop_to_vertex_step (corner_verts : list Z) (clnors : list float3)
    (i : Z) (st : list float3 * list Z) : option (list float3 * list Z) :=
  let '(r_vert_clnors, vert_loops_count) := st in
  vert_i ← get corner_verts i;
  nor ← get clnors i;
  acc ← get r_vert_clnors vert_i;
  r' ← put r_vert_clnors vert_i (add_v3_v3 acc nor);
  count ← get vert_loops_count vert_i;
  count' ← put vert_loops_count vert_i (count + 1);
  Some (r', count').

(** [BKE_mesh_normals_loop_to_vertex]: the array [r_vert_clnors] of
    [numVerts] vectors after the call. *)
Definition BKE_mesh_normals_loop_to_vertex (numVerts : nat)
    (corner_verts : list Z) (numLoops : nat) (clnors : list float3)
    : option (list float3) :=
  st ← for_loop numLoops 0 (loop_to_vertex_step corner_verts clnors)
         (replicate numVerts zero_v3, replicate numVerts 0);
  Some (zip_with (fun v count => mul_v3_v3fl v (div one (of_Z count)))
          st.1 st.2).

(** The corners below [n] that are on the vertex [v], in increasing order. *)
Definition vertex_corners (corner_verts : list Z) (n : nat) (v : Z) : list Z :=
  filter (fun i => get corner_verts i = Some v) (Z.of_nat <$> seq 0 n).

(** The sum of the normals of the corners [cs], added to [acc] in the order
    of the list. *)
Fixpoint normal_sum (clnors : list float3) (cs : list Z) (acc : float3)
    : option float3 :=
  match cs with
  | [] => Some acc
  | i :: rest => nor ← get clnors i; normal_sum clnors rest (add_v3_v3 acc nor)
  end.

Lemma for_loop_snoc {S : Type} (n : nat) (i : Z) (body : Z -> S -> option S)
    (s : S) :
  for_loop (Datatypes.S n) i body s
  = s' ← for_loop n i body s; body (i + Z.of_nat n) s'.
Proof.
  revert i s. induction n as [|n IH]; intros i s.
  - replace (i + Z.of_nat 0) with i by lia. cbn [for_loop mbind option_bind].
    destruct (body i s); reflexivity.
  - assert (E1 : for_loop (Datatypes.S (Datatypes.S n)) i body s
                 = s' ← body i s; for_loop (Datatypes.S n) (i + 1) body s')
      by reflexivity.
    assert (E2 : for_loop (Datatypes.S n) i body s
                 = s' ← body i s; for_loop n (i + 1) body s') by reflexivity.
    rewrite E1, E2. destruct (body i s) as [s1|]; [|reflexivity].
    cbn [mbind option_bind]. rewrite IH.
    replace (i + 1 + Z.of_nat n) with (i + Z.of_nat (Datatypes.S n)) by lia.
    reflexivity.
Qed.

Lemma vertex_corners_snoc (corner_verts : list Z) (n : nat) (v : Z) :
  vertex_corners corner_verts (Datatypes.S n) v
  = vertex_corners corner_verts n v
    ++ (if bool_decide (get corner_verts (Z.of_nat n) = Some v)
        then [Z.of_nat n] else []).
Proof.
  unfold vertex_corners. rewrite seq_S, fmap_app, filter_app. f_equal.
  cbn [fmap list_fmap]. rewrite filter_cons, filter_nil. cbn [Nat.add].
  destruct (decide (get corner_verts (Z.of_nat n) = Some v)) as [H|H].
  - rewrite bool_decide_eq_true_2 by exact H. reflexivity.
  - rewrite bool_decide_eq_false_2 by exact H. reflexivity.
Qed.

Lemma normal_sum_snoc (clnors : list float3) (cs : list Z) (i : Z)
    (acc : float3) :
  normal_sum clnors (cs ++ [i]) acc
  = s ← normal_sum clnors cs acc; nor ← get clnors i; Some (add_v3_v3 s nor).
Proof.
  revert acc. induction cs as [|c cs IH]; intros acc.
  - cbn. destruct (get clnors i); reflexivity.
  - cbn [app normal_sum]. destruct (get clnors c) as [nor|]; [|reflexivity].
    cbn [mbind option_bind]. apply IH.
Qed.

(** After the corners below [n]: every vertex holds the sum of the normals
    of its corners and their number. *)
Lemma loop_to_vertex_loop (numVerts : nat) (corner_verts : list Z)
    (clnors : list float3) (n : nat) (r : list float3) (count : list Z) :
  for_loop n 0 (loop_to_vertex_step corner_verts clnors)
    (replicate numVerts zero_v3, replicate numVerts 0) = Some (r, count) ->
  length r = numVerts /\ length count = numVerts
  /\ forall v, 0 <= v < Z.of_nat numVerts ->
       get r v = normal_sum clnors (vertex_corners corner_verts n v) zero_v3
       /\ get count v
          = Some (Z.of_nat (length (vertex_corners corner_verts n v))).
Proof.
  revert r count. induction n as [|n IH]; intros r count H.
  - injection H as <- <-. rewrite !length_replicate.
    split; [reflexivity|]. split; [reflexivity|]. intros v Hv.
    assert (Hrep : forall (A : Type) (x : A),
              get (replicate numVerts x) v = Some x).
    { intros A x. apply get_Some. split; [lia|]. apply lookup_replicate_2. lia. }
    rewrite !Hrep. split; reflexivity.
  - rewrite for_loop_snoc in H. bind_case H as st Hst. destruct st as [r0 c0].
    destruct (IH r0 c0 Hst) as (Hlr & Hlc & Hall).
    rewrite Z.add_0_l in H. unfold loop_to_vertex_step in H.
    bind_case H as vert_i Hvi. bind_case H as nor Hnor. bind_case H as acc Hacc.
    bind_case H as r' Hr'. bind_case H as c Hc. bind_case H as c' Hc'.
    injection H as <- <-.
    split; [rewrite (put_length _ _ _ _ Hr'); exact Hlr|].
    split; [rewrite (put_length _ _ _ _ Hc'); exact Hlc|].
    intros v Hv. rewrite vertex_corners_snoc. destruct (Hall v Hv) as [Hs Hn].
    destruct (decide (vert_i = v)) as [<- | Hne].
    + rewrite bool_decide_eq_true_2 by exact Hvi.
      rewrite normal_sum_snoc, <- Hs, Hacc. cbn [mbind option_bind].
      rewrite Hnor. cbn [mbind option_bind].
      rewrite (put_lookup_eq _ _ _ _ Hr'), (put_lookup_eq _ _ _ _ Hc').
      split; [reflexivity|]. rewrite Hn in Hc. injection Hc as <-.
      rewrite length_app. cbn [length]. f_equal. lia.
    + rewrite bool_decide_eq_false_2 by congruence. rewrite app_nil_r.
      rewrite (put_get_ne _ _ _ _ _ Hr' Hne), (put_get_ne _ _ _ _ _ Hc' Hne).
      split; assumption.
Qed.

(** What the call leaves for the vertex [v], from the sum and the number of
    its corners. *)
Lemma loop_to_vertex_spec (numVerts : nat) (corner_verts : list Z)
    (numLoops : nat) (clnors out : list float3) (v : Z) :
  BKE_mesh_normals_loop_to_vertex numVerts corner_verts numLoops clnors
    = Some out ->
  0 <= v < Z.of_nat numVerts ->
  length out = numVerts
  /\ exists sum,
       normal_sum clnors (vertex_corners corner_verts numLoops v) zero_v3
         = Some sum
       /\ get out v
          = Some (mul_v3_v3fl sum
                    (div one (of_Z (Z.of_nat
                       (length (vertex_corners corner_verts numLoops v)))))).
Proof.
  unfold BKE_mesh_normals_loop_to_vertex. intros H Hv.
  bind_case H as st Hst. destruct st as [r count]. injection H as <-.
  destruct (loop_to_vertex_loop _ _ _ _ _ _ Hst) as (Hlr & Hlc & Hall).
  split; [rewrite length_zip_with; cbn [fst snd]; lia|].
  destruct (Hall v Hv) as [Hs Hn].
  destruct (get r v) as [sum|] eqn:Hr.
  2:{ exfalso. unfold get in Hr. destruct (v <? 0) eqn:E; [lia|].
      apply lookup_ge_None in Hr. lia. }
  exists sum. split; [symmetry; exact Hs|].
  apply get_Some in Hr as [_ Hr]. apply get_Some in Hn as [_ Hn].
  apply get_Some. split; [lia|]. cbn [fst snd].
  rewrite lookup_zip_with, Hr. cbn [mbind option_bind]. rewrite Hn. reflexivity.
Qed.

(** [BKE_mesh_normals_loop_to_vertex] returns one vector per vertex: the sum
    of the normals of the corners on that vertex, added in the order of the
    corners, multiplied by [1.0f / count] for the number [count] of those
    corners. *)
Theorem loop_to_vertex_average (numVerts : nat) (corner_verts : list Z)
    (numLoops : nat) (clnors out : list float3) :
  BKE_mesh_normals_loop_to_vertex numVerts corner_verts numLoops clnors
    = Some out ->
  length out = numVerts
  /\ forall v, 0 <= v < Z.of_nat numVerts ->
       exists sum,
         normal_sum clnors (vertex_corners corner_verts numLoops v) zero_v3
           = Some sum
         /\ get out v
            = Some (mul_v3_v3fl sum
                      (div one (of_Z (Z.of_nat
                         (length (vertex_corners corner_verts numLoops v)))))).
Proof.
  intros H. split.
  - unfold BKE_mesh_normals_loop_to_vertex in H.
    bind_case H as st Hst. destruct st as [r count]. injection H as <-.
    destruct (loop_to_vertex_loop _ _ _ _ _ _ Hst) as (Hlr & Hlc & _).
    rewrite length_zip_with. cbn [fst snd]. lia.
  - intros v Hv. exact (proj2 (loop_to_vertex_spec _ _ _ _ _ _ H Hv)).
Qed.

(** Four corners on the vertices 0, 1, 0, 1 of three. *)
Definition four_corner_normals : list float3 :=
  [point 1 0 0; point 0 2 0; point 3 0 0; point 0 0 4].

Lemma loop_to_vertex_average_witness :
  exists out,
    BKE_mesh_normals_loop_to_vertex 3 [0; 1; 0; 1] 4 four_corner_normals
      = Some out
    /\ vertex_corners [0; 1; 0; 1] 4 0 = [0; 2]
    /\ get out 0 = Some (point 2 0 0).
Proof.
  destruct (BKE_mesh_normals_loop_to_vertex 3 [0; 1; 0; 1] 4 four_corner_normals)
    as [out|] eqn:H; [|vm_compute in H; discriminate].
  exists out. split; [reflexivity|]. split; [reflexivity|].
  destruct (loop_to_vertex_average _ _ _ _ _ H) as [_ Hall].
  destruct (Hall 0) as (sum & Hsum & Hout); [lia|].
  vm_compute in Hsum. injection Hsum as <-. rewrite Hout. vm_compute.
  reflexivity.
Defined.

(** A vertex that no corner uses gets three NaNs from
    [BKE_mesh_normals_loop_to_vertex]: its count is 0 and its zero sum is
    multiplied by [1.0f / 0.0f]. *)
Theorem loop_to_vertex_loose_vertex (numVerts : nat) (corner_verts : list Z)
    (numLoops : nat) (clnors out : list float3) (v : Z) :
  BKE_mesh_normals_loop_to_vertex numVerts corner_verts numLoops clnors
    = Some out ->
  0 <= v < Z.of_nat numVerts ->
  (forall i, 0 <= i < Z.of_nat numLoops -> get corner_verts i <> Some v) ->
  get out v = Some (Float3 S754_nan S754_nan S754_nan).
Proof.
  intros H Hv Hloose.
  destruct (loop_to_vertex_spec _ _ _ _ _ _ H Hv) as (_ & sum & Hsum & Hout).
  assert (Hnil : vertex_corners corner_verts numLoops v = []).
  { destruct (vertex_corners corner_verts numLoops v) as [|i rest] eqn:E;
      [reflexivity|]. exfalso.
    assert (Hi : i ∈ vertex_corners corner_verts numLoops v)
      by (rewrite E; apply elem_of_cons; left; reflexivity).
    unfold vertex_corners in Hi. apply list_elem_of_filter in Hi as [Hi Hin].
    apply list_elem_of_fmap in Hin as (k & -> & Hk).
    apply elem_of_seq in Hk. apply (Hloose (Z.of_nat k)); [lia | exact Hi]. }
  rewrite Hnil in Hsum, Hout. injection Hsum as <-. rewrite Hout.
  reflexivity.
Qed.

Lemma loop_to_vertex_loose_vertex_witness :
  exists out,
    BKE_mesh_normals_loop_to_vertex 3 [0; 1; 0; 1] 4 four_corner_normals
      = Some out
    /\ get out 2 = Some (Float3 S754_nan S754_nan S754_nan).
Proof.
  destruct (BKE_mesh_normals_loop_to_vertex 3 [0; 1; 0; 1] 4 four_corner_normals)
    as [out|] eqn:H; [|vm_compute in H; discriminate].
  exists out. split; [reflexivity|].
  apply (loop_to_vertex_loose_vertex _ _ _ _ _ 2 H); [lia|].
  intros i Hi. assert (i = 0 \/ i = 1 \/ i = 2 \/ i = 3) as [->|[->|[->| ->]]] by lia;
    discriminate.
Defined.

(* ===================================================================== *)
(** ** The shape of the computed normals *)
(* ===================================================================== *)

Lemma accumulate_loop_length (acosf : float -> float) (positions : list float3)
    (corner_verts poly_verts : list Z) (pnor edvec_end : float3) (i_end : Z)
    (n : nat) (i : Z) (st st' : Z * float3 * float3 * list float3) :
  for_loop n i
    (accumulate_step acosf positions corner_verts poly_verts pnor edvec_end i_end)
    st = Some st' ->
  length st'.2 = length st.2.
Proof.
  revert i st. induction n as [|n IH]; intros i st H.
  - injection H as <-. reflexivity.
  - cbn [for_loop] in H. bind_case H as st1 Hst1.
    rewrite (IH _ _ H). destruct st as [[[i_curr v_curr] edvec_prev] vn].
    unfold accumulate_step in Hst1.
    bind_case Hst1 as a1 H1. bind_case Hst1 as a2 H2. bind_case Hst1 as a3 H3.
    bind_case Hst1 as a4 H4. bind_case Hst1 as a5 H5. bind_case Hst1 as a6 H6.
    injection Hst1 as <-. cbn [snd]. exact (put_length _ _ _ _ H6).
Qed.

Lemma poly_and_vert_loop_shape (acosf : float -> float)
    (positions : list float3) (corner_verts : list Z) (polys : list MPoly)
    (vn vn' pn : list float3) :
  poly_and_vert_loop acosf positions corner_verts polys vn = Some (pn, vn') ->
  length vn' = length vn
  /\ Forall2 (fun poly n =>
                inline_poly_normal positions
                  (slice corner_verts (loopstart poly) (totloop poly)) poly
                = Some n) polys pn.
Proof.
  revert vn pn. induction polys as [|poly rest IH]; intros vn pn H.
  - injection H as <- <-. split; [reflexivity | constructor].
  - cbn [poly_and_vert_loop] in H. bind_case H as r Hr. destruct r as [pnor vn1].
    bind_case H as r2 Hr2. destruct r2 as [pns vn2]. injection H as <- <-.
    destruct (IH _ _ Hr2) as [Hl Hall].
    unfold poly_and_vert_body in Hr.
    bind_case Hr as pnor' Hpn. bind_case Hr as ve Hve. bind_case Hr as vc Hvc.
    bind_case Hr as vp Hvp. bind_case Hr as vb Hvb. bind_case Hr as st Hst.
    injection Hr as <- <-.
    apply accumulate_loop_length in Hst. cbn [snd] in Hst.
    split; [congruence|]. constructor; assumption.
Qed.

(** [calculate_normals_poly_and_vert] returns one normal per vertex and one
    per polygon, and the normal of a polygon is the normalised Newell sum
    over its own corners, with the fallback (0,0,1): the accumulation into
    the vertex normals does not touch it. *)
Theorem poly_and_vert_normals_shape (acosf : float -> float)
    (positions : list float3) (polys : list MPoly) (corner_verts : list Z)
    (pn vn : list float3) :
  calculate_normals_poly_and_vert acosf positions polys corner_verts
    = Some (pn, vn) ->
  length vn = length positions /\ length pn = length polys
  /\ forall (i : nat) (poly : MPoly), polys !! i = Some poly ->
       exists sum,
         newell_sum positions
           (slice corner_verts (loopstart poly) (totloop poly)) (totloop poly)
           = Some sum
         /\ pn !! i = Some (normalize_or_z sum).
Proof.
  unfold calculate_normals_poly_and_vert, accumulated_vert_normals. intros H.
  bind_case H as r Hr. destruct r as [pn' acc]. injection H as <- <-.
  destruct (poly_and_vert_loop_shape _ _ _ _ _ _ _ Hr) as [Hl Hall].
  rewrite length_replicate in Hl.
  split; [rewrite length_zip_with; lia|].
  split; [symmetry; eapply Forall2_length, Hall|].
  intros i poly Hp.
  destruct (Forall2_lookup_l _ _ _ _ _ Hall Hp) as (n & Hn & Hin).
  unfold inline_poly_normal in Hin.
  replace (totloop poly - 1 + 1) with (totloop poly) in Hin by lia.
  bind_case Hin as sum Hsum. injection Hin as <-. eauto.
Qed.

(** A square in the plane z = 0: its normal is (0,0,1), whatever the
    accumulation does. *)
Definition square_positions : list float3 :=
  [point 0 0 0; point 1 0 0; point 1 1 0; point 0 1 0].

Lemma poly_and_vert_normals_shape_witness :
  exists pn vn,
    calculate_normals_poly_and_vert acos_line square_positions
      [mkMPoly 0 4 ME_SMOOTH] [0; 1; 2; 3] = Some (pn, vn)
    /\ length vn = 4%nat
    /\ pn = [Float3 zero zero one].
Proof.
  destruct (calculate_normals_poly_and_vert acos_line square_positions
              [mkMPoly 0 4 ME_SMOOTH] [0; 1; 2; 3]) as [[pn vn]|] eqn:H;
    [|vm_compute in H; discriminate].
  exists pn, vn. split; [reflexivity|].
  destruct (poly_and_vert_normals_shape _ _ _ _ _ _ H) as (Hv & Hp & Hall).
  split; [exact Hv|].
  destruct (Hall 0%nat _ eq_refl) as (sum & Hsum & Hpn).
  vm_compute in Hsum. injection Hsum as <-.
  destruct pn as [|n [|n' pn]]; try discriminate Hp.
  cbn in Hpn. injection Hpn as ->. vm_compute. reflexivity.
Defined.

(* ===================================================================== *)
(** ** The cached normals of a mesh *)
(* ===================================================================== *)

(** The part of [mesh->runtime] that holds the normals: the two arrays (null
    or not) and whether they are out of date. *)
Record MeshRuntime : Type := mkRuntime {
  rt_vert_normals : option (list float3);
  rt_poly_normals : option (list float3);
  vert_normals_dirty : bool;
  poly_normals_dirty : bool
}.

(** A [Mesh] with its runtime data: [totvert] and [totpoly] are the sizes of
    the position and polygon arrays. *)
Record MeshData : Type := mkMeshData {
  me_positions : list float3;
  me_polys : list MPoly;
  me_corner_verts : list Z;
  runtime : MeshRuntime
}.

Definition totvert (mesh : MeshData) : nat := length (me_positions mesh).
Definition totpoly (mesh : MeshData) : nat := length (me_polys mesh).

Definition set_runtime (mesh : MeshData) (rt : MeshRuntime) : MeshData :=
  mkMeshData (me_positions mesh) (me_polys mesh) (me_corner_verts mesh) rt.

(** [BKE_mesh_normals_tag_dirty]. *)
Definition BKE_mesh_normals_tag_dirty (mesh : MeshData) : MeshData :=
  set_runtime mesh
    (mkRuntime (rt_vert_normals (runtime mesh)) (rt_poly_normals (runtime mesh))
       true true).

(** [BKE_mesh_vertex_normals_clear_dirty], [BKE_mesh_poly_normals_clear_dirty]. *)
Definition BKE_mesh_vertex_normals_clear_dirty (mesh : MeshData) : MeshData :=
  set_runtime mesh
    (mkRuntime (rt_vert_normals (runtime mesh)) (rt_poly_normals (runtime mesh))
       false (poly_normals_dirty (runtime mesh))).

Definition BKE_mesh_poly_normals_clear_dirty (mesh : MeshData) : MeshData :=
  set_runtime mesh
    (mkRuntime (rt_vert_normals (runtime mesh)) (rt_poly_normals (runtime mesh))
       (vert_normals_dirty (runtime mesh)) false).

(** [BKE_mesh_vertex_normals_are_dirty], [BKE_mesh_poly_normals_are_dirty]. *)
Definition BKE_mesh_vertex_normals_are_dirty (mesh : MeshData) : bool :=
  vert_normals_dirty (runtime mesh).

Definition BKE_mesh_poly_normals_are_dirty (mesh : MeshData) : bool :=
  poly_normals_dirty (runtime mesh).

(** Writing the [new] values through a span over the start of an array; the
    span must fit in the array. *)
Definition write_span {A : Type} (arr new : list A) : option (list A) :=
  if (length new <=? length arr)%nat then Some (new ++ drop (length new) arr)
  else None.

Section NormalsCache.

Variable acosf : float -> float.
Variable normal_tri_v3 : float3 -> float3 -> float3 -> float3.
Variable normal_quad_v3 : float3 -> float3 -> float3 -> float3 -> float3.

(** What a block fresh from [MEM_malloc_arrayN] holds at each index. *)
Variable uninitialized : nat -> float3.

(** [BKE_mesh_vertex_normals_for_write], [BKE_mesh_poly_normals_for_write]:
    the array, allocated when the pointer is null, and the mesh. *)
Definition BKE_mesh_vertex_normals_for_write (mesh : MeshData)
    : list float3 * MeshData :=
  match rt_vert_normals (runtime mesh) with
  | Some arr => (arr, mesh)
  | None =>
      let arr := uninitialized <$> seq 0 (totvert mesh) in
      (arr,
       set_runtime mesh
         (mkRuntime (Some arr) (rt_poly_normals (runtime mesh))
            (vert_normals_dirty (runtime mesh))
            (poly_normals_dirty (runtime mesh))))
  end.

Definition BKE_mesh_poly_normals_for_write (mesh : MeshData)
    : list float3 * MeshData :=
  match rt_poly_normals (runtime mesh) with
  | Some arr => (arr, mesh)
  | None =>
      let arr := uninitialized <$> seq 0 (totpoly mesh) in
      (arr,
       set_runtime mesh
         (mkRuntime (rt_vert_normals (runtime mesh)) (Some arr)
            (vert_normals_dirty (runtime mesh))
            (poly_normals_dirty (runtime mesh))))
  end.

(** [calculate_normals_poly], and so [BKE_mesh_calc_normals_poly]: the
    normal of every polygon by [BKE_mesh_calc_poly_normal], on the corner
    array from the polygon's first corner on. *)
Definition calculate_normals_poly (positions : list float3)
    (polys : list MPoly) (corner_verts : list Z) : option (list float3) :=
  mapM (fun poly =>
          if loopstart poly <? 0 then None
          else BKE_mesh_calc_poly_normal normal_tri_v3 normal_quad_v3 poly
                 (drop (Z.to_nat (loopstart poly)) corner_verts) positions)
       polys.

(** [BKE_mesh_vertex_normals_ensure]: the pointer returned (null or the
    array) and the mesh after the call. *)
Definition BKE_mesh_vertex_normals_ensure (mesh : MeshData)
    : option (option (list float3) * MeshData) :=
  if negb (BKE_mesh_vertex_normals_are_dirty mesh) then
    Some (rt_vert_normals (runtime mesh), mesh)
  else if (totvert mesh =? 0)%nat then Some (None, mesh)
  else
    let '(vert_normals, mesh1) := BKE_mesh_vertex_normals_for_write mesh in
    let '(poly_normals, mesh2) := BKE_mesh_poly_normals_for_write mesh1 in
    '(pn, vn) ← calculate_normals_poly_and_vert acosf (me_positions mesh)
                   (me_polys mesh) (me_corner_verts mesh);
    vert_normals' ← write_span vert_normals vn;
    poly_normals' ← write_span poly_normals pn;
    let mesh3 :=
      set_runtime mesh2
        (mkRuntime (Some vert_normals') (Some poly_normals')
           (vert_normals_dirty (runtime mesh2))
           (poly_normals_dirty (runtime mesh2))) in
    Some (Some vert_normals',
          BKE_mesh_poly_normals_clear_dirty
            (BKE_mesh_vertex_normals_clear_dirty mesh3)).

(** [BKE_mesh_poly_normals_ensure]. *)
Definition BKE_mesh_poly_normals_ensure (mesh : MeshData)
    : option (option (list float3) * MeshData) :=
  if negb (BKE_mesh_poly_normals_are_dirty mesh) then
    Some (rt_poly_normals (runtime mesh), mesh)
  else if (totpoly mesh =? 0)%nat then Some (None, mesh)
  else
    let '(poly_normals, mesh1) := BKE_mesh_poly_normals_for_write mesh in
    pn ← calculate_normals_poly (me_positions mesh) (me_polys mesh)
           (me_corner_verts mesh);
    poly_normals' ← write_span poly_normals pn;
    let mesh2 :=
      set_runtime mesh1
        (mkRuntime (rt_vert_normals (runtime mesh1)) (Some poly_normals')
           (vert_normals_dirty (runtime mesh1))
           (poly_normals_dirty (runtime mesh1))) in
    Some (Some poly_normals', BKE_mesh_poly_normals_clear_dirty mesh2).

(** [BKE_mesh_calc_normals]. *)
Definition BKE_mesh_calc_normals (mesh : MeshData) : option MeshData :=
  snd <$> BKE_mesh_vertex_normals_ensure mesh.

End NormalsCache.

Lemma write_span_take {A : Type} (arr new arr' : list A) :
  write_span arr new = Some arr' ->
  take (length new) arr' = new /\ length arr' = length arr.
Proof.
  unfold write_span. destruct (length new <=? length arr)%nat eqn:E;
    [|discriminate].
  intros [= <-]. apply Nat.leb_le in E. split.
  - rewrite take_app_length. reflexivity.
  - rewrite length_app, length_drop. lia.
Qed.

(** A second [BKE_mesh_vertex_normals_ensure] returns the same array as the
    first and changes nothing: the first call leaves the normals clean, or,
    on a mesh without vertices, returns null without touching the mesh. *)
Theorem vertex_normals_ensure_stable (acosf : float -> float)
    (uninitialized uninitialized' : nat -> float3) (mesh mesh' : MeshData)
    (r : option (list float3)) :
  BKE_mesh_vertex_normals_ensure acosf uninitialized mesh = Some (r, mesh') ->
  BKE_mesh_vertex_normals_ensure acosf uninitialized' mesh' = Some (r, mesh').
Proof.
  unfold BKE_mesh_vertex_normals_ensure. intros H.
  destruct (negb (BKE_mesh_vertex_normals_are_dirty mesh)) eqn:Ed.
  - injection H as <- <-. rewrite Ed. reflexivity.
  - destruct (totvert mesh =? 0)%nat eqn:E0.
    + injection H as <- <-. rewrite Ed, E0. reflexivity.
    + destruct (BKE_mesh_vertex_normals_for_write uninitialized mesh)
        as [varr mesh1].
      destruct (BKE_mesh_poly_normals_for_write uninitialized mesh1)
        as [parr mesh2].
      bind_case H as c Hc. destruct c as [pn vn].
      bind_case H as varr' Hv. bind_case H as parr' Hp.
      injection H as <- <-. reflexivity.
Qed.

(** Two triangles as a mesh whose normals were never computed. *)
Definition two_triangles_data : MeshData :=
  mkMeshData two_triangles_positions two_triangles_polys
    two_triangles_corner_verts (mkRuntime None None true true).

Lemma vertex_normals_ensure_stable_witness :
  exists r mesh',
    BKE_mesh_vertex_normals_ensure acos_line (fun _ => zero_v3)
      two_triangles_data = Some (Some r, mesh')
    /\ BKE_mesh_vertex_normals_ensure acos_line (fun _ => point 1 1 1) mesh'
       = Some (Some r, mesh')
    /\ length r = 6%nat.
Proof.
  destruct (BKE_mesh_vertex_normals_ensure acos_line (fun _ => zero_v3)
              two_triangles_data) as [[[r|] mesh']|] eqn:H;
    [|vm_compute in H; discriminate..].
  exists r, mesh'. split; [reflexivity|].
  split; [exact (vertex_normals_ensure_stable _ _ _ _ _ _ H)|].
  vm_compute in H. injection H as <- _. reflexivity.
Defined.

(** On a mesh with vertices whose vertex normals are dirty,
    [BKE_mesh_vertex_normals_ensure] computes the vertex and the polygon
    normals together with [calculate_normals_poly_and_vert], stores both,
    whatever the arrays held, and clears both dirty flags: a
    [BKE_mesh_poly_normals_ensure] that follows returns those polygon
    normals and computes nothing. *)
Theorem vertex_normals_ensure_computes (acosf : float -> float)
    (uninitialized : nat -> float3) (mesh mesh' : MeshData)
    (r : option (list float3)) :
  BKE_mesh_vertex_normals_ensure acosf uninitialized mesh = Some (r, mesh') ->
  BKE_mesh_vertex_normals_are_dirty mesh = true ->
  me_positions mesh <> [] ->
  exists pn vn varr parr,
    calculate_normals_poly_and_vert acosf (me_positions mesh) (me_polys mesh)
      (me_corner_verts mesh) = Some (pn, vn)
    /\ r = Some varr
    /\ take (totvert mesh) varr = vn
    /\ take (totpoly mesh) parr = pn
    /\ mesh' = mkMeshData (me_positions mesh) (me_polys mesh)
                 (me_corner_verts mesh)
                 (mkRuntime (Some varr) (Some parr) false false)
    /\ forall tri quad uninitialized',
         BKE_mesh_poly_normals_ensure tri quad uninitialized' mesh'
         = Some (Some parr, mesh').
Proof.
  unfold BKE_mesh_vertex_normals_ensure. intros H Hd Hne. rewrite Hd in H.
  cbn [negb] in H.
  assert (E0 : (totvert mesh =? 0)%nat = false).
  { apply Nat.eqb_neq. unfold totvert. destruct (me_positions mesh);
      [congruence | discriminate]. }
  rewrite E0 in H.
  destruct (BKE_mesh_vertex_normals_for_write uninitialized mesh)
    as [varr0 mesh1] eqn:Ev.
  destruct (BKE_mesh_poly_normals_for_write uninitialized mesh1)
    as [parr0 mesh2] eqn:Ep.
  bind_case H as c Hc. destruct c as [pn vn].
  bind_case H as varr Hv. bind_case H as parr Hp. injection H as <- <-.
  destruct (poly_and_vert_normals_shape _ _ _ _ _ _ Hc) as (Hlv & Hlp & _).
  destruct (write_span_take _ _ _ Hv) as [Htv _].
  destruct (write_span_take _ _ _ Hp) as [Htp _].
  exists pn, vn, varr, parr. split; [exact Hc|]. split; [reflexivity|].
  split; [unfold totvert; rewrite <- Hlv; exact Htv|].
  split; [unfold totpoly; rewrite <- Hlp; exact Htp|].
  assert (Hdata : me_positions mesh2 = me_positions mesh
                  /\ me_polys mesh2 = me_polys mesh
                  /\ me_corner_verts mesh2 = me_corner_verts mesh).
  { unfold BKE_mesh_vertex_normals_for_write in Ev.
    unfold BKE_mesh_poly_normals_for_write in Ep.
    destruct (rt_vert_normals (runtime mesh)); injection Ev as _ <-;
      destruct (rt_poly_normals _); injection Ep as _ <-; repeat split. }
  destruct Hdata as (H1 & H2 & H3).
  split.
  { unfold BKE_mesh_poly_normals_clear_dirty,
      BKE_mesh_vertex_normals_clear_dirty, set_runtime.
    cbn [me_positions me_polys me_corner_verts runtime rt_vert_normals
         rt_poly_normals vert_normals_dirty poly_normals_dirty].
    rewrite H1, H2, H3. reflexivity. }
  intros tri quad uninitialized'. reflexivity.
Qed.

Lemma vertex_normals_ensure_computes_witness :
  exists varr mesh',
    BKE_mesh_vertex_normals_ensure acos_line (fun _ => zero_v3)
      two_triangles_data = Some (Some varr, mesh')
    /\ (take 2 <$> rt_poly_normals (runtime mesh'))
       = Some [Float3 zero zero one; Float3 zero zero one]
    /\ BKE_mesh_poly_normals_are_dirty mesh' = false.
Proof.
  destruct (BKE_mesh_vertex_normals_ensure acos_line (fun _ => zero_v3)
              two_triangles_data) as [[r mesh']|] eqn:H;
    [|vm_compute in H; discriminate].
  destruct (vertex_normals_ensure_computes _ _ _ _ _ H eq_refl)
    as (pn & vn & varr & parr & Hc & -> & _ & Hpn & -> & _); [discriminate|].
  exists varr. eexists. split; [reflexivity|].
  cbn [runtime rt_poly_normals fmap option_fmap option_map].
  split; [|reflexivity]. f_equal. vm_compute in Hc. injection Hc as <- _.
  exact Hpn.
Defined.

(** On a mesh with polygons whose polygon normals are dirty,
    [BKE_mesh_poly_normals_ensure] computes the normal of every polygon by
    [BKE_mesh_calc_poly_normal], stores them and clears the polygon flag
    only: the vertex normals and their dirty flag are as before. *)
Theorem poly_normals_ensure_computes
    (normal_tri_v3 : float3 -> float3 -> float3 -> float3)
    (normal_quad_v3 : float3 -> float3 -> float3 -> float3 -> float3)
    (uninitialized : nat -> float3) (mesh mesh' : MeshData)
    (r : option (list float3)) :
  BKE_mesh_poly_normals_ensure normal_tri_v3 normal_quad_v3 uninitialized mesh
    = Some (r, mesh') ->
  BKE_mesh_poly_normals_are_dirty mesh = true ->
  me_polys mesh <> [] ->
  exists parr,
    r = Some parr
    /\ mesh' = mkMeshData (me_positions mesh) (me_polys mesh)
                 (me_corner_verts mesh)
                 (mkRuntime (rt_vert_normals (runtime mesh)) (Some parr)
                    (vert_normals_dirty (runtime mesh)) false)
    /\ forall (i : nat) (poly : MPoly), me_polys mesh !! i = Some poly ->
         exists n,
           BKE_mesh_calc_poly_normal normal_tri_v3 normal_quad_v3 poly
             (drop (Z.to_nat (loopstart poly)) (me_corner_verts mesh))
             (me_positions mesh) = Some n
           /\ parr !! i = Some n.
Proof.
  unfold BKE_mesh_poly_normals_ensure. intros H Hd Hne. rewrite Hd in H.
  cbn [negb] in H.
  assert (E0 : (totpoly mesh =? 0)%nat = false).
  { apply Nat.eqb_neq. unfold totpoly. destruct (me_polys mesh);
      [congruence | discriminate]. }
  rewrite E0 in H.
  destruct (BKE_mesh_poly_normals_for_write uninitialized mesh)
    as [parr0 mesh1] eqn:Ep.
  bind_case H as pn Hpn. bind_case H as parr Hp. injection H as <- <-.
  exists parr. split; [reflexivity|]. split.
  { unfold BKE_mesh_poly_normals_for_write in Ep.
    destruct (rt_poly_normals (runtime mesh)); injection Ep as _ <-;
      reflexivity. }
  intros i poly Hi.
  apply mapM_Some in Hpn.
  destruct (Forall2_lookup_l _ _ _ _ _ Hpn Hi) as (n & Hn & Hcalc).
  destruct (loopstart poly <? 0); [discriminate|].
  exists n. split; [exact Hcalc|].
  destruct (write_span_take _ _ _ Hp) as [Htake _].
  rewrite <- (lookup_take_lt parr (length pn) i)
    by (eapply lookup_lt_Some, Hn).
  rewrite Htake. exact Hn.
Qed.

(** A pentagon in the plane z = 0, whose vertex normals are clean. *)
Definition pentagon_data : MeshData :=
  mkMeshData [point 0 0 0; point 2 0 0; point 3 2 0; point 1 3 0; point (-1) 2 0]
    [mkMPoly 0 5 ME_SMOOTH] [0; 1; 2; 3; 4]
    (mkRuntime (Some (replicate 5 (point 0 0 1))) None false true).

Lemma poly_normals_ensure_computes_witness :
  exists mesh',
    BKE_mesh_poly_normals_ensure (fun a _ _ => a) (fun a _ _ _ => a)
      (fun _ => zero_v3) pentagon_data
    = Some (Some [Float3 zero zero one], mesh')
    /\ rt_vert_normals (runtime mesh') = Some (replicate 5 (point 0 0 1))
    /\ BKE_mesh_vertex_normals_are_dirty mesh' = false.
Proof.
  destruct (BKE_mesh_poly_normals_ensure (fun a _ _ => a) (fun a _ _ _ => a)
              (fun _ => zero_v3) pentagon_data) as [[r mesh']|] eqn:H;
    [|vm_compute in H; discriminate].
  destruct (poly_normals_ensure_computes _ _ _ _ _ _ H eq_refl)
    as (parr & -> & -> & _); [discriminate|].
  assert (Hparr : parr = [Float3 zero zero one]).
  { pose proof H as H2. vm_compute in H2. injection H2 as <-. reflexivity. }
  subst parr. eexists. split; [reflexivity|]. split; reflexivity.
Defined.

(* ===================================================================== *)
(** ** [mesh_normals_loop_custom_set] *)
(* ===================================================================== *)

(** "Set all given zero vectors to their default value": the first [n]
    custom normals, against the array of defaults. *)
Definition set_default_normals (defaults : list float3) (n : nat)
    (r_custom_loopnors : list float3) : option (list float3) :=
  for_loop n 0
    (fun i custom =>
       nor ← get custom i;
       if is_zero_v3 nor then d ← get defaults i; put custom i d
       else Some custom)
    r_custom_loopnors.

Section SharpenPass.

Variable m : Mesh.
Variable arr : MLoopNorSpaceArray.
Variable r_custom_loopnors : list float3.

(** The tagging of "the edge between previous loop's face and current's
    one" as sharp. *)
Definition sharpen_between (lidx corner_prev : Z) (edges : list MEdge)
    : option (list MEdge) :=
  pi ← get (loop_to_poly m) lidx;
  mp ← get (polys m) pi;
  let mlp :=
    if lidx =? loopstart mp then loopstart mp + totloop mp - 1 else lidx - 1 in
  edge ← get (corner_edges m) lidx;
  edge_p ← get (corner_edges m) mlp;
  prev_edge ← get (corner_edges m) corner_prev;
  let e := if prev_edge =? edge_p then prev_edge else edge in
  me ← get edges e;
  put edges e (mkMEdge (v1 me) (v2 me) (Z.lor (eflag me) ME_SHARP)).

(** One turn of the [while (loops)] loop over the corners of a fan: the
    state is [org_nor], [corner_prev], the edges and [done_loops]. *)
Definition sharpen_step (lidx : Z)
    (st : option float3 * Z * list MEdge * list bool)
    : option (option float3 * Z * list MEdge * list bool) :=
  let '(org_nor, corner_prev, edges, done_loops) := st in
  nor ← get r_custom_loopnors lidx;
  '(org_nor', edges') ←
    (match org_nor with
     | None => Some (Some nor, edges)
     | Some org =>
         if ltb (dot_v3v3 org nor) LNOR_SPACE_TRIGO_THRESHOLD then
           (* current normal differs too much from org one *)
           edges' ← sharpen_between lidx corner_prev edges;
           Some (Some nor, edges')
         else Some (org_nor, edges)
     end);
  done' ← put done_loops lidx true;
  Some (org_nor', lidx, edges', done').

(** The check "between last and first loops" after the walk. *)
Definition sharpen_last (ls : list Z) (org_nor : option float3)
    (corner_prev : Z) (edges : list MEdge) : option (list MEdge) :=
  match ls, org_nor with
  | lidx :: _, Some org =>
      nor ← get r_custom_loopnors lidx;
      if ltb (dot_v3v3 org nor) LNOR_SPACE_TRIGO_THRESHOLD
      then sharpen_between lidx corner_prev edges
      else Some edges
  | _, _ => Some edges
  end.

(** The body of the loop over the corners that adds sharp edges where the
    custom normals of a fan differ; the state is [done_loops] and the
    edges. *)
Definition sharpen_pass_corner (i : Z) (st : list bool * list MEdge)
    : option (list bool * list MEdge) :=
  let '(done_loops, edges) := st in
  space ← get (lspacearr arr) i;
  match space with
  | None =>
      done' ← put done_loops i true;
      Some (done', edges)
  | Some sp =>
      done ← get done_loops i;
      if done : bool then Some (done_loops, edges)
      else
        s ← spaces arr !! sp;
        if space_is_single s then
          done' ← put done_loops i true;
          Some (done', edges)
        else
          '(org_nor, corner_prev, edges', done') ←
            foldM sharpen_step (loops s) (None, -1, edges, done_loops);
          edges'' ← sharpen_last (loops s) org_nor corner_prev edges';
          Some (done', edges'')
  end.

Definition sharpen_pass (numLoops : nat) (done_loops : list bool)
    (edges : list MEdge) : option (list bool * list MEdge) :=
  for_loop numLoops 0 sharpen_pass_corner (done_loops, edges).

End SharpenPass.

Section CustomSet.

Variables cosf sinf acosf : float -> float.
Variable fuel : nat.

(** [mesh_normals_loop_custom_set]: the edges, the custom normals and the
    codes [r_clnors_data] after the call. *)
Definition mesh_normals_loop_custom_set (m : Mesh)
    (r_custom_loopnors : list float3) (r_clnors_data : list short2)
    (use_vertices : bool)
    : option (list MEdge * list float3 * list short2) :=
  let numLoops := length (corner_verts m) in
  let numVerts := length (positions m) in
  let l2p := build_loop_to_poly_map (polys m) numLoops in
  (* in this case we always consider split nors as ON, and do not want to
     use angle to define smooth fans *)
  '(lnors, _, spacearr) ←
    BKE_mesh_normals_loop_split cosf sinf acosf fuel m
      (replicate numLoops zero_v3) true M_PI (Some l2p) true None;
  arr ← spacearr;
  (* set all given zero vectors to their default value *)
  custom ←
    (if use_vertices
     then set_default_normals (vert_normals m) numVerts r_custom_loopnors
     else set_default_normals lnors numLoops r_custom_loopnors);
  '(done_loops, edges, arr') ←
    (if negb use_vertices then
       let m' :=
         mkMesh (positions m) (medges m) (corner_verts m) (corner_edges m)
                (polys m) l2p (polynors m) (vert_normals m) in
       '(done_loops, edges) ←
         sharpen_pass m' arr custom numLoops (replicate numLoops false)
           (medges m);
       (* and now, recompute our new auto lnors and lnor spacearr *)
       let m'' :=
         mkMesh (positions m) edges (corner_verts m) (corner_edges m)
                (polys m) l2p (polynors m) (vert_normals m) in
       '(_, _, spacearr') ←
         BKE_mesh_normals_loop_split cosf sinf acosf fuel m'' lnors true M_PI
           (Some l2p) true None;
       arr' ← spacearr';
       Some (done_loops, edges, arr')
     else Some (replicate numLoops true, medges m, arr));
  (* convert plain object-space custom normals to our lnor space-encoded
     ones *)
  '(_, clnors) ←
    encode_pass acosf arr' (corner_verts m) use_vertices custom numLoops
      done_loops r_clnors_data;
  Some (edges, custom, clnors).

(** [BKE_mesh_normals_loop_custom_set] and
    [BKE_mesh_normals_loop_custom_from_verts_set]. *)
Definition BKE_mesh_normals_loop_custom_set (m : Mesh)
    (r_custom_loopnors : list float3) (r_clnors_data : list short2) :=
  mesh_normals_loop_custom_set m r_custom_loopnors r_clnors_data false.

Definition BKE_mesh_normals_loop_custom_from_verts_set (m : Mesh)
    (r_custom_vertnors : list float3) (r_clnors_data : list short2) :=
  mesh_normals_loop_custom_set m r_custom_vertnors r_clnors_data true.

End CustomSet.

(** The edges [es'] are the edges [es] with the sharp flag added to some of
    them: nothing else of an edge changes and no flag is cleared. *)
Definition sharpened (es es' : list MEdge) : Prop :=
  length es' = length es
  /\ forall (e : nat) (me : MEdge), es !! e = Some me ->
       exists bit : bool, es' !! e = Some (tag_edge me bit).

Lemma sharpened_refl (es : list MEdge) : sharpened es es.
Proof. split; [reflexivity|]. intros e me H. exists false. exact H. Qed.

Lemma tag_edge_twice (me : MEdge) (b1 b2 : bool) :
  tag_edge (tag_edge me b1) b2 = tag_edge me (b1 || b2).
Proof.
  destruct b1, b2; cbn; try reflexivity.
  unfold tag_edge. cbn [v1 v2 eflag]. f_equal.
  rewrite <- Z.lor_assoc, Z.lor_diag. reflexivity.
Qed.

Lemma sharpened_trans (es1 es2 es3 : list MEdge) :
  sharpened es1 es2 -> sharpened es2 es3 -> sharpened es1 es3.
Proof.
  intros [Hl1 H1] [Hl2 H2]. split; [congruence|].
  intros e me Hme. destruct (H1 e me Hme) as [b1 Hb1].
  destruct (H2 e _ Hb1) as [b2 Hb2]. exists (b1 || b2).
  rewrite Hb2, tag_edge_twice. reflexivity.
Qed.

Lemma sharpen_between_sharpened (m : Mesh) (lidx corner_prev : Z)
    (edges edges' : list MEdge) :
  sharpen_between m lidx corner_prev edges = Some edges' ->
  sharpened edges edges'.
Proof.
  unfold sharpen_between. intros H.
  bind_case H as pi Hpi. bind_case H as mp Hmp. bind_case H as edge He.
  bind_case H as edge_p Hep. bind_case H as prev_edge Hpe.
  bind_case H as me Hme. set (e := if prev_edge =? edge_p then _ else _) in *.
  split; [exact (put_length _ _ _ _ H)|].
  intros k mk Hk. destruct (decide (e = Z.of_nat k)) as [Heq | Hne].
  - exists true. rewrite <- get_of_nat, <- Heq, (put_lookup_eq _ _ _ _ H).
    rewrite Heq, get_of_nat, Hk in Hme. injection Hme as <-. reflexivity.
  - exists false. rewrite (put_lookup_ne _ _ _ _ _ H Hne). exact Hk.
Qed.

Lemma sharpen_walk_sharpened (m : Mesh) (custom : list float3) (ls : list Z)
    (st st' : option float3 * Z * list MEdge * list bool) :
  foldM (sharpen_step m custom) ls st = Some st' ->
  sharpened st.1.2 st'.1.2.
Proof.
  revert st. induction ls as [|l ls IH]; intros st H.
  - injection H as <-. apply sharpened_refl.
  - cbn [foldM] in H. bind_case H as st1 Hst1.
    apply (sharpened_trans _ st1.1.2); [|exact (IH _ H)].
    destruct st as [[[org cp] es] dl]. unfold sharpen_step in Hst1.
    bind_case Hst1 as nor Hnor. bind_case Hst1 as r Hr. destruct r as [org' es'].
    bind_case Hst1 as d' Hd'. injection Hst1 as <-. cbn [fst snd].
    destruct org as [o|]; [|injection Hr as _ <-; apply sharpened_refl].
    destruct (ltb (dot_v3v3 o nor) LNOR_SPACE_TRIGO_THRESHOLD).
    + bind_case Hr as es1 Hes1. injection Hr as _ <-.
      exact (sharpen_between_sharpened _ _ _ _ _ Hes1).
    + injection Hr as _ <-. apply sharpened_refl.
Qed.

Lemma sharpen_pass_corner_sharpened (m : Mesh) (arr : MLoopNorSpaceArray)
    (custom : list float3) (i : Z) (st st' : list bool * list MEdge) :
  sharpen_pass_corner m arr custom i st = Some st' -> sharpened st.2 st'.2.
Proof.
  destruct st as [dl es]. unfold sharpen_pass_corner. intros H.
  bind_case H as space Hsp. destruct space as [sp|].
  2:{ bind_case H as d' Hd'. injection H as <-. apply sharpened_refl. }
  bind_case H as done Hdone. destruct done.
  { injection H as <-. apply sharpened_refl. }
  bind_case H as s Hs. destruct (space_is_single s).
  { bind_case H as d' Hd'. injection H as <-. apply sharpened_refl. }
  bind_case H as w Hw. destruct w as [[[org cp] es1] d1].
  bind_case H as es2 Hes2. injection H as <-. cbn [snd].
  apply (sharpened_trans _ es1).
  - exact (sharpen_walk_sharpened _ _ _ _ _ Hw).
  - unfold sharpen_last in Hes2. destruct (loops s) as [|lidx rest];
      [injection Hes2 as <-; apply sharpened_refl|].
    destruct org as [o|]; [|injection Hes2 as <-; apply sharpened_refl].
    bind_case Hes2 as nor Hnor.
    destruct (ltb (dot_v3v3 o nor) LNOR_SPACE_TRIGO_THRESHOLD).
    + exact (sharpen_between_sharpened _ _ _ _ _ Hes2).
    + injection Hes2 as <-. apply sharpened_refl.
Qed.

Lemma sharpen_pass_sharpened (m : Mesh) (arr : MLoopNorSpaceArray)
    (custom : list float3) (n : nat) (i : Z) (st st' : list bool * list MEdge) :
  for_loop n i (sharpen_pass_corner m arr custom) st = Some st' ->
  sharpened st.2 st'.2.
Proof.
  revert i st. induction n as [|n IH]; intros i st H.
  - injection H as <-. apply sharpened_refl.
  - cbn [for_loop] in H. bind_case H as st1 Hst1.
    apply (sharpened_trans _ st1.2); [|exact (IH _ _ H)].
    exact (sharpen_pass_corner_sharpened _ _ _ _ _ _ Hst1).
Qed.

(** [mesh_normals_loop_custom_set] "will never unsharp edges": every edge
    comes back as it was, or with the sharp flag added; and when the custom
    normals are given per vertex the edges are not touched at all. *)
Theorem custom_set_never_unsharps (cosf sinf acosf : float -> float)
    (fuel : nat) (m : Mesh) (r_custom_loopnors custom : list float3)
    (r_clnors_data codes : list short2) (use_vertices : bool)
    (edges : list MEdge) :
  mesh_normals_loop_custom_set cosf sinf acosf fuel m r_custom_loopnors
    r_clnors_data use_vertices = Some (edges, custom, codes) ->
  length edges = length (medges m)
  /\ (forall (e : nat) (me : MEdge), medges m !! e = Some me ->
        exists bit : bool,
          edges !! e
          = Some (if bit
                  then mkMEdge (v1 me) (v2 me) (Z.lor (eflag me) ME_SHARP)
                  else me))
  /\ (use_vertices = true -> edges = medges m).
Proof.
  unfold mesh_normals_loop_custom_set. cbv zeta. intros H.
  bind_case H as r Hr. destruct r as [[lnors cl] spacearr].
  bind_case H as arr Harr. bind_case H as cust Hcust.
  bind_case H as r2 Hr2. destruct r2 as [[dl es] arr'].
  bind_case H as r3 Hr3. destruct r3 as [dl' codes']. injection H as <- _ _.
  assert (Hs : sharpened (medges m) es /\ (use_vertices = true -> es = medges m)).
  { destruct use_vertices; cbn [negb] in Hr2.
    - injection Hr2 as _ <- _. split; [apply sharpened_refl | reflexivity].
    - bind_case Hr2 as p Hp. destruct p as [dl0 es0].
      bind_case Hr2 as r4 Hr4. destruct r4 as [[l4 c4] sa4].
      bind_case Hr2 as a4 Ha4. injection Hr2 as _ <- _.
      split; [|discriminate].
      exact (sharpen_pass_sharpened _ _ _ _ _ _ _ Hp). }
  destruct Hs as [[Hl Hall] Hv]. split; [exact Hl|]. split; [|exact Hv].
  intros e me Hme. destruct (Hall e me Hme) as [bit Hb]. exists bit. exact Hb.
Qed.

(** On the fan, with the normal (1,0,0) asked for the corner 3 and (0,0,1)
    for the others: the spokes 1 and 2, on both sides of that corner, come
    back sharp, and the spoke 0 as it was. *)
Definition hex_custom_split : list float3 :=
  <[3%nat := point 1 0 0]> (replicate 18 (point 0 0 1)).

Lemma custom_set_never_unsharps_witness :
  exists edges custom codes,
    mesh_normals_loop_custom_set cos_half cos_half acos_line 18 hex_mesh
      hex_custom_split (replicate 18 (0, 0)) false
    = Some (edges, custom, codes)
    /\ edges !! 0%nat = Some (mkMEdge 0 1 0)
    /\ edges !! 1%nat = Some (mkMEdge 0 2 ME_SHARP)
    /\ edges !! 2%nat = Some (mkMEdge 0 3 ME_SHARP)
    /\ length edges = 12%nat.
Proof.
  destruct (mesh_normals_loop_custom_set cos_half cos_half acos_line 18 hex_mesh
              hex_custom_split (replicate 18 (0, 0)) false)
    as [[[edges custom] codes]|] eqn:H; [|vm_compute in H; discriminate].
  exists edges, custom, codes. split; [reflexivity|].
  destruct (custom_set_never_unsharps _ _ _ _ _ _ _ _ _ _ _ H) as (Hl & _ & _).
  vm_compute in H. injection H as <- _ _.
  repeat split; try reflexivity.
Defined.

Lemma set_default_normals_uniform (defaults : list float3) (n : float3)
    (k numLoops : nat) (custom : list float3) :
  is_zero_v3 n = false ->
  set_default_normals defaults numLoops (replicate k n) = Some custom ->
  custom = replicate k n.
Proof.
  intros Hn. unfold set_default_normals. generalize 0.
  induction numLoops as [|j IH]; intros i H.
  - injection H as <-. reflexivity.
  - cbn [for_loop] in H. bind_case H as c Hc. bind_case Hc as nor Hnor.
    apply get_elem_of, elem_of_replicate in Hnor as [-> _]. rewrite Hn in Hc.
    injection Hc as <-. exact (IH _ H).
Qed.

(** With one and the same custom normal for all corners the walk over a fan
    tags nothing. *)
Lemma sharpen_walk_uniform (m : Mesh) (n : float3) (k : nat) (ls : list Z)
    (org : option float3) (cp : Z) (es : list MEdge) (dl : list bool)
    (st' : option float3 * Z * list MEdge * list bool) :
  ltb (dot_v3v3 n n) LNOR_SPACE_TRIGO_THRESHOLD = false ->
  org = None \/ org = Some n ->
  foldM (sharpen_step m (replicate k n)) ls (org, cp, es, dl) = Some st' ->
  (st'.1.1.1 = None \/ st'.1.1.1 = Some n) /\ st'.1.2 = es.
Proof.
  intros Hn. revert org cp dl. induction ls as [|l ls IH]; intros org cp dl Horg H.
  - injection H as <-. split; [exact Horg | reflexivity].
  - cbn [foldM] in H. bind_case H as st1 Hst1. unfold sharpen_step in Hst1.
    bind_case Hst1 as nor Hnor.
    apply get_elem_of, elem_of_replicate in Hnor as [-> _].
    bind_case Hst1 as r Hr. destruct r as [org' es'].
    bind_case Hst1 as d' Hd'. injection Hst1 as <-.
    assert (Hr' : org' = Some n /\ es' = es).
    { destruct Horg as [-> | ->].
      - injection Hr as <- <-. split; reflexivity.
      - rewrite Hn in Hr. injection Hr as <- <-. split; reflexivity. }
    destruct Hr' as [-> ->]. apply (IH _ _ _ (or_intror eq_refl) H).
Qed.

Lemma sharpen_pass_uniform (m : Mesh) (arr : MLoopNorSpaceArray) (n : float3)
    (k : nat) (j : nat) (i : Z) (st st' : list bool * list MEdge) :
  ltb (dot_v3v3 n n) LNOR_SPACE_TRIGO_THRESHOLD = false ->
  for_loop j i (sharpen_pass_corner m arr (replicate k n)) st = Some st' ->
  st'.2 = st.2.
Proof.
  intros Hn. revert i st. induction j as [|j IH]; intros i st H.
  - injection H as <-. reflexivity.
  - cbn [for_loop] in H. bind_case H as st1 Hst1. rewrite (IH _ _ H).
    destruct st as [dl es]. unfold sharpen_pass_corner in Hst1.
    bind_case Hst1 as space Hsp. destruct space as [sp|].
    2:{ bind_case Hst1 as d' Hd'. injection Hst1 as <-. reflexivity. }
    bind_case Hst1 as done Hdone. destruct done.
    { injection Hst1 as <-. reflexivity. }
    bind_case Hst1 as s Hs. destruct (space_is_single s).
    { bind_case Hst1 as d' Hd'. injection Hst1 as <-. reflexivity. }
    bind_case Hst1 as w Hw. destruct w as [[[org cp] es1] d1].
    bind_case Hst1 as es2 Hes2. injection Hst1 as <-. cbn [snd].
    destruct (sharpen_walk_uniform _ _ _ _ _ _ _ _ _ Hn (or_introl eq_refl) Hw)
      as [Horg Hes]. cbn [fst snd] in Horg, Hes. subst es1.
    unfold sharpen_last in Hes2. destruct (loops s) as [|lidx rest];
      [injection Hes2 as <-; reflexivity|].
    destruct Horg as [-> | ->]; [injection Hes2 as <-; reflexivity|].
    bind_case Hes2 as nor Hnor.
    apply get_elem_of, elem_of_replicate in Hnor as [-> _]. rewrite Hn in Hes2.
    injection Hes2 as <-. reflexivity.
Qed.

(** Asking [BKE_mesh_normals_loop_custom_set] for one and the same normal on
    all corners (a vector that is not zero and whose dot product with itself
    is not below the threshold) changes neither the edges nor the normals
    asked for: the fans are left whole. *)
Theorem custom_set_uniform_keeps_edges (cosf sinf acosf : float -> float)
    (fuel : nat) (m : Mesh) (n : float3) (k : nat) (custom : list float3)
    (r_clnors_data codes : list short2) (edges : list MEdge) :
  BKE_mesh_normals_loop_custom_set cosf sinf acosf fuel m (replicate k n)
    r_clnors_data = Some (edges, custom, codes) ->
  is_zero_v3 n = false ->
  ltb (dot_v3v3 n n) LNOR_SPACE_TRIGO_THRESHOLD = false ->
  edges = medges m /\ custom = replicate k n.
Proof.
  unfold BKE_mesh_normals_loop_custom_set, mesh_normals_loop_custom_set.
  cbv zeta. cbn [negb]. intros H Hnz Hn.
  bind_case H as r Hr. destruct r as [[lnors cl] spacearr].
  bind_case H as arr Harr. bind_case H as cust Hcust.
  apply (set_default_normals_uniform _ _ _ _ _ Hnz) in Hcust. subst cust.
  bind_case H as r2 Hr2. destruct r2 as [[dl es] arr'].
  bind_case H as r3 Hr3. destruct r3 as [dl' codes']. injection H as <- <- _.
  split; [|reflexivity].
  bind_case Hr2 as p Hp. destruct p as [dl0 es0].
  bind_case Hr2 as r4 Hr4. destruct r4 as [[l4 c4] sa4].
  bind_case Hr2 as a4 Ha4. injection Hr2 as _ <- _.
  exact (sharpen_pass_uniform _ _ _ _ _ _ _ _ Hn Hp).
Qed.

Lemma custom_set_uniform_keeps_edges_witness :
  exists codes,
    BKE_mesh_normals_loop_custom_set cos_half cos_half acos_line 18 hex_mesh
      (replicate 18 (point 0 0 1)) (replicate 18 (0, 0))
    = Some (medges hex_mesh, replicate 18 (point 0 0 1), codes).
Proof.
  destruct (BKE_mesh_normals_loop_custom_set cos_half cos_half acos_line 18
              hex_mesh (replicate 18 (point 0 0 1)) (replicate 18 (0, 0)))
    as [[[edges custom] codes]|] eqn:H; [|vm_compute in H; discriminate].
  destruct (custom_set_uniform_keeps_edges _ _ _ _ _ _ _ _ _ _ _ H)
    as [-> ->]; [reflexivity..|].
  exists codes. reflexivity.
Defined.





(* ===================================================================== *)
(** ** Tagging by angle a second time *)
(* ===================================================================== *)

(** The mesh [m] with the edges [es]. *)
Definition with_edges (m : Mesh) (es : list MEdge) : Mesh :=
  mkMesh (positions m) es (corner_verts m) (corner_edges m) (polys m)
         (loop_to_poly m) (polynors m) (vert_normals m).

Section TagAgain.

Variable m : Mesh.
Variable check_angle : bool.
Variable do_sharp_edges_tag : bool.
Variable split_angle_cos : float.
Variable n : nat.
Variable all : list Visit.
Variable es2 : list MEdge.

(** The edges [es2] are those of [m] with the sharp flag added where the
    whole scan sets the bit of the edge. *)
Hypothesis es2_tagged : forall (e : Z) (me : MEdge),
  get (medges m) e = Some me ->
  exists b, edge_bit m check_angle split_angle_cos (edge_visits m e all) = Some b
            /\ get es2 e = Some (tag_edge me b).
Hypothesis all_pos : forall a, a ∈ all -> 0 <= vis_corner a.
Hypothesis all_NoDup : NoDup (vis_corner <$> all).

(** A turn of the scan does the same on the mesh with the edges [es2]. *)
Lemma sharp_tag_corner_again (pre post : list Visit) (v : Visit)
    (st st' : TagState) :
  all = pre ++ v :: post ->
  scan_inv m check_angle do_sharp_edges_tag split_angle_cos n pre st ->
  sharp_tag_corner m check_angle do_sharp_edges_tag split_angle_cos v st
    = Some st' ->
  sharp_tag_corner (with_edges m es2) check_angle do_sharp_edges_tag
    split_angle_cos v st = Some st'.
Proof.
  intros Hall [Hlen Hent _ _ _]. unfold sharp_tag_corner.
  cbn [with_edges corner_verts corner_edges vert_normals].
  intros H. bind_case H as vert_i Hvert. bind_case H as edge_i Hedge.
  bind_case H as e2l Hold. bind_case H as loopnors Hlnors.
  rewrite Hvert. cbn [mbind option_bind]. rewrite Hedge. cbn [mbind option_bind].
  rewrite Hold. cbn [mbind option_bind]. rewrite Hlnors. cbn [mbind option_bind].
  destruct (Z.lor e2l.1 e2l.2 =? 0) eqn:E0; [exact H|].
  destruct (e2l.2 =? INDEX_UNSET) eqn:E1; [|exact H].
  change (is_angle_sharp (with_edges m es2)) with (is_angle_sharp m).
  bind_case H as ang Hang. rewrite Hang. cbn [mbind option_bind].
  bind_case H as sharp Hsharp.
  enough (Hs2 : second_corner_sharp (with_edges m es2) (vis_poly v) edge_i vert_i
                  e2l.1 ang = Some sharp)
    by (rewrite Hs2; exact H).
  unfold second_corner_sharp in *. cbn [with_edges medges corner_verts].
  bind_case Hsharp as me Hme. bind_case Hsharp as v0 Hv0. injection Hsharp as <-.
  destruct (es2_tagged _ _ Hme) as (b & Hb & Hes2). rewrite Hes2, Hv0.
  cbn [mbind option_bind]. f_equal.
  (* the bit of the edge is the angle test of this turn *)
  assert (He0 : 0 <= edge_i < Z.of_nat n).
  { apply get_Some in Hold as [? Hold]. apply lookup_lt_Some in Hold. lia. }
  destruct (Hent _ He0) as [_ Hentry]. rewrite Hold in Hentry. symmetry in Hentry.
  assert (Hpre : exists a, edge_visits m edge_i pre = [a]
                           /\ poly_is_smooth (vis_poly a) = true
                           /\ e2l.1 = vis_corner a).
  { apply Z.eqb_neq in E0. apply Z.eqb_eq in E1.
    destruct (edge_visits m edge_i pre) as [|a [|b' [|c r]]] eqn:Hev;
      cbn [edge_entry] in Hentry.
    - injection Hentry as <-. exfalso. apply E0. reflexivity.
    - injection Hentry as <-. unfold first_entry in E1. cbn [snd] in E1.
      exists a. destruct (poly_is_smooth (vis_poly a)); [|discriminate].
      repeat split; reflexivity.
    - exfalso.
      destruct (second_entry_cases _ _ _ _ _ _ _ Hentry) as [-> | (-> & _ & _)];
        [discriminate|].
      cbn [snd] in E1.
      assert (0 <= vis_corner b').
      { apply all_pos. rewrite Hall. apply elem_of_app. left.
        apply (edge_visits_elem m edge_i). rewrite Hev. right. left. }
      unfold INDEX_UNSET in E1. lia.
    - injection Hentry as <-. discriminate. }
  destruct Hpre as (a & Hev & Hsm & Ha).
  assert (Hbit : edge_bit m check_angle split_angle_cos (edge_visits m edge_i all)
                 = Some ang).
  { rewrite Hall. unfold edge_visits in *. rewrite filter_app, Hev, filter_cons.
    rewrite decide_True by exact Hedge. cbn [app edge_bit].
    rewrite Hsm, <- Ha. exact Hang. }
  rewrite Hbit in Hb. injection Hb as <-.
  destruct ang; [rewrite !orb_true_r|]; reflexivity.
Qed.

Lemma sharp_tag_scan_again (post pre : list Visit) (st st' : TagState) :
  all = pre ++ post ->
  scan_inv m check_angle do_sharp_edges_tag split_angle_cos n pre st ->
  foldM (sharp_tag_corner m check_angle do_sharp_edges_tag split_angle_cos)
    post st = Some st' ->
  foldM (sharp_tag_corner (with_edges m es2) check_angle do_sharp_edges_tag
           split_angle_cos) post st = Some st'.
Proof.
  revert pre st. induction post as [|v post IH]; intros pre st Hall Hinv H.
  - exact H.
  - cbn [foldM] in *. bind_case H as st1 Hst1.
    rewrite (sharp_tag_corner_again pre post v st st1 Hall Hinv Hst1).
    cbn [mbind option_bind]. apply (IH (pre ++ [v])); [| |exact H].
    + rewrite <- app_assoc. exact Hall.
    + apply (sharp_tag_corner_inv _ _ _ _ _ _ _ _ _ Hinv Hst1).
      * intros a Ha. apply all_pos. rewrite Hall. apply elem_of_app. left. exact Ha.
      * rewrite Hall, fmap_app in all_NoDup.
        apply NoDup_app in all_NoDup as [Hnd _]. exact Hnd.
Qed.

End TagAgain.

Lemma zip_tag_edge_twice (es : list MEdge) (bits : list bool) :
  zip_with tag_edge (zip_with tag_edge es bits) bits = zip_with tag_edge es bits.
Proof.
  revert bits. induction es as [|me es IH]; intros [|b bits]; cbn [zip_with];
    try reflexivity.
  rewrite IH, tag_edge_twice, orb_diag. reflexivity.
Qed.

(** [BKE_edges_sharp_from_angle_set] called a second time, on the mesh with
    the edges the first call returned and with the same angle, returns these
    edges again: the sharp flags it has set do not make it set others. *)
Theorem angle_set_twice (cosf : float -> float) (m : Mesh)
    (split_angle : float) (edges' : list MEdge) :
  BKE_edges_sharp_from_angle_set cosf m split_angle = Some edges' ->
  corners_valid (polys m) ->
  BKE_edges_sharp_from_angle_set cosf (with_edges m edges') split_angle
  = Some edges'.
Proof.
  unfold BKE_edges_sharp_from_angle_set. intros H Hvalid.
  cbn [with_edges positions medges corner_verts corner_edges polys polynors].
  destruct (geb split_angle M_PI); [reflexivity|].
  bind_case H as r Hr. destruct r as [[tbl lnors'] es]. injection H as <-.
  unfold mesh_edges_sharp_tag in *. bind_case Hr as st Hst. injection Hr as _ _ <-.
  set (m' := mkMesh _ _ _ _ _ _ _ _) in *.
  cbn [medges m'] in *. unfold sharp_tag_scan in *. cbn [polys m'] in *.
  pose proof (sharp_tag_scan_spec m' true true _ _ _ Hst Hvalid) as Hinv.
  cbn [medges polys m'] in Hinv. destruct Hvalid as [Hpos Hnd].
  assert (Hlen : length (zip_with tag_edge (medges m) (ts_sharp_edges st))
                 = length (medges m)).
  { rewrite length_zip_with, (inv_bits_length _ _ _ _ _ _ _ Hinv eq_refl). lia. }
  rewrite Hlen.
  set (es2 := zip_with tag_edge (medges m) (ts_sharp_edges st)) in *.
  change (mkMesh (positions m) es2 (corner_verts m) (corner_edges m) (polys m)
            (build_loop_to_poly_map (polys m) (length (corner_verts m)))
            (polynors m) [])
    with (with_edges m' es2).
  rewrite (sharp_tag_scan_again m' true true _ (length (medges m))
             (corner_visits (polys m)) es2) with (pre := []) (st' := st).
  - cbn [mbind option_bind]. f_equal. apply zip_tag_edge_twice.
  - intros e me Hme. cbn [medges m'] in Hme.
    assert (He : 0 <= e < Z.of_nat (length (medges m))).
    { apply get_Some in Hme as [? Hme]. apply lookup_lt_Some in Hme. lia. }
    destruct (inv_bits _ _ _ _ _ _ _ Hinv eq_refl e He) as [[b Hb] Hbit].
    exists b. split; [rewrite <- Hbit; exact Hb|].
    apply get_Some in Hme as [? Hme]. apply get_Some in Hb as [_ Hb].
    apply get_Some. split; [lia|]. unfold es2.
    rewrite lookup_zip_with, Hme. cbn [mbind option_bind]. rewrite Hb. reflexivity.
  - intros a Ha. rewrite Forall_forall in Hpos. apply Hpos, Ha.
  - exact Hnd.
  - reflexivity.
  - apply scan_inv_init.
  - exact Hst.
Qed.

(** On the fan with the split angle 0 the first call tags the spokes, and
    the second call returns the same edges. *)
Lemma angle_set_twice_witness :
  exists edges',
    BKE_edges_sharp_from_angle_set cos_at_zero hex_mesh zero = Some edges'
    /\ edges' !! 1%nat = Some (mkMEdge 0 2 ME_SHARP)
    /\ BKE_edges_sharp_from_angle_set cos_at_zero (with_edges hex_mesh edges')
         zero = Some edges'.
Proof.
  destruct (BKE_edges_sharp_from_angle_set cos_at_zero hex_mesh zero)
    as [edges'|] eqn:H; [|vm_compute in H; discriminate].
  exists edges'. split; [reflexivity|]. split.
  - vm_compute in H. injection H as <-. reflexivity.
  - exact (angle_set_twice _ _ _ _ H hex_corners_valid).
Defined.

(* ===================================================================== *)
(** ** The two computations of the polygon normals *)
(* ===================================================================== *)

Lemma get_take {A : Type} (l : list A) (n : nat) (i : Z) :
  i < Z.of_nat n -> get (take n l) i = get l i.
Proof.
  intros Hi. unfold get. destruct (i <? 0) eqn:E; [reflexivity|].
  apply Z.ltb_ge in E. apply lookup_take_lt. lia.
Qed.

Lemma newell_loop_take (positions : list float3) (l : list Z) (n k : nat)
    (i : Z) (st : float3 * float3) :
  i + Z.of_nat k <= Z.of_nat n ->
  for_loop k i (newell_step positions (take n l)) st
  = for_loop k i (newell_step positions l) st.
Proof.
  revert i st. induction k as [|k IH]; intros i st Hi; [reflexivity|].
  cbn [for_loop].
  assert (E : newell_step positions (take n l) i st = newell_step positions l i st)
    by (unfold newell_step; rewrite get_take by lia; reflexivity).
  rewrite E. destruct (newell_step positions l i st) as [st1|]; [|reflexivity].
  cbn [mbind option_bind].
  apply IH. lia.
Qed.

(** Newell's sum over the first [nverts] corners reads nothing behind them. *)
Lemma newell_sum_take (positions : list float3) (l : list Z) (nverts : Z) :
  newell_sum positions (take (Z.to_nat nverts) l) nverts
  = newell_sum positions l nverts.
Proof.
  unfold newell_sum. destruct (decide (nverts <= 0)) as [Hn | Hn].
  - unfold get. rewrite (proj2 (Z.ltb_lt (nverts - 1) 0)) by lia. reflexivity.
  - rewrite get_take by lia.
    destruct (get l (nverts - 1)) as [vl|]; [|reflexivity].
    cbn [mbind option_bind].
    destruct (get positions vl) as [v|]; [|reflexivity]. cbn [mbind option_bind].
    rewrite newell_loop_take by lia. reflexivity.
Qed.

(** On a mesh whose polygons all have more than four corners, the polygon
    normals that [calculate_normals_poly_and_vert] computes inline are those
    of [calculate_normals_poly]: when the first returns, the second returns
    the same polygon normals, whatever [normal_tri_v3] and [normal_quad_v3]
    are. *)
Theorem ngon_normals_agree (acosf : float -> float)
    (normal_tri_v3 : float3 -> float3 -> float3 -> float3)
    (normal_quad_v3 : float3 -> float3 -> float3 -> float3 -> float3)
    (positions : list float3) (polys : list MPoly) (corner_verts : list Z)
    (pn vn : list float3) :
  calculate_normals_poly_and_vert acosf positions polys corner_verts
    = Some (pn, vn) ->
  Forall (fun poly => 4 < totloop poly /\ 0 <= loopstart poly) polys ->
  calculate_normals_poly normal_tri_v3 normal_quad_v3 positions polys
    corner_verts = Some pn.
Proof.
  unfold calculate_normals_poly_and_vert, accumulated_vert_normals.
  intros H Hall. bind_case H as r Hr. destruct r as [pn' acc].
  injection H as <- _.
  destruct (poly_and_vert_loop_shape _ _ _ _ _ _ _ Hr) as [_ Hpn]. clear Hr.
  unfold calculate_normals_poly. apply mapM_Some.
  induction Hpn as [|poly n polys pn Hn _ IH]; [constructor|].
  apply Forall_cons in Hall as [[Hgt Hstart] Hall].
  constructor; [|exact (IH Hall)].
  rewrite (proj2 (Z.ltb_ge (loopstart poly) 0)) by lia.
  unfold BKE_mesh_calc_poly_normal.
  rewrite (proj2 (Z.gtb_lt (totloop poly) 4)) by lia.
  unfold mesh_calc_ngon_normal. unfold inline_poly_normal, slice in Hn.
  replace (totloop poly - 1 + 1) with (totloop poly) in Hn by lia.
  rewrite newell_sum_take in Hn. exact Hn.
Qed.

(** The pentagon in the plane z = 0. *)
Lemma ngon_normals_agree_witness :
  calculate_normals_poly (fun a _ _ => a) (fun a _ _ _ => a)
    (me_positions pentagon_data) (me_polys pentagon_data)
    (me_corner_verts pentagon_data) = Some [Float3 zero zero one].
Proof.
  destruct (calculate_normals_poly_and_vert acos_line (me_positions pentagon_data)
              (me_polys pentagon_data) (me_corner_verts pentagon_data))
    as [[pn vn]|] eqn:H; [|vm_compute in H; discriminate].
  assert (Hpn : pn = [Float3 zero zero one]).
  { vm_compute in H. injection H as <- _. reflexivity. }
  rewrite <- Hpn.
  apply (ngon_normals_agree _ _ _ _ _ _ _ _ H).
  repeat constructor; cbn; lia.
Defined.

(* ===================================================================== *)
(** ** What a fan task leaves alone *)
(* ===================================================================== *)

Lemma space_define_loops (acosf : float -> float) (s : MLoopNorSpace)
    (lnor vec_ref0 vec_other0 : float3) (edge_vectors : option (list float3)) :
  loops (BKE_lnor_space_define acosf s lnor vec_ref0 vec_other0 edge_vectors)
  = loops s
  /\ sflags (BKE_lnor_space_define acosf s lnor vec_ref0 vec_other0 edge_vectors)
     = sflags s.
Proof.
  unfold BKE_lnor_space_define. cbv zeta.
  destruct (_ || _); split; reflexivity.
Qed.

(** The spaces along the walk of a fan task, against the spaces [arr0] the
    task started from: the corners [cs] walked so far point to the space of
    the task and are in its list, in front of what the list held; the other
    corners and the other spaces are as before. *)
Definition fan_spaces_rel (arr0 : option MLoopNorSpaceArray) (osp : option nat)
    (cs : list Z) (cur : option MLoopNorSpaceArray) : Prop :=
  match arr0, cur with
  | None, None => True
  | Some a0, Some a =>
      (cs = [] /\ a = a0)
      \/ exists sp s0 s,
           osp = Some sp /\ spaces a0 !! sp = Some s0
           /\ spaces a = <[sp := s]> (spaces a0)
           /\ loops s = cs ++ loops s0 /\ sflags s = sflags s0
           /\ (forall c, c ∈ cs -> get (lspacearr a) c = Some (Some sp))
           /\ (forall c, c ∉ cs -> get (lspacearr a) c = get (lspacearr a0) c)
  | _, _ => False
  end.

Lemma fan_do_body_frame (acosf : float -> float) (m : Mesh) (st : SplitState)
    (osp : option nat) (pivot : Z) (mv_pivot : float3) (org c v p : Z)
    (a a' : FanAcc) (b : list Z) :
  (fa_normal a = b /\ (forall x, x ∈ fa_clnors a -> x ∈ b)
   /\ fan_spaces_rel (lnors_spacearr st) osp b (fa_spacearr a)) ->
  fan_do_body acosf m st osp pivot mv_pivot org c v p a = Some a' ->
  exists b', Some (v :: b) = Some b'
             /\ fa_normal a' = b' /\ (forall x, x ∈ fa_clnors a' -> x ∈ b')
             /\ fan_spaces_rel (lnors_spacearr st) osp b' (fa_spacearr a').
Proof.
  intros (<- & Hcl & Hrel) H. unfold fan_do_body in H.
  bind_case H as edge_curr He. bind_case H as vec_curr Hvec.
  bind_case H as pnor Hpnor. bind_case H as cl Hcl'.
  destruct cl as [[[[avg ref] count] invalid] clnors].
  bind_case H as ln Hln. bind_case H as sv Hsv. destruct sv as [arr ev].
  injection H as <-. cbn [fa_normal fa_clnors fa_spacearr].
  eexists. split; [reflexivity|]. split; [reflexivity|]. split.
  - destruct (bool_decide (clnors_data st = [])).
    + injection Hcl' as _ _ _ _ <-. intros x Hx. right. apply Hcl, Hx.
    + bind_case Hcl' as clnor Hclnor. bind_case Hcl' as r Hr.
      injection Hcl' as _ _ _ _ <-. intros x Hx.
      apply elem_of_cons in Hx as [-> | Hx]; [left | right; apply Hcl, Hx].
  - unfold fan_spaces_rel in *.
    destruct (lnors_spacearr st) as [a0|], (fa_spacearr a) as [cur|];
      try contradiction.
    2:{ injection Hsv as <- _. exact I. }
    destruct osp as [sp|]; [|discriminate].
    bind_case Hsv as arr' Harr'. injection Hsv as <- _.
    destruct (add_loop_inv _ _ _ _ _ Harr') as (s1 & Hs1 & Hput & Hspaces).
    right.
    assert (Hptr : (forall x, x ∈ v :: fa_normal a ->
                      x = v \/ (x <> v /\ x ∈ fa_normal a))).
    { intros x Hx. destruct (decide (x = v)) as [-> | Hne]; [left; reflexivity|].
      right. split; [exact Hne|]. apply elem_of_cons in Hx as [-> | Hx];
        [contradiction | exact Hx]. }
    destruct Hrel as [[Hnil ->] | (sp' & s0 & s & Hsp & Hs0 & Hsx & Hloops & Hfl
                                    & Hin & Hout)].
    + rewrite Hnil in *. eexists sp, s1, _.
      split; [reflexivity|]. split; [exact Hs1|]. split; [exact Hspaces|].
      cbn [loops sflags]. split; [reflexivity|]. split; [reflexivity|]. split.
      * intros x Hx. apply elem_of_cons in Hx as [-> | Hx]; [|inversion Hx].
        exact (put_lookup_eq _ _ _ _ Hput).
      * intros x Hx. apply not_elem_of_cons in Hx as [Hx _].
        eapply put_get_ne; [exact Hput | congruence].
    + injection Hsp as <-.
      assert (Hlt : (sp < length (spaces a0))%nat)
        by (eapply lookup_lt_Some, Hs0).
      rewrite Hsx, list_lookup_insert_eq in Hs1 by exact Hlt.
      injection Hs1 as <-.
      eexists sp, s0, _. split; [reflexivity|]. split; [exact Hs0|].
      split; [rewrite Hspaces, Hsx; apply list_insert_insert_eq|].
      cbn [loops sflags]. split; [rewrite Hloops; reflexivity|].
      split; [exact Hfl|]. split.
      * intros x Hx. destruct (Hptr x Hx) as [-> | [Hne Hx']].
        -- exact (put_lookup_eq _ _ _ _ Hput).
        -- rewrite (put_get_ne _ _ _ _ _ Hput) by congruence. apply Hin, Hx'.
      * intros x Hx. apply not_elem_of_cons in Hx as [Hne Hx].
        rewrite (put_get_ne _ _ _ _ _ Hput) by congruence. apply Hout, Hx.
Qed.

(** [split_loop_nor_fan_do] writes only at the corners of its fan: the loop
    normals and the custom data of the other corners are as before, and so
    are the space pointers of the other corners and the other spaces.  With
    an array of spaces, the corners of the fan point to the space of the
    task afterwards, and the list of that space holds these corners, in the
    order of [fan_corners], in front of what it held; its flags are as
    before. *)
Theorem fan_task_frame (cosf sinf acosf : float -> float) (m : Mesh)
    (edge_to_loops : list (Z * Z)) (fuel : nat) (st st' : SplitState)
    (data : LoopSplitTaskData) (e2lp : Z * Z) :
  split_loop_nor_fan_do cosf sinf acosf m edge_to_loops fuel st data
    = Some st' ->
  e2l_prev data = Some e2lp ->
  exists cs,
    fan_corners m edge_to_loops fuel (ml_curr_index data) (ml_prev_index data)
      (mp_index data) e2lp = Some cs
    /\ length (loopnors st') = length (loopnors st)
    /\ length (clnors_data st') = length (clnors_data st)
    /\ (forall c, c ∉ cs ->
          get (loopnors st') c = get (loopnors st) c
          /\ get (clnors_data st') c = get (clnors_data st) c)
    /\ match lnors_spacearr st with
       | None => lnors_spacearr st' = None
       | Some arr =>
           exists arr' sp s s',
             lnors_spacearr st' = Some arr' /\ lnor_space data = Some sp
             /\ spaces arr !! sp = Some s /\ spaces arr' !! sp = Some s'
             /\ loops s' = cs ++ loops s /\ sflags s' = sflags s
             /\ length (spaces arr') = length (spaces arr)
             /\ (forall k, k <> sp -> spaces arr' !! k = spaces arr !! k)
             /\ (forall c, c ∈ cs -> get (lspacearr arr') c = Some (Some sp))
             /\ (forall c, c ∉ cs ->
                   get (lspacearr arr') c = get (lspacearr arr) c)
       end.
Proof.
  unfold split_loop_nor_fan_do, fan_corners. intros H He2l.
  rewrite He2l in H. cbn [mbind option_bind] in H.
  bind_case H as pivot Hpivot. bind_case H as mv_pivot Hmv.
  bind_case H as org Horg. bind_case H as vec_org Hvec.
  bind_case H as acc Hacc.
  rewrite Hpivot, Horg. cbn [mbind option_bind].
  assert (Hwalk : exists cs,
            fan_loop m edge_to_loops fuel
              (fun _ vert _ (acc : list Z) => Some (vert :: acc)) pivot org
              (ml_prev_index data) (ml_curr_index data) (mp_index data) e2lp []
            = Some cs
            /\ fa_normal acc = cs /\ (forall x, x ∈ fa_clnors acc -> x ∈ cs)
            /\ fan_spaces_rel (lnors_spacearr st) (lnor_space data) cs
                 (fa_spacearr acc)).
  { set (acc0 := mkFanAcc _ _ _ _ _ _ _ _ _ _ _) in Hacc.
    refine (fan_loop_rel m edge_to_loops
              (fun a b => fa_normal a = b /\ (forall x, x ∈ fa_clnors a -> x ∈ b)
                          /\ fan_spaces_rel (lnors_spacearr st) (lnor_space data)
                               b (fa_spacearr a)) _
              (fun _ vert _ acc => Some (vert :: acc)) _ fuel pivot org _ _ _ _
              acc0 [] acc _ Hacc).
    - intros c v p a b a' HR Hb.
      exact (fan_do_body_frame acosf m st (lnor_space data) pivot mv_pivot org
               c v p a a' b HR Hb).
    - split; [reflexivity|]. split; [intros x Hx; inversion Hx|].
      unfold fan_spaces_rel, acc0. cbn [fa_spacearr].
      destruct (lnors_spacearr st); [left; split; reflexivity | exact I]. }
  destruct Hwalk as (cs & Hcs & Hnormal & Hclsub & Hrel). rewrite Hnormal in H.
  exists cs. split; [exact Hcs|].
  assert (Hput : forall (A : Type) (l l' : list A) idxs (x : A),
            put_all l idxs x = Some l' -> (forall i, i ∈ idxs -> i ∈ cs) ->
            length l' = length l /\ forall c, c ∉ cs -> get l' c = get l c).
  { intros A l l' idxs x Hp Hsub. destruct (put_all_spec _ _ _ _ Hp) as (Hl & _ & Ho).
    split; [exact Hl|]. intros c Hc. apply Ho. intros Hi. apply Hc, Hsub, Hi. }
  destruct (normalize_v3 (fa_lnor acc)) as [lnor lnor_len].
  unfold fan_spaces_rel in Hrel.
  destruct (fa_spacearr acc) as [arr|].
  - destruct (lnors_spacearr st) as [a0|]; [|contradiction].
    bind_case H as sp Hsp. bind_case H as vert Hvert. bind_case H as vnl Hvnl.
    bind_case H as arr' Harr'.
    destruct Hrel as [[-> _] | (sp' & s0 & s & Hsp' & Hs0 & Hsx & Hloops & Hfl
                                 & Hin & Hout)]; [discriminate|].
    rewrite Hsp in Hsp'. injection Hsp' as <-.
    destruct (update_space_inv _ _ _ _ Harr') as (s1 & Hs1 & Htbl & Hspaces).
    assert (Hlt : (sp < length (spaces a0))%nat)
      by (eapply lookup_lt_Some, Hs0).
    rewrite Hsx, list_lookup_insert_eq in Hs1 by exact Hlt. injection Hs1 as <-.
    rewrite Hsx, list_insert_insert_eq in Hspaces.
    assert (Hspace : exists arr1 s',
              arr1 = arr'
              /\ spaces arr1 !! sp = Some s'
              /\ loops s' = cs ++ loops s0 /\ sflags s' = sflags s0
              /\ length (spaces arr1) = length (spaces a0)
              /\ (forall k, k <> sp -> spaces arr1 !! k = spaces a0 !! k)
              /\ (forall c, c ∈ cs -> get (lspacearr arr1) c = Some (Some sp))
              /\ (forall c, c ∉ cs ->
                    get (lspacearr arr1) c = get (lspacearr a0) c)).
    { eexists arr', _. split; [reflexivity|]. rewrite Hspaces, Htbl.
      split; [apply list_lookup_insert_eq, Hlt|].
      match goal with
      | |- loops (BKE_lnor_space_define ?f ?x ?l ?r ?o ?e) = _ /\ _ =>
          destruct (space_define_loops f x l r o e) as [-> ->]
      end.
      split; [exact Hloops|]. split; [exact Hfl|].
      split; [apply length_insert|].
      split; [intros k Hk; apply list_lookup_insert_ne; congruence|].
      split; assumption. }
    destruct Hspace as (arr1 & s' & -> & Hs' & Hl' & Hf' & Hlen' & Hoth & Hin' & Hout').
    destruct (bool_decide (clnors_data st = [])).
    + bind_case H as lnors' Hl. injection H as <-.
      cbn [loopnors clnors_data lnors_spacearr].
      destruct (Hput _ _ _ _ _ Hl (fun i Hi => Hi)) as [Hlen Hfr].
      split; [exact Hlen|]. split; [reflexivity|].
      split; [intros c Hc; split; [apply Hfr, Hc | reflexivity]|].
      exists arr', sp, s0, s'. repeat split; assumption.
    + bind_case H as clnors' Hcl. bind_case H as ref Href.
      bind_case H as clnor_ref Hcr. bind_case H as sx Hsx'.
      bind_case H as lnors' Hl. injection H as <-.
      cbn [loopnors clnors_data lnors_spacearr].
      destruct (Hput _ _ _ _ _ Hl (fun i Hi => Hi)) as [Hlen Hfr].
      assert (Hclf : length clnors' = length (clnors_data st)
                     /\ forall c, c ∉ cs -> get clnors' c = get (clnors_data st) c).
      { destruct (fa_clnors_invalid acc).
        - exact (Hput _ _ _ _ _ Hcl Hclsub).
        - injection Hcl as <-. split; reflexivity. }
      destruct Hclf as [Hcllen Hclfr].
      split; [exact Hlen|]. split; [exact Hcllen|].
      split; [intros c Hc; split; [apply Hfr, Hc | apply Hclfr, Hc]|].
      exists arr', sp, s0, s'. repeat split; assumption.
  - destruct (lnors_spacearr st) as [a0|] eqn:Harr0; [contradiction|].
    destruct (neqb lnor_len zero).
    + bind_case H as lnors' Hl. injection H as <-.
      cbn [loopnors clnors_data lnors_spacearr].
      destruct (Hput _ _ _ _ _ Hl (fun i Hi => Hi)) as [Hlen Hfr].
      split; [exact Hlen|]. split; [reflexivity|].
      split; [intros c Hc; split; [apply Hfr, Hc | reflexivity]|]. reflexivity.
    + injection H as <-. split; [reflexivity|]. split; [reflexivity|].
      split; [intros c Hc; split; reflexivity | exact Harr0].
Qed.

(** The state before the task of the cyclic fan of the vertex 0, with the
    array of spaces and the space of the task. *)
Definition hex_split_spaces : SplitState :=
  mkSplitState (replicate 18 (Float3 zero zero one)) []
    (Some (BKE_lnor_space_create (BKE_lnor_spacearr_init 18)).1).

Definition hex_fan_task_space : LoopSplitTaskData :=
  mkTask (Some 0%nat) 0 2 (Some (2, 3)) 0.

(** The six corners of the vertex 0 end up in the space of the task; the
    corner 1, of the vertex 1, keeps its normal and has no space. *)
Lemma fan_task_frame_witness :
  exists st' arr' s',
    split_loop_nor_fan_do cos_half cos_half acos_line hex_mesh hex_e2l 18
      hex_split_spaces hex_fan_task_space = Some st'
    /\ lnors_spacearr st' = Some arr'
    /\ spaces arr' !! 0%nat = Some s'
    /\ loops s' = [15; 12; 9; 6; 3; 0]
    /\ get (lspacearr arr') 1 = Some None
    /\ get (loopnors st') 1 = Some (Float3 zero zero one).
Proof.
  destruct (split_loop_nor_fan_do cos_half cos_half acos_line hex_mesh hex_e2l 18
              hex_split_spaces hex_fan_task_space) as [st'|] eqn:H;
    [|vm_compute in H; discriminate].
  destruct (fan_task_frame _ _ _ _ _ _ _ _ _ (2, 3) H eq_refl)
    as (cs & Hcs & _ & _ & Hfr & Hsp).
  assert (Hcs' : cs = [15; 12; 9; 6; 3; 0]).
  { vm_compute in Hcs. injection Hcs as <-. reflexivity. }
  subst cs. cbn [lnors_spacearr hex_split_spaces] in Hsp.
  destruct Hsp as (arr' & sp & s & s' & Harr' & Hsp & Hs & Hs' & Hl & _ & _ & _
                   & _ & Hout).
  injection Hsp as <-. vm_compute in Hs. injection Hs as <-.
  assert (Hnot : (1 : Z) ∉ [15; 12; 9; 6; 3; 0]).
  { intros Hin. repeat (apply elem_of_cons in Hin as [Hin | Hin]; [discriminate|]).
    inversion Hin. }
  exists st', arr', s'. split; [reflexivity|]. split; [exact Harr'|].
  split; [exact Hs'|]. split; [rewrite Hl; reflexivity|].
  split; [rewrite (Hout 1 Hnot); reflexivity|].
  destruct (Hfr 1 Hnot) as [-> _]. reflexivity.
Defined.

(* ===================================================================== *)
(** ** The marks of the cyclic-fan check *)
(* ===================================================================== *)

(** The marks [skip'] are the marks [skip] with some more corners marked. *)
Definition marks_grow (skip skip' : list bool) : Prop :=
  length skip' = length skip
  /\ forall i, get skip i = Some true -> get skip' i = Some true.

Lemma marks_grow_put (skip skip' : list bool) (c : Z) :
  put skip c true = Some skip' -> marks_grow skip skip'.
Proof.
  intros H. split; [exact (put_length _ _ _ _ H)|].
  intros i Hi. destruct (decide (c = i)) as [<- | Hne].
  - exact (put_lookup_eq _ _ _ _ H).
  - rewrite (put_get_ne _ _ _ _ _ H Hne). exact Hi.
Qed.

Lemma cyclic_loop_marks (m : Mesh) (edge_to_loops : list (Z * Z)) (n : nat)
    (pivot start curr : Z) (e2l : Z * Z) (skip skip' : list bool) (r : bool) :
  cyclic_loop m edge_to_loops n pivot start curr e2l skip = Some (r, skip') ->
  marks_grow skip skip'.
Proof.
  revert curr e2l skip. induction n as [|n IH]; intros curr e2l skip H;
    [discriminate|].
  cbn [cyclic_loop] in H. bind_case H as nxt Hnxt. destruct nxt as [[c v] p].
  bind_case H as edge He. bind_case H as e2l' He2l.
  destruct (IS_EDGE_SHARP e2l').
  { injection H as _ <-. split; [reflexivity | auto]. }
  bind_case H as skipped Hsk. destruct skipped.
  { injection H as _ <-. split; [reflexivity | auto]. }
  bind_case H as skip1 Hs1.
  destruct (marks_grow_put _ _ _ Hs1) as [Hl1 Hm1].
  destruct (IH _ _ _ H) as [Hl Hm].
  split; [congruence | auto].
Qed.

(** [loop_split_generator_check_cyclic_smooth_fan] only adds marks to
    [skip_loops]: no corner marked before is unmarked.  When the edge before
    the corner is sharp the answer is false and no mark is set; otherwise
    the corner asked about is marked, whatever the answer. *)
Theorem cyclic_check_marks (m : Mesh) (edge_to_loops : list (Z * Z))
    (fuel : nat) (e2l_prev : Z * Z) (skip_loops skip' : list bool)
    (ml_curr_index ml_prev_index : Z) (r : bool) :
  loop_split_generator_check_cyclic_smooth_fan m edge_to_loops fuel e2l_prev
    skip_loops ml_curr_index ml_prev_index = Some (r, skip') ->
  length skip' = length skip_loops
  /\ (forall i, get skip_loops i = Some true -> get skip' i = Some true)
  /\ (if IS_EDGE_SHARP e2l_prev then r = false /\ skip' = skip_loops
      else get skip' ml_curr_index = Some true).
Proof.
  unfold loop_split_generator_check_cyclic_smooth_fan. intros H.
  bind_case H as pivot Hp. destruct (IS_EDGE_SHARP e2l_prev).
  { injection H as <- <-. auto. }
  bind_case H as skip1 Hs1.
  destruct (marks_grow_put _ _ _ Hs1) as [Hl1 Hm1].
  destruct (cyclic_loop_marks _ _ _ _ _ _ _ _ _ _ H) as [Hl Hm].
  split; [congruence|]. split; [auto|].
  apply Hm. exact (put_lookup_eq _ _ _ _ Hs1).
Qed.

(** On the closed fan, from the corner 0: the fan is cyclic and smooth, and
    the six corners of the vertex 0 are marked. *)
Lemma cyclic_check_marks_witness :
  exists skip',
    loop_split_generator_check_cyclic_smooth_fan hex_mesh hex_e2l 18 (2, 3)
      (replicate 18 false) 0 2 = Some (true, skip')
    /\ get skip' 0 = Some true /\ length skip' = 18%nat.
Proof.
  destruct (loop_split_generator_check_cyclic_smooth_fan hex_mesh hex_e2l 18
              (2, 3) (replicate 18 false) 0 2) as [[r skip']|] eqn:H;
    [|vm_compute in H; discriminate].
  destruct (cyclic_check_marks _ _ _ _ _ _ _ _ _ H) as (Hl & _ & Hc).
  assert (Hr : r = true).
  { vm_compute in H. injection H as <- _. reflexivity. }
  subst r. exists skip'. split; [reflexivity|]. split; [exact Hc | exact Hl].
Defined.

(* ===================================================================== *)
(** ** The two conversions between codes and factors *)
(* ===================================================================== *)

(** The round trip holds for the [n] codes from [s] on. *)
Fixpoint codes_ok (n : nat) (s : Z) : bool :=
  match n with
  | O => true
  | S n' =>
      (unit_float_to_short (unit_short_to_float s) =? s) && codes_ok n' (s + 1)
  end.

Lemma codes_ok_spec (n : nat) (s : Z) :
  codes_ok n s = true ->
  forall k, 0 <= k < Z.of_nat n ->
    unit_float_to_short (unit_short_to_float (s + k)) = s + k.
Proof.
  revert s. induction n as [|n IH]; intros s H k Hk; [lia|].
  cbn [codes_ok] in H. apply andb_true_iff in H as [Hs Hrest].
  destruct (decide (k = 0)) as [-> | Hne].
  - rewrite Z.add_0_r. apply Z.eqb_eq, Hs.
  - replace (s + k) with (s + 1 + (k - 1)) by lia. apply (IH _ Hrest). lia.
Qed.

Lemma all_codes_ok : codes_ok (Z.to_nat 65536) (-32768) = true.
Proof. vm_compute. reflexivity. Qed.

(** [unit_float_to_short] undoes [unit_short_to_float] on every [short]:
    the division by 32767, the multiplication by 32767, the addition of 0.5
    and the floor, all in single precision, give the code back. *)
Theorem unit_short_round_trip (s : Z) :
  -32768 <= s <= 32767 ->
  unit_float_to_short (unit_short_to_float s) = s.
Proof.
  intros Hs. replace s with (-32768 + (s + 32768)) by lia.
  apply (codes_ok_spec _ _ all_codes_ok). rewrite Z2Nat.id; lia.
Qed.

Lemma unit_short_round_trip_witness :
  unit_float_to_short (unit_short_to_float 12345) = 12345.
Proof. apply unit_short_round_trip. lia. Defined.
